(** * RipeStore catalog viewer: version ordering, date parsing, repository
    normalisation, merge by bundle, ranked search and the controller's
    filter/sort step.

    The development follows the JavaScript sources:
    - [utils.js]            [parseDateString], [semverCompare], [ellipsize],
                            [fetchJSON]
    - [alt-source-kit.js]   the [ASRepository] constructor family,
                            [fetchRepo]
    - [repo-loader.js]      [fetchRepo]
    - [search.js]           [searchApps]
    - [app.js]              [mergeByBundle], [sortApps], [filterAndPrepare]
    - [sources.js]          the handlers of the list of sources
    - the detail page       its merge of the collected apps and its
                            version comparator

    Conventions.  A JavaScript string is a [string]; every [ascii] stands for
    one UTF-16 code unit below 256.  A time value is an integer number of
    milliseconds since the epoch; [None] in an [option Z] stands for NaN.
    Objects that the code mutates or shares (app records, version arrays)
    live in a store and are passed by reference.  What the platform leaves
    to the engine ([Date.parse] on free-form text,
    [String.prototype.localeCompare], the Fuse.js matcher) is a [Variable]
    of the section that uses it.  The scores of the matcher and the
    relevances computed from them are binary64 floats. *)

From Stdlib Require Import ZArith NArith String Ascii Lia.
From Stdlib Require Import DecimalString.
From Stdlib Require PrimFloat.
From Stdlib Require Import Sorting.Permutation Sorting.Sorted.
From stdpp Require Import base list.

Set Warnings "-register-all".
Set Warnings "-inexact-float".

Open Scope string_scope.

(** ** JavaScript strings *)

Module JsString.

(** White space and line terminators below 256, as [trim] and [ToNumber]
    see them: TAB, LF, VT, FF, CR, SP and NBSP. *)
Definition is_ws (c : ascii) : bool :=
  match nat_of_ascii c with
  | 9%nat | 10%nat | 11%nat | 12%nat | 13%nat | 32%nat | 160%nat => true
  | _ => false
  end.

Fixpoint trimStart (s : string) : string :=
  match s with
  | EmptyString => EmptyString
  | String c s' => if is_ws c then trimStart s' else s
  end.

Fixpoint trimEnd (s : string) : string :=
  match s with
  | EmptyString => EmptyString
  | String c s' =>
      match trimEnd s' with
      | EmptyString => if is_ws c then EmptyString else String c EmptyString
      | t => String c t
      end
  end.

Definition trim (s : string) : string := trimEnd (trimStart s).

(** [toLowerCase] on code units below 256: A-Z and the Latin-1 capitals
    (0xC0-0xDE without the multiplication sign 0xD7) move up by 32. *)
Definition lower_char (c : ascii) : ascii :=
  let n := nat_of_ascii c in
  if ((65 <=? n) && (n <=? 90))%nat then ascii_of_nat (n + 32)
  else if ((192 <=? n) && (n <=? 222) && negb (n =? 215))%nat
       then ascii_of_nat (n + 32)
  else c.

Fixpoint toLowerCase (s : string) : string :=
  match s with
  | EmptyString => EmptyString
  | String c s' => String (lower_char c) (toLowerCase s')
  end.

Definition startsWith (s q : string) : bool := String.prefix q s.

Fixpoint includes (s q : string) : bool :=
  String.prefix q s ||
  match s with
  | EmptyString => false
  | String _ s' => includes s' q
  end.

(** [s.split(/[...]/)] for a one-character class [p]: never empty. *)
Fixpoint split (p : ascii -> bool) (s : string) : list string :=
  match s with
  | EmptyString => [EmptyString]
  | String c s' =>
      if p c then EmptyString :: split p s'
      else match split p s' with
           | [] => [String c EmptyString]
           | h :: t => String c h :: t
           end
  end.

(** [x < y] on two strings: code units, lexicographically. *)
Definition ltb (x y : string) : bool := String.ltb x y.

Definition is_digit (c : ascii) : bool :=
  let n := nat_of_ascii c in ((48 <=? n) && (n <=? 57))%nat.

Definition truthy (s : string) : bool :=
  match s with EmptyString => false | _ => true end.

(** [a || b] on two strings. *)
Definition or_else (a b : string) : string := if truthy a then a else b.

End JsString.

(** ** Numbers read from text

  [+x] on a version segment.  A segment holds no [.], [+] or [-] (they
  are the separators), so the [StringNumericLiteral] grammar leaves: the
  empty string (zero), [Infinity], decimal digits with an optional
  exponent, and the 0x / 0o / 0b integer literals.  The mathematical value
  is a natural number, rounded to the nearest double (ties to even). *)

Module JsNumber.

Inductive num : Type :=
| Fin (n : N)      (* a finite double holding the integer [n] *)
| Infinity.

Definition digit_val (c : ascii) : option N :=
  let n := N_of_ascii c in
  if ((48 <=? n) && (n <=? 57))%N then Some (n - 48)%N
  else if ((97 <=? n) && (n <=? 102))%N then Some (n - 87)%N
  else if ((65 <=? n) && (n <=? 70))%N then Some (n - 55)%N
  else None.

(** Digits of [s] in base [base], most significant first, onto [acc]. *)
Fixpoint digits (base : N) (s : string) (acc : N) : option N :=
  match s with
  | EmptyString => Some acc
  | String c s' =>
      match digit_val c with
      | Some d => if (d <? base)%N then digits base s' (acc * base + d)%N
                  else None
      | None => None
      end
  end.

Definition nonempty_digits (base : N) (s : string) : option N :=
  match s with
  | EmptyString => None
  | _ => digits base s 0%N
  end.

Definition is_exp_char (c : ascii) : bool :=
  match nat_of_ascii c with 101%nat | 69%nat => true | _ => false end.

(** Nearest double to a natural number. *)
Definition round_double (n : N) : num :=
  if (n <? 2 ^ 53)%N then Fin n
  else
    let k := (N.log2 n - 52)%N in
    let q := N.shiftr n k in
    let r := (n mod 2 ^ k)%N in
    let half := (2 ^ (k - 1))%N in
    let q' := if (half <? r)%N then (q + 1)%N
              else if (r =? half)%N && N.odd q then (q + 1)%N
              else q in
    let v := N.shiftl q' k in
    if (v <? 2 ^ 1024)%N then Fin v else Infinity.

Definition decimal_literal (s : string) : option num :=
  match JsString.split is_exp_char s with
  | [m] =>
      match nonempty_digits 10 m with
      | Some v => Some (round_double v)
      | None => None
      end
  | [m; e] =>
      match nonempty_digits 10 m, nonempty_digits 10 e with
      | Some v, Some x => Some (round_double (v * 10 ^ x)%N)
      | _, _ => None
      end
  | _ => None
  end.

Definition prefixed_literal (s : string) : option num :=
  match s with
  | String "0" (String c rest) =>
      let base :=
        match nat_of_ascii c with
        | 120%nat | 88%nat => Some 16%N
        | 111%nat | 79%nat => Some 8%N
        | 98%nat | 66%nat => Some 2%N
        | _ => None
        end in
      match base with
      | Some b =>
          match nonempty_digits b rest with
          | Some v => Some (round_double v)
          | None => None
          end
      | None => None
      end
  | _ => None
  end.

(** [+x]; [None] is NaN. *)
Definition to_number (x : string) : option num :=
  let s := JsString.trim x in
  if String.eqb s "" then Some (Fin 0)
  else if String.eqb s "Infinity" then Some Infinity
  else match prefixed_literal s with
       | Some v => Some v
       | None => decimal_literal s
       end.

(** [x < y] on two numbers, neither NaN. *)
Definition ltb (x y : num) : bool :=
  match x, y with
  | Fin a, Fin b => (a <? b)%N
  | Fin _, Infinity => true
  | Infinity, _ => false
  end.

End JsNumber.

(** ** JavaScript values

    What [JSON.parse] can return, and [undefined] for an absent property. *)

Module Js.

Inductive value : Type :=
| VUndefined
| VNull
| VBool (b : bool)
| VNum (n : Z)                              (* only its being zero is observed *)
| VStr (s : string)
| VArr (items : list value)
| VObj (fields : list (string * value)).

(** [!!v] *)
Definition truthy (v : value) : bool :=
  match v with
  | VUndefined | VNull => false
  | VBool b => b
  | VNum n => negb (n =? 0)%Z
  | VStr s => JsString.truthy s
  | VArr _ | VObj _ => true
  end.

(** [typeof v === 'object'] *)
Definition typeof_object (v : value) : bool :=
  match v with
  | VNull | VArr _ | VObj _ => true
  | _ => false
  end.

Definition is_string (v : value) : bool :=
  match v with VStr _ => true | _ => false end.

Fixpoint assoc (k : string) (fields : list (string * value)) : value :=
  match fields with
  | [] => VUndefined
  | (k', v) :: rest => if String.eqb k k' then v else assoc k rest
  end.

(** [data.k] on a value that passed the [typeof data === 'object'] guard.
    None of the keys the constructors read is an own or inherited property
    of an array. *)
Definition get (data : value) (k : string) : value :=
  match data with
  | VObj fields => assoc k fields
  | _ => VUndefined
  end.

(** [a || b] *)
Definition or_else (a b : value) : value := if truthy a then a else b.

End Js.

(** ** Time values

    [Date.UTC] as ECMA-262 defines it (MakeFullYear, MakeDay, MakeTime,
    MakeDate, TimeClip), on integer arguments. *)

Module JsDate.
Open Scope Z_scope.

Definition msPerDay : Z := 86400000.
Definition msPerHour : Z := 3600000.
Definition msPerMinute : Z := 60000.
Definition msPerSecond : Z := 1000.

Definition DayFromYear (y : Z) : Z :=
  365 * (y - 1970) + (y - 1969) / 4 - (y - 1901) / 100 + (y - 1601) / 400.

Definition InLeapYear (y : Z) : bool :=
  (y mod 4 =? 0) && (negb (y mod 100 =? 0) || (y mod 400 =? 0)).

(** Days before month [mn] (0 = January) in a common year. *)
Definition month_start (mn : Z) : Z :=
  match mn with
  | 0 => 0 | 1 => 31 | 2 => 59 | 3 => 90 | 4 => 120 | 5 => 151
  | 6 => 181 | 7 => 212 | 8 => 243 | 9 => 273 | 10 => 304 | _ => 334
  end.

Definition DaysInMonth (y mn : Z) : Z :=
  match mn with
  | 1 => if InLeapYear y then 29 else 28
  | 3 | 5 | 8 | 10 => 30
  | _ => 31
  end.

Definition MakeDay (year month date : Z) : Z :=
  let ym := year + month / 12 in
  let mn := month mod 12 in
  let leap := if InLeapYear ym && (2 <=? mn) then 1 else 0 in
  DayFromYear ym + month_start mn + leap + date - 1.

Definition MakeTime (hour min sec ms : Z) : Z :=
  hour * msPerHour + min * msPerMinute + sec * msPerSecond + ms.

Definition MakeDate (day time : Z) : Z := day * msPerDay + time.

(** [None] is NaN. *)
Definition TimeClip (t : Z) : option Z :=
  if Z.abs t <=? 8640000000000000 then Some t else None.

Definition MakeFullYear (y : Z) : Z :=
  if (0 <=? y) && (y <=? 99) then 1900 + y else y.

Definition UTC (year month date hours minutes seconds : Z) : option Z :=
  TimeClip (MakeDate (MakeDay (MakeFullYear year) month date)
                     (MakeTime hours minutes seconds 0)).

(** Reading a time value back as a UTC calendar date and clock time:
    (year, month 1-12, day, hour, minute, second, millisecond). *)
Definition civil_from_days (days : Z) : Z * Z * Z :=
  let z := days + 719468 in
  let era := z / 146097 in
  let doe := z - era * 146097 in
  let yoe := (doe - doe / 1460 + doe / 36524 - doe / 146096) / 365 in
  let doy := doe - (365 * yoe + yoe / 4 - yoe / 100) in
  let mp := (5 * doy + 2) / 153 in
  let d := doy - (153 * mp + 2) / 5 + 1 in
  let m := if mp <? 10 then mp + 3 else mp - 9 in
  let y := yoe + era * 400 + (if m <=? 2 then 1 else 0) in
  (y, m, d).

Definition utc_fields (t : Z) : Z * Z * Z * Z * Z * Z * Z :=
  let day := t / msPerDay in
  let r := t mod msPerDay in
  let '(y, m, d) := civil_from_days day in
  (y, m, d, r / msPerHour, (r mod msPerHour) / msPerMinute,
   (r mod msPerMinute) / msPerSecond, r mod msPerSecond).

End JsDate.

(** ** utils.js *)

Module Utils.

(** A version segment after [x => isNaN(+x) ? x : +x]. *)
Inductive segment : Type :=
| SNum (n : JsNumber.num)
| SStr (s : string).

Definition is_sep (c : ascii) : bool :=
  match nat_of_ascii c with
  | 46%nat | 43%nat | 45%nat => true      (* . + - *)
  | _ => false
  end.

(** Whether, and how often, a character of the class [p] occurs in [s]. *)
Fixpoint has_char (p : ascii -> bool) (s : string) : bool :=
  match s with
  | EmptyString => false
  | String c s' => p c || has_char p s'
  end.

Fixpoint count_char (p : ascii -> bool) (s : string) : nat :=
  match s with
  | EmptyString => 0
  | String c s' => (if p c then 1 else 0) + count_char p s'
  end.

Definition coerce (x : string) : segment :=
  match JsNumber.to_number x with
  | None => SStr x
  | Some n => SNum n
  end.

(** [seg = s => String(s || "").split(/[.+\-]/).map(...)] *)
Definition seg (s : string) : list segment :=
  map coerce (JsString.split is_sep s).

(** One turn of the loop body on defined [x] and [y]: [Some r] returns
    [r], [None] goes on to the next index. *)
Definition compare_at (x y : segment) : option Z :=
  match x, y with
  | SNum a, SNum b =>
      if JsNumber.ltb a b then Some (-1)%Z
      else if JsNumber.ltb b a then Some 1%Z
      else None
  | SStr a, SStr b =>
      if JsString.ltb a b then Some (-1)%Z
      else if JsString.ltb b a then Some 1%Z
      else None
  | SNum _, SStr _ => Some 1%Z
  | SStr _, SNum _ => Some (-1)%Z
  end.

(** [for (let i = ...; i < n; i++)] with [k = n - i] turns left. *)
Fixpoint semver_loop (A B : list segment) (i k : nat) : Z :=
  match k with
  | O => 0%Z
  | S k' =>
      match A !! i, B !! i with
      | None, _ => (-1)%Z
      | Some _, None => 1%Z
      | Some x, Some y =>
          match compare_at x y with
          | Some r => r
          | None => semver_loop A B (S i) k'
          end
      end
  end.

Definition semverCompare (a b : string) : Z :=
  let A := seg a in
  let B := seg b in
  let n := Nat.max (length A) (length B) in
  semver_loop A B 0 n.

(** The comparison in the words of the specification: segment by segment,
    a missing segment lowest, native order within a type, a number above
    a text. *)
Fixpoint compare_segments (A B : list segment) : Z :=
  match A, B with
  | [], [] => 0%Z
  | [], _ :: _ => (-1)%Z
  | _ :: _, [] => 1%Z
  | x :: A', y :: B' =>
      match x, y with
      | SNum a, SNum b =>
          if JsNumber.ltb a b then (-1)%Z
          else if JsNumber.ltb b a then 1%Z
          else compare_segments A' B'
      | SStr a, SStr b =>
          if JsString.ltb a b then (-1)%Z
          else if JsString.ltb b a then 1%Z
          else compare_segments A' B'
      | SNum _, SStr _ => 1%Z
      | SStr _, SNum _ => (-1)%Z
      end
  end.

(** [parseInt(s)]: leading white space, an optional sign, an optional 0x,
    then the longest run of digits; [None] is NaN.  Exact below 2^53, which
    covers the two- and four-digit groups the date parser passes. *)
Fixpoint digit_run (base : N) (s : string) (acc : option N) : option N :=
  match s with
  | EmptyString => acc
  | String c s' =>
      match JsNumber.digit_val c with
      | Some d =>
          if (d <? base)%N
          then digit_run base s' (Some (match acc with
                                        | Some a => a * base + d
                                        | None => d
                                        end)%N)
          else acc
      | None => acc
      end
  end.

Definition parseInt (s : string) : option Z :=
  let s := JsString.trimStart s in
  let '(neg, s) :=
    match s with
    | String "-" r => (true, r)
    | String "+" r => (false, r)
    | _ => (false, s)
    end in
  let r :=
    match s with
    | String "0" (String "x" r) | String "0" (String "X" r) =>
        digit_run 16 r None
    | _ => digit_run 10 s None
    end in
  match r with
  | Some n => Some (if neg then - Z.of_N n else Z.of_N n)%Z
  | None => None
  end.

Fixpoint all_digits (s : string) : bool :=
  match s with
  | EmptyString => true
  | String c s' => JsString.is_digit c && all_digits s'
  end.

(** [s.match(/^(\d{4})(\d{2})(\d{2})(\d{2})(\d{2})(\d{2})$/)]: the six
    captured groups. *)
Definition fullDateMatch (s : string)
  : option (string * string * string * string * string * string) :=
  if (String.length s =? 14)%nat && all_digits s then
    Some (substring 0 4 s, substring 4 2 s, substring 6 2 s,
          substring 8 2 s, substring 10 2 s, substring 12 2 s)
  else None.

(** [Date.UTC] on the results of [parseInt]: NaN in, NaN out. *)
Definition Date_UTC (year month day hour minute second : option Z)
  : option Z :=
  match year, month, day, hour, minute, second with
  | Some y, Some mo, Some d, Some h, Some mi, Some se =>
      JsDate.UTC y mo d h mi se
  | _, _, _, _, _, _ => None
  end.

(** Attempt 1 of [parseDateString]: the YYYYMMDDHHmmss form, read as UTC.
    [None] when the pattern does not match or the time value is NaN. *)
Definition compactDate (s : string) : option Z :=
  match fullDateMatch s with
  | Some (year, month, day, hour, minute, second) =>
      Date_UTC (parseInt year)
               (option_map (fun m => m - 1)%Z (parseInt month))
               (parseInt day) (parseInt hour) (parseInt minute)
               (parseInt second)
  | None => None
  end.

Section ParseDate.

(** [Date.parse] on a string: the time value, or [None] for NaN.  Which
    strings it accepts beyond the ISO format is up to the engine. *)
Variable Date_parse : string -> option Z.

(** [new Date(s)] for a string [s]: the time value of the new object. *)
Definition new_Date (s : string) : option Z := Date_parse s.

(** The returned [Date] is stood for by its (finite) time value; [None] is
    the [null] result. *)
Definition parseDateString (v : Js.value) : option Z :=
  match v with
  | Js.VStr s0 =>
      if String.eqb (JsString.trim s0) "" then None
      else
        let s := JsString.trim s0 in
        match compactDate s with
        | Some t => Some t
        | None =>
            match Date_parse s with
            | Some t => Some t
            | None =>
                match new_Date s with
                | Some t => Some t
                | None => None
                end
            end
        end
  | _ => None
  end.

End ParseDate.

End Utils.

(** ** alt-source-kit.js

    The constructors of the strict path.  A constructor either returns the
    new object or throws; what is thrown is an [Error] with a message, or
    the engine's [TypeError] when [.map] is called on something that has
    none. *)

Module AltSourceKit.
Import Js.

Inductive error : Type :=
| Error (message : string)
| TypeError.

Inductive result (A : Type) : Type :=
| Ok (a : A)
| Throw (e : error).
Arguments Ok {A} a.
Arguments Throw {A} e.

Definition bind {A B : Type} (c : result A) (k : A -> result B) : result B :=
  match c with
  | Ok a => k a
  | Throw e => Throw e
  end.

Notation "'let*' x ':=' c 'in' k" := (bind c (fun x => k))
  (at level 10, x name, c at level 100, k at level 200, only parsing).

(** The guard every constructor opens with:
    [if (!data || typeof data !== 'object') throw new Error(msg)]. *)
Definition guard (msg : string) (data : value) : result unit :=
  if negb (truthy data) || negb (typeof_object data)
  then Throw (Error msg) else Ok tt.

(** [xs.map(x => new C(x))], elements in order, the first throw wins. *)
Fixpoint map_new {A : Type} (ctor : value -> result A) (items : list value)
  : result (list A) :=
  match items with
  | [] => Ok []
  | x :: rest =>
      let* a := ctor x in
      let* r := map_new ctor rest in
      Ok (a :: r)
  end.

(** [(v || []).map(x => new C(x))]: only an array has a callable [map]. *)
Definition map_or_empty {A : Type} (ctor : value -> result A) (v : value)
  : result (list A) :=
  match or_else v (VArr []) with
  | VArr items => map_new ctor items
  | _ => Throw TypeError
  end.

Definition str_default (v : value) : value := or_else v (VStr "").

Record Version : Type := mkVersion {
  v_version : value;
  v_buildVersion : value;
  v_date : value;
  v_localizedDescription : value;
  v_downloadURL : value;
  v_size : value;
  v_minOSVersion : value
}.

Definition new_Version (data : value) : result Version :=
  let* _ := guard "Invalid version data" data in
  Ok {| v_version := str_default (get data "version");
        v_buildVersion := str_default (get data "buildVersion");
        v_date := str_default (get data "date");
        v_localizedDescription := str_default (get data "localizedDescription");
        v_downloadURL := str_default (get data "downloadURL");
        v_size := or_else (get data "size") (VNum 0);
        v_minOSVersion := str_default (get data "minOSVersion") |}.

Record News : Type := mkNews {
  n_identifier : value;
  n_title : value;
  n_caption : value;
  n_tintColor : value;
  n_imageURL : value;
  n_url : value;
  n_appID : value;
  n_date : value;
  n_notify : value
}.

Definition new_News (data : value) : result News :=
  let* _ := guard "Invalid news data" data in
  Ok {| n_identifier := str_default (get data "identifier");
        n_title := str_default (get data "title");
        n_caption := str_default (get data "caption");
        n_tintColor := str_default (get data "tintColor");
        n_imageURL := str_default (get data "imageURL");
        n_url := str_default (get data "url");
        n_appID := str_default (get data "appID");
        n_date := str_default (get data "date");
        n_notify := or_else (get data "notify") (VBool false) |}.

Record Permission : Type := mkPermission {
  p_type : value;
  p_usageDescription : value
}.

Definition new_Permission (data : value) : result Permission :=
  let* _ := guard "Invalid permission data" data in
  Ok {| p_type := str_default (get data "type");
        p_usageDescription := str_default (get data "usageDescription") |}.

Record AppPermissions : Type := mkAppPermissions {
  ap_entitlements : value;
  ap_privacy : value
}.

Definition new_AppPermissions (data : value) : result AppPermissions :=
  let* _ := guard "Invalid app permissions data" data in
  Ok {| ap_entitlements := or_else (get data "entitlements") (VObj []);
        ap_privacy := or_else (get data "privacy") (VObj []) |}.

Record App : Type := mkApp {
  a_bundleIdentifier : value;
  a_name : value;
  a_subtitle : value;
  a_description : value;
  a_developerName : value;
  a_versions : list Version;
  a_version : value;
  a_versionDate : value;
  a_versionDescription : value;
  a_downloadURL : value;
  a_localizedDescription : value;
  a_iconURL : value;
  a_tintColor : value;
  a_size : value;
  a_category : value;
  a_beta : value;
  a_permissions : list Permission;
  a_appPermissions : option AppPermissions;      (* [None] is [null] *)
  a_screenshots : value;
  a_screenshotURLs : value
}.

Definition new_App (data : value) : result App :=
  let* _ := guard "Invalid app data" data in
  let* versions := map_or_empty new_Version (get data "versions") in
  let* permissions := map_or_empty new_Permission (get data "permissions") in
  let* appPermissions :=
    (if truthy (get data "appPermissions")
     then let* p := new_AppPermissions (get data "appPermissions") in
          Ok (Some p)
     else Ok None) in
  Ok {| a_bundleIdentifier := str_default (get data "bundleIdentifier");
        a_name := str_default (get data "name");
        a_subtitle := str_default (get data "subtitle");
        a_description := str_default (get data "description");
        a_developerName := str_default (get data "developerName");
        a_versions := versions;
        a_version := str_default (get data "version");
        a_versionDate := str_default (get data "versionDate");
        a_versionDescription := str_default (get data "versionDescription");
        a_downloadURL := str_default (get data "downloadURL");
        a_localizedDescription := str_default (get data "localizedDescription");
        a_iconURL := str_default (get data "iconURL");
        a_tintColor := str_default (get data "tintColor");
        a_size := or_else (get data "size") (VNum 0);
        a_category := str_default (get data "category");
        a_beta := or_else (get data "beta") (VBool false);
        a_permissions := permissions;
        a_appPermissions := appPermissions;
        a_screenshots := or_else (get data "screenshots") (VArr []);
        a_screenshotURLs := or_else (get data "screenshotURLs") (VArr []) |}.

Record ASRepository : Type := mkASRepository {
  r_identifier : value;
  r_name : value;
  r_subtitle : value;
  r_description : value;
  r_website : value;
  r_iconURL : value;
  r_headerURL : value;
  r_tintColor : value;
  r_patreonURL : value;
  r_userInfo : value;
  r_apps : list App;
  r_featuredApps : value;
  r_news : list News
}.

Definition new_ASRepository (data : value) : result ASRepository :=
  let* _ := guard "Invalid repository data" data in
  let* apps := map_or_empty new_App (get data "apps") in
  let* news := map_or_empty new_News (get data "news") in
  Ok {| r_identifier := str_default (get data "identifier");
        r_name := str_default (get data "name");
        r_subtitle := str_default (get data "subtitle");
        r_description := str_default (get data "description");
        r_website := str_default (get data "website");
        r_iconURL := str_default (get data "iconURL");
        r_headerURL := str_default (get data "headerURL");
        r_tintColor := str_default (get data "tintColor");
        r_patreonURL := str_default (get data "patreonURL");
        r_userInfo := or_else (get data "userInfo") (VObj []);
        r_apps := apps;
        r_featuredApps := or_else (get data "featuredApps") (VArr []);
        r_news := news |}.

(** An object in the sense of the guard: an array or a plain object. *)
Definition is_object (data : value) : bool :=
  truthy data && typeof_object data.

(** A field that [.map] can be run over: absent or falsy (then the empty
    array stands in), or an array whose entries the constructor accepts. *)
Definition mappable {A : Type} (ctor : value -> result A) (v : value) : Prop :=
  truthy v = false \/
  exists items, v = VArr items /\
                Forall (fun x => exists a, ctor x = Ok a) items.

Definition repo_error : error := Error "Invalid repository data".

End AltSourceKit.


(** ** Arrays

    [Array.prototype.sort] with a comparator.  ECMA-262 asks for a stable
    sort and leaves the order open when the comparator is inconsistent; the
    model is the stable sort by insertion from the right.  A NaN from the
    comparator counts as zero. *)

Module JsArray.

Section Sort.
Context {A : Type}.
(** [gt x y]: the comparator's result on [(x, y)] is above zero. *)
Variable gt : A -> A -> bool.

Fixpoint insert_sorted (x : A) (l : list A) : list A :=
  match l with
  | [] => [x]
  | y :: l' => if gt x y then y :: insert_sorted x l' else x :: l
  end.

Fixpoint sort (l : list A) : list A :=
  match l with
  | [] => []
  | x :: l' => insert_sorted x (sort l')
  end.

(** [x] may stand before [y]: the comparator does not ask for a swap. *)
Definition ordered (x y : A) : Prop := gt x y = false.

End Sort.

(** [v > 0] for a comparator result, NaN read as zero. *)
Definition positive (v : option Z) : bool :=
  match v with
  | Some z => (0 <? z)%Z
  | None => false
  end.

(** [arr.slice(0, n)] *)
Definition slice0 {A : Type} (n : nat) (l : list A) : list A := take n l.

End JsArray.

(** ** app.js: the catalogue records *)

Module Catalog.

(** Modelled from the spec: the canonical Version and App records that the
    normaliser returns ([normalizeRepo] is imported by [app.js] but is not
    among the sources).  The fields are the ones [app.js], [search.js] and
    the detail page read; text that is absent is the empty string. *)
Record version : Type := mkVersion {
  ver_version : string;
  ver_date : option string;          (* [None]: [null] or [undefined] *)
  ver_url : string;
  ver_notes : string
}.

(** An app record; [V] is what its [versions] field holds: a reference to an
    array in the store, or the array's contents once read. *)
Record app_of (V : Type) : Type := mkApp {
  bundle : option string;            (* [None]: missing *)
  name : string;
  icon : string;
  dev : string;
  desc : string;
  source : string;
  date : option string;              (* a top-level [date], when present *)
  versions : option V                (* [None]: no [versions] field *)
}.
Arguments mkApp {V}.
Arguments bundle {V}.
Arguments name {V}.
Arguments icon {V}.
Arguments dev {V}.
Arguments desc {V}.
Arguments source {V}.
Arguments date {V}.
Arguments versions {V}.

(** A reference into the store. *)
Abbreviation loc := nat (only parsing).

(** An app object in the store, and an app read out of it. *)
Abbreviation appobj := (app_of nat) (only parsing).
Abbreviation app := (app_of (list version)) (only parsing).

Definition with_versions {V W : Type} (a : app_of V) (w : option W) : app_of W :=
  {| bundle := bundle a; name := name a; icon := icon a; dev := dev a;
     desc := desc a; source := source a; date := date a; versions := w |}.

(** The store: app objects and version arrays, each addressed by its index.
    Allocation appends.  A reference that points outside the store reads as
    the default object; the statements about the merge ask for references
    into the store. *)
Record store : Type := mkStore {
  objs : list appobj;
  arrs : list (list version)
}.

#[export] Instance appobj_inhabited : Inhabited appobj :=
  populate {| bundle := None; name := ""; icon := ""; dev := ""; desc := "";
              source := ""; date := None; versions := None |}.

Definition read_versions (st : store) (v : option loc) : option (list version) :=
  match v with
  | Some l => Some (arrs st !!! l)
  | None => None
  end.

Definition read_app (st : store) (o : loc) : app :=
  let a := objs st !!! o in
  with_versions a (read_versions st (versions a)).

(** [`${v.version}|${v.url}`] *)
Definition ver_id (v : version) : string :=
  (ver_version v ++ "|" ++ ver_url v)%string.

(** What the grid and the search work on: a merged app as it is, or the
    flattened record [{ ...app, ...v, _isVersion: true }] of one version. *)
Record item : Type := mkItem {
  it_app : app;
  it_ver : option version;           (* the version spread over the app *)
  it_isVersion : bool
}.

Definition item_of_app (a : app) : item :=
  {| it_app := a; it_ver := None; it_isVersion := false |}.

Definition item_name (it : item) : string := name (it_app it).

(** [it.date]: the spread version's [date] shadows the app's. *)
Definition item_date (it : item) : option string :=
  match it_ver it with
  | Some v => ver_date v
  | None => date (it_app it)
  end.

Definition item_versions (it : item) : option (list version) :=
  versions (it_app it).

Definition date_value (d : option string) : Js.value :=
  match d with
  | Some s => Js.VStr s
  | None => Js.VUndefined
  end.

(** A [Set] of strings, as far as [has] and [add] show it. *)
Definition set_has (seen : list string) (id : string) : bool :=
  existsb (String.eqb id) seen.

End Catalog.

(** ** app.js: [mergeByBundle] *)

Module Merge.
Import Catalog.
Local Open Scope list_scope.

(** Keys of the [Map]: a trimmed bundle identifier, or a symbol made for one
    app without a bundle.  Every symbol is new, so a symbol key is never
    found again. *)
Inductive key : Type :=
| KStr (b : string)
| KSym (id : nat).

(** The [Map], in insertion order. *)
Abbreviation bundle_map := (list (key * nat)) (only parsing).

Fixpoint map_get (b : string) (m : bundle_map) : option loc :=
  match m with
  | [] => None
  | (KStr b', o) :: m' => if String.eqb b b' then Some o else map_get b m'
  | (KSym _, _) :: m' => map_get b m'
  end.

Definition map_values (m : bundle_map) : list loc := map snd m.

(** [for (const v of vs) { if (!seen.has(id)) { acc.push(v); seen.add(id) } }] *)
Fixpoint push_unseen (acc : list version) (seen : list string)
                     (vs : list version) : list version :=
  match vs with
  | [] => acc
  | v :: vs' =>
      let id := ver_id v in
      if set_has seen id then push_unseen acc seen vs'
      else push_unseen (acc ++ [v]) (seen ++ [id]) vs'
  end.

(** [a.versions || []], read now. *)
Definition versions_or_empty (st : store) (a : appobj) : list version :=
  match versions a with
  | Some l => arrs st !!! l
  | None => []
  end.

(** [(a.bundle || '').trim()] *)
Definition bundle_key (a : appobj) : string :=
  JsString.trim (default "" (bundle a)).

Definition merge_fields (acc a : appobj) : appobj :=
  {| bundle := bundle acc;
     name := JsString.or_else (name acc) (name a);
     icon := JsString.or_else (icon acc) (icon a);
     dev := JsString.or_else (dev acc) (dev a);
     desc := JsString.or_else (desc acc) (desc a);
     source := source acc;
     date := date acc;
     versions := versions acc |}.

(** One turn of the first loop, on the app object at [a]. *)
Definition merge_step (sm : store * bundle_map) (a : loc) : store * bundle_map :=
  let '(st, m) := sm in
  let obj := objs st !!! a in
  let b := bundle_key obj in
  if negb (JsString.truthy b) then
    (* map.set(Symbol('nobundle'), a): the very object, not a copy *)
    (st, m ++ [(KSym (length m), a)])
  else
    match map_get b m with
    | None =>
        (* { ...a, versions: [...(a.versions || [])] }: a new object holding
           a new array *)
        let arr := length (arrs st) in
        let o := length (objs st) in
        ({| objs := objs st ++ [with_versions obj (Some arr)];
            arrs := arrs st ++ [versions_or_empty st obj] |},
         m ++ [(KStr b, o)])
    | Some o =>
        let acc := objs st !!! o in
        let st1 := {| objs := <[o := merge_fields acc obj]> (objs st);
                      arrs := arrs st |} in
        match versions acc with
        | Some arr =>
            (* acc.versions: the array made when the key was first set *)
            let old := arrs st1 !!! arr in
            let seen := map ver_id old in
            let new := push_unseen old seen (versions_or_empty st1 obj) in
            ({| objs := objs st1; arrs := <[arr := new]> (arrs st1) |}, m)
        | None => (st1, m)
        end
    end.

Section WithDateParse.
Variable Date_parse : string -> option Z.

(** [x.date ? new Date(x.date) : null]: [None] is [null]; [Some None] is a
    [Date] whose time value is NaN. *)
Definition date_of (x : version) : option (option Z) :=
  match ver_date x with
  | Some s => if JsString.truthy s then Some (Utils.new_Date Date_parse s)
              else None
  | None => None
  end.

(** The comparator handed to [v.versions.sort]; [None] is NaN. *)
Definition versionCompare (x y : version) : option Z :=
  match date_of x, date_of y with
  | Some dx, Some dy =>
      match dy, dx with
      | Some ty, Some tx => Some (ty - tx)%Z
      | _, _ => None
      end
  | Some _, None => Some (-1)%Z
  | None, Some _ => Some 1%Z
  | None, None => Some (Utils.semverCompare (ver_version y) (ver_version x))
  end.

Definition sortVersions (vs : list version) : list version :=
  JsArray.sort (fun x y => JsArray.positive (versionCompare x y)) vs.

(** One turn of the second loop: sort the array of the object at [o] in
    place, when it has one. *)
Definition sort_step (st : store) (o : loc) : store :=
  match versions (objs st !!! o) with
  | Some arr =>
      {| objs := objs st;
         arrs := <[arr := sortVersions (arrs st !!! arr)]> (arrs st) |}
  | None => st
  end.

(** [mergeByBundle(apps)]: the store afterwards and the returned array of
    app objects. *)
Definition mergeByBundle (st : store) (apps : list loc) : store * list loc :=
  let '(st1, m) := foldl merge_step (st, []) apps in
  let st2 := foldl sort_step st1 (map_values m) in
  (st2, map_values m).

End WithDateParse.

End Merge.

(** ** search.js: [searchApps]

    Scores and relevances are JavaScript numbers: binary64 floating point,
    here the kernel's primitive floats, whose operations round as IEEE 754
    asks.  A decimal constant stands for the nearest binary64 value, as it
    does in the source. *)

Module Search.
Import Catalog.
Local Open Scope list_scope.

(** One result of [Fuse.search]: the item and its score, when it has
    one. *)
Definition fuse_result : Type := item * option PrimFloat.float.

Definition default_limit : nat := 50.

Section WithFuse.
Import PrimFloat.

(** [new Fuse(docs, fuseOpts).search(q, { limit })] *)
Variable Fuse_search : list item -> string -> nat -> list fuse_result.
(** The module's [allApps] and the search of its own index [fuse]. *)
Variable allApps : list item.
Variable fuse_search : string -> nat -> list fuse_result.

(** [v > 0] for a comparator result; false on NaN. *)
Definition positive (v : float) : bool := PrimFloat.ltb 0%float v.

(** The body of [raw.map(r => ...)]: the item and its relevance. *)
Definition score_one (qLower : string) (r : fuse_result) : item * float :=
  let it := fst r in
  let rel := PrimFloat.sub 1%float (default 1%float (snd r)) in
  let nm := item_name it in
  let rel :=
    if JsString.truthy nm && String.eqb (JsString.toLowerCase nm) qLower
    then PrimFloat.add rel 0.7%float
    else if JsString.truthy nm
            && JsString.startsWith (JsString.toLowerCase nm) qLower
    then PrimFloat.add rel 0.4%float
    else if JsString.truthy nm
            && JsString.includes (JsString.toLowerCase nm) qLower
    then PrimFloat.add rel 0.18%float
    else rel in
  (it, rel).

(** [(a, b) => b.rel - a.rel] *)
Definition by_rel (a b : item * float) : float :=
  PrimFloat.sub (snd b) (snd a).

(** [searchApps(q, appsToSearch = allApps, limit = 50)]; [None] for
    [appsToSearch] is the default, the array [allApps] itself. *)
Definition searchApps (q : string) (appsToSearch : option (list item))
                      (limit : nat) : list item :=
  let q := JsString.trim q in
  let targetApps := default allApps appsToSearch in
  if negb (JsString.truthy q) then JsArray.slice0 limit targetApps
  else
    let raw :=
      match appsToSearch with
      | Some docs => Fuse_search docs q (limit * 2)
      | None => fuse_search q (limit * 2)
      end in
    let qLower := JsString.toLowerCase q in
    let scored := map (score_one qLower) raw in
    let sorted := JsArray.sort (fun a b => positive (by_rel a b)) scored in
    map fst (JsArray.slice0 limit sorted).

End WithFuse.

End Search.

(** ** app.js: [sortApps] and [filterAndPrepare] *)

Module Controller.
Import Catalog.
Local Open Scope list_scope.

Definition BATCH : nat := 20.

Record state : Type := mkState {
  st_allMerged : list item;          (* state.allMerged *)
  st_list : list item;               (* state.list *)
  st_rendered : nat;                 (* state.rendered *)
  st_q : string;                     (* state.q *)
  st_sort : string                   (* state.sort *)
}.

Section WithPlatform.
Variable Date_parse : string -> option Z.
(** [a.localeCompare(b)] *)
Variable localeCompare : string -> string -> Z.
Variable Fuse_search : list item -> string -> nat -> list Search.fuse_result.
Variable allApps : list item.
Variable fuse_search : string -> nat -> list Search.fuse_result.

Definition byNameAsc (a b : item) : Z :=
  localeCompare (item_name a) (item_name b).

Definition byNameDesc (a b : item) : Z :=
  localeCompare (item_name b) (item_name a).

(** [app.versions?.[0]?.date] *)
Definition leading_date (it : item) : Js.value :=
  match item_versions it with
  | Some (v :: _) => date_value (ver_date v)
  | _ => Js.VUndefined
  end.

Definition getLatestDate (it : item) : option Z :=
  Utils.parseDateString Date_parse (leading_date it).

Definition byVerDesc (a b : item) : Z :=
  match getLatestDate a, getLatestDate b with
  | Some dateA, Some dateB => (dateB - dateA)%Z
  | Some _, None => (-1)%Z
  | None, Some _ => 1%Z
  | None, None => localeCompare (item_name a) (item_name b)
  end.

Definition byVerAsc (a b : item) : Z :=
  match getLatestDate a, getLatestDate b with
  | Some dateA, Some dateB => (dateA - dateB)%Z
  | Some _, None => 1%Z
  | None, Some _ => (-1)%Z
  | None, None => localeCompare (item_name a) (item_name b)
  end.

Definition sort_with (cmp : item -> item -> Z) (apps : list item) : list item :=
  JsArray.sort (fun a b => (0 <? cmp a b)%Z) apps.

(** [sortApps(apps, mode)]: the array after the in-place sort. *)
Definition sortApps (apps : list item) (mode : string) : list item :=
  if String.eqb mode "name-desc" then sort_with byNameDesc apps
  else if String.eqb mode "version-desc" then sort_with byVerDesc apps
  else if String.eqb mode "version-asc" then sort_with byVerAsc apps
  else sort_with byNameAsc apps.

Definition is_version_mode (mode : string) : bool :=
  String.eqb mode "version-desc" || String.eqb mode "version-asc".

(** The flattening done when a query is active. *)
Definition flatten_one (it : item) : list item :=
  match item_versions it with
  | Some (v :: vs) =>
      map (fun w => {| it_app := it_app it; it_ver := Some w;
                       it_isVersion := true |}) (v :: vs)
  | _ => [{| it_app := it_app it; it_ver := it_ver it; it_isVersion := true |}]
  end.

Definition flatten (apps : list item) : list item :=
  concat (map flatten_one apps).

(** [app => parseDateString(app.date) !== null] *)
Definition has_date (it : item) : bool :=
  match Utils.parseDateString Date_parse (date_value (item_date it)) with
  | Some _ => true
  | None => false
  end.

(** The array [appsToProcess] before the date filter. *)
Definition candidates (st : state) : list item :=
  let q := JsString.trim (st_q st) in
  if JsString.truthy q then
    Search.searchApps Fuse_search allApps fuse_search q
                      (Some (flatten (st_allMerged st))) Search.default_limit
  else st_allMerged st.

(** [appendBatch()], as far as the state shows it. *)
Definition appendBatch (st : state) : state :=
  {| st_allMerged := st_allMerged st; st_list := st_list st;
     st_rendered := Nat.min (st_rendered st + BATCH) (length (st_list st));
     st_q := st_q st; st_sort := st_sort st |}.

(** [filterAndPrepare()].  Without a query and outside the version modes
    [state.list] is the array [state.allMerged] itself, so the in-place sort
    reorders both. *)
Definition filterAndPrepare (st : state) : state :=
  let appsToProcess := candidates st in
  let appsToProcess :=
    if is_version_mode (st_sort st) then List.filter has_date appsToProcess
    else appsToProcess in
  let sorted := sortApps appsToProcess (st_sort st) in
  let shared :=
    negb (JsString.truthy (JsString.trim (st_q st)))
    && negb (is_version_mode (st_sort st)) in
  appendBatch
    {| st_allMerged := if shared then sorted else st_allMerged st;
       st_list := sorted;
       st_rendered := 0;
       st_q := st_q st;
       st_sort := st_sort st |}.

End WithPlatform.

End Controller.

(** ** A sample platform

    One possible engine, used to run the definitions on concrete inputs:
    [Date.parse] accepting just the ISO calendar date [YYYY-MM-DD],
    [localeCompare] by code units, and a matcher that finds nothing. *)

Module Sample.
Import Catalog.

Definition Date_parse (s : string) : option Z :=
  if (String.length s =? 10)%nat
     && Utils.all_digits (substring 0 4 s)
     && String.eqb (substring 4 1 s) "-"
     && Utils.all_digits (substring 5 2 s)
     && String.eqb (substring 7 1 s) "-"
     && Utils.all_digits (substring 8 2 s)
  then
    match Utils.parseInt (substring 0 4 s), Utils.parseInt (substring 5 2 s),
          Utils.parseInt (substring 8 2 s) with
    | Some y, Some m, Some d =>
        if ((1 <=? m) && (m <=? 12) && (1 <=? d)
            && (d <=? JsDate.DaysInMonth y (m - 1)))%Z
        then JsDate.TimeClip
               (JsDate.MakeDate (JsDate.MakeDay y (m - 1) d) 0)
        else None
    | _, _, _ => None
    end
  else None.

Definition localeCompare (a b : string) : Z :=
  match String.compare a b with
  | Lt => (-1)%Z
  | Eq => 0%Z
  | Gt => 1%Z
  end.

Definition no_match : list item -> string -> nat -> list Search.fuse_result :=
  fun _ _ _ => [].

End Sample.

(** ** The merge policy in the words of the specification *)

Module MergeSpec.
Import Catalog.

(** First non-empty value of a scalar field, in encounter order; empty when
    every value is. *)
Fixpoint first_nonempty (l : list string) : string :=
  match l with
  | [] => ""
  | x :: r => if JsString.truthy x then x else first_nonempty r
  end.

(** The apps of [apps] that carry the trimmed bundle identifier [b], in
    encounter order. *)
Definition group (st : store) (b : string) (apps : list loc) : list appobj :=
  List.filter (fun a => String.eqb (Merge.bundle_key a) b)
              (map (fun a => objs st !!! a) apps).

(** The returned app objects that carry the bundle identifier [b]. *)
Definition merged_for (st : store) (b : string) (out : list loc) : list loc :=
  List.filter (fun o => String.eqb (Merge.bundle_key (objs st !!! o)) b) out.

End MergeSpec.

(** ** The detail page

    The comparator the detail page sorts a version list with (the same
    function body in both variants of the page). *)

Module Detail.
Import Catalog.

Section WithDateParse.
Variable Date_parse : string -> option Z.

Definition compareRecords (a b : version) : Z :=
  match Utils.parseDateString Date_parse (date_value (ver_date a)),
        Utils.parseDateString Date_parse (date_value (ver_date b)) with
  | Some da, Some db => (db - da)%Z
  | _, _ => Utils.semverCompare (ver_version b) (ver_version a)
  end.

Definition sortRecords (vs : list version) : list version :=
  JsArray.sort (fun a b => (0 <? compareRecords a b)%Z) vs.

End WithDateParse.

End Detail.

(** ** The version list of a merged app in the words of the specification *)

Module VersionsSpec.
Import Catalog.

(** The records of [vs] filed under the key [id]. *)
Definition hit (id : string) (v : version) : bool := String.eqb (ver_id v) id.

Definition with_id (id : string) (vs : list version) : list version :=
  List.filter (hit id) vs.

Definition has_id (id : string) (vs : list version) : bool :=
  existsb (hit id) vs.

(** The first record filed under [id], when there is one. *)
Definition first_seen (id : string) (vs : list version) : option version :=
  List.find (hit id) vs.

(** The version lists of a group folded the way [mergeByBundle] folds them:
    the first list as it is, then of every later list the records whose key
    is not in the result yet. *)
Definition merged_versions (g : list (list version)) : list version :=
  match g with
  | [] => []
  | first :: rest =>
      foldl (fun acc vs => Merge.push_unseen acc (map ver_id acc) vs) first rest
  end.

End VersionsSpec.

(** ** What the first loop of [mergeByBundle] maintains *)

Module MergeInv.
Import Catalog Merge MergeSpec VersionsSpec.
Local Open Scope list_scope.

(** The string keys of the map, in insertion order. *)
Fixpoint str_keys (m : bundle_map) : list string :=
  match m with
  | [] => []
  | (KStr b, _) :: m' => b :: str_keys m'
  | (KSym _, _) :: m' => str_keys m'
  end.

(** The scalar fields of the merged object [acc] are the first non-empty
    values over the group [g]. *)
Definition fields_merged (acc : appobj) (g : list appobj) : Prop :=
  name acc = first_nonempty (map name g) /\
  icon acc = first_nonempty (map icon g) /\
  dev acc = first_nonempty (map dev g) /\
  desc acc = first_nonempty (map desc g).

(** After the apps [done] of the store [st0] have gone through the first
    loop: the objects and arrays of the input are as they were; a string
    key holds a new object with a new array; a symbol key holds an input
    object. *)
Record inv (st0 : store) (done : list loc) (st : store) (m : bundle_map)
  : Prop := mkInv {
  inv_objs_len : length (objs st0) <= length (objs st);
  inv_objs : forall o, o < length (objs st0) -> objs st !!! o = objs st0 !!! o;
  inv_arrs_len : length (arrs st0) <= length (arrs st);
  inv_arrs : forall l, l < length (arrs st0) -> arrs st !!! l = arrs st0 !!! l;
  inv_str : forall b o, In (KStr b, o) m ->
      length (objs st0) <= o < length (objs st) /\
      bundle_key (objs st !!! o) = b /\
      JsString.truthy b = true /\
      map_get b m = Some o /\
      exists arr, versions (objs st !!! o) = Some arr /\
                  length (arrs st0) <= arr < length (arrs st);
  inv_sym : forall i o, In (KSym i, o) m ->
      In o done /\ JsString.truthy (bundle_key (objs st0 !!! o)) = false;
  inv_fields : forall b o, map_get b m = Some o ->
      fields_merged (objs st !!! o) (group st0 b done);
  inv_absent : forall b, JsString.truthy b = true -> map_get b m = None ->
      group st0 b done = [];
  inv_present : forall b o, map_get b m = Some o -> group st0 b done <> [];
  inv_nodup : List.NoDup (str_keys m)
}.

(** An input reference: it points at an app object of the store, and the
    object's [versions], when it has one, at an array of the store. *)
Definition valid_app (st0 : store) (a : loc) : Prop :=
  a < length (objs st0) /\
  forall l, versions (objs st0 !!! a) = Some l -> l < length (arrs st0).

(** The version lists of the apps of a group, in encounter order. *)
Definition group_versions (st0 : store) (b : string) (done : list loc)
  : list (list version) :=
  map (versions_or_empty st0) (group st0 b done).

(** The array of a merged object holds the fold of its group's version
    lists, and no two merged objects share an array. *)
Record inv_arr (st0 : store) (done : list loc) (st : store) (m : bundle_map)
  : Prop := mkInvArr {
  ia_versions : forall b o arr,
      map_get b m = Some o -> versions (objs st !!! o) = Some arr ->
      arrs st !!! arr = merged_versions (group_versions st0 b done);
  ia_inj : forall b1 o1 b2 o2 arr,
      In (KStr b1, o1) m -> In (KStr b2, o2) m ->
      versions (objs st !!! o1) = Some arr ->
      versions (objs st !!! o2) = Some arr -> o1 = o2
}.

(** What one merge leaves under the key [id]: the records the accumulator
    has under it or, when it has none, the first record of the new list. *)
Definition kept (id : string) (acc vs : list version) : list version :=
  if has_id id acc then with_id id acc
  else match first_seen id vs with
       | Some v => [v]
       | None => []
       end.

End MergeInv.

(** ** Sample data *)

Module Examples.
Import Catalog Controller.
Local Open Scope list_scope.

Definition sample_version (ver : string) (d : option string) : version :=
  {| ver_version := ver; ver_date := d; ver_url := "https://x/" ++ ver;
     ver_notes := "" |}.

(** Two apps as the grid holds them: one dated 2023-01-01 (its own [date]
    and its leading version's), one without any date. *)
Definition dated_item : item :=
  item_of_app
    {| bundle := Some "com.beta"; name := "beta"; icon := ""; dev := "";
       desc := ""; source := "s"; date := Some "2023-01-01";
       versions := Some [sample_version "1.0" (Some "2023-01-01")] |}.

Definition undated_item : item :=
  item_of_app
    {| bundle := Some "com.alpha"; name := "alpha"; icon := ""; dev := "";
       desc := ""; source := "s"; date := None;
       versions := Some [sample_version "2.0" None] |}.

Definition sample_state (apps : list item) : state :=
  {| st_allMerged := apps; st_list := []; st_rendered := 0; st_q := "  ";
     st_sort := "version-desc" |}.

(** Version records: one whose date is there but does not parse, one
    dated, one undated with a higher version. *)
Definition garbled : version := mkVersion "1.0" (Some "next week") "u1" "".
Definition dated : version := mkVersion "2.0" (Some "2023-01-01") "u2" "".
Definition undated_newer : version := mkVersion "3.0" None "u3" "".

Definition v100 : version := mkVersion "1.0.0" None "https://x/1.ipa" "".
Definition v1 : version := mkVersion "1.0" None "u1" "".
Definition v2 : version := mkVersion "2.0" None "u2" "".

Definition exact_app : item :=
  item_of_app (mkApp (Some "com.a") "ExactName" "" "" "" "s" None None).
Definition prefix_app : item :=
  item_of_app (mkApp (Some "com.b") "ExactNameFoo" "" "" "" "s" None None).

Section Scores.
Import PrimFloat.

(** A matcher that returns the two candidates, the longer name first. *)
Definition two_hits : list item -> string -> nat -> list Search.fuse_result :=
  fun _ _ _ => [(prefix_app, Some 0.1%float); (exact_app, Some 0.05%float)].

End Scores.

End Examples.

(** ** utils.js: [ellipsize]

    The ellipsis is U+2026, above the Latin-1 range, so the strings of this
    function are lists of UTF-16 code units. *)

Module Text.
Local Open Scope list_scope.
Local Open Scope Z_scope.

Definition code_unit : Type := N.

Definition ellipsis : code_unit := 8230%N.

(** [s.slice(0, e)] for an integer [e]; a negative [e] counts from the
    end. *)
Definition slice_to {A : Type} (e : Z) (s : list A) : list A :=
  let len := Z.of_nat (length s) in
  let k := if e <? 0 then Z.max (len + e) 0 else Z.min e len in
  take (Z.to_nat k) s.

(** [ellipsize(s, n)] on a string [s] and an integer [n]. *)
Definition ellipsize (s : list code_unit) (n : Z) : list code_unit :=
  match s with
  | [] => []
  | _ => if n <? Z.of_nat (length s)
         then slice_to (n - 1) s ++ [ellipsis]
         else s
  end.

End Text.

(** ** utils.js: [fetchJSON]

    The request and [JSON.parse] belong to the platform.  A call returns or
    throws; what is thrown is stood for by the error's name and message. *)

Module Fetch.
Import Js.

Inductive exn : Type :=
| Exn (name message : string).

Definition message_of (e : exn) : string :=
  match e with Exn _ m => m end.

Inductive outcome (A : Type) : Type :=
| Returned (a : A)
| Thrown (e : exn).
Arguments Returned {A} a.
Arguments Thrown {A} e.

(** A [Response]: [res.ok], [res.status] and what [await res.text()]
    gives. *)
Record response : Type := mkResponse {
  ok : bool;
  status : N;
  text : outcome string
}.

(** The prefix of [s] up to and including the last [close]. *)
Fixpoint upto_last (close : ascii) (s : string) : option string :=
  match s with
  | EmptyString => None
  | String c r =>
      match upto_last close r with
      | Some t => Some (String c t)
      | None => if Ascii.eqb c close then Some (String c EmptyString)
                else None
      end
  end.

(** [text.match(/\{[\s\S]*\}|\[[\s\S]*\]/)]: at the leftmost index where an
    alternative matches, from the opening character to the last closing
    one of its kind. *)
Fixpoint payload_match (s : string) : option string :=
  match s with
  | EmptyString => None
  | String c r =>
      if Ascii.eqb c "{" then
        match upto_last "}" r with
        | Some body => Some (String c body)
        | None => payload_match r
        end
      else if Ascii.eqb c "[" then
        match upto_last "]" r with
        | Some body => Some (String c body)
        | None => payload_match r
        end
      else payload_match r
  end.

(** [`${res.status}`] *)
Definition decimal (n : N) : string := NilZero.string_of_uint (N.to_uint n).

Section WithPlatform.
(** [fetch(url, { cache: 'no-cache' })] at the time of the call. *)
Variable fetch : string -> outcome response.
(** [JSON.parse]: the value, or the [SyntaxError] it throws. *)
Variable JSON_parse : string -> outcome value.

Definition fetchJSON (url : string) : outcome value :=
  match fetch url with
  | Thrown e => Thrown e
  | Returned res =>
      if negb (ok res)
      then Thrown (Exn "Error" ("Fetch failed " ++ decimal (status res)))
      else
        match text res with
        | Thrown e => Thrown e
        | Returned text =>
            match JSON_parse text with
            | Returned v => Returned v
            | Thrown _ =>
                match payload_match text with
                | None => Thrown (Exn "Error" "Invalid JSON payload")
                | Some m => JSON_parse m
                end
            end
        end
  end.

End WithPlatform.

(** No [c] in [s]. *)
Definition free_of (c : ascii) (s : string) : bool :=
  negb (Utils.has_char (Ascii.eqb c) s).

End Fetch.

(** ** [fetchRepo]

    The two loaders: the one of [alt-source-kit.js], which builds an
    [ASRepository] and wraps every failure, and the plain one of
    [repo-loader.js].  Each keeps a module-level [Map] from the source as
    given to the loaded result.  A call is followed from its start to its
    settling; [fetchJSON] is the answer the network gives during it. *)

Module RepoLoader.
Import Fetch.
Local Open Scope list_scope.

(** [{ data, url }] *)
Record loaded (D : Type) : Type := mkLoaded {
  data : D;
  url : string
}.
Arguments mkLoaded {D}.
Arguments data {D}.
Arguments url {D}.

(** The [Map], in insertion order. *)
Fixpoint cache_get {D : Type} (src : string) (cache : list (string * loaded D))
  : option (loaded D) :=
  match cache with
  | [] => None
  | (k, r) :: rest => if String.eqb src k then Some r else cache_get src rest
  end.

(** [cache.set(src, result)]: a key that is present keeps its place. *)
Fixpoint cache_set {D : Type} (src : string) (r : loaded D)
                   (cache : list (string * loaded D))
  : list (string * loaded D) :=
  match cache with
  | [] => [(src, r)]
  | (k, r0) :: rest =>
      if String.eqb src k then (k, r) :: rest
      else (k, r0) :: cache_set src r rest
  end.

(** [src.includes('://') ? src : `https://.../${src}.json`] *)
Definition resolve (src : string) : string :=
  if JsString.includes src "://" then src
  else ("https://raw.githubusercontent.com/ripestore/repos/main/"
        ++ src ++ ".json")%string.

Section WithNetwork.
(** [fetchJSON(url)] during the call. *)
Variable fetchJSON : string -> outcome Js.value.
(** The message the engine gives the [TypeError] of a failed [.map]. *)
Variable TypeError_message : string.

Definition thrown_by (e : AltSourceKit.error) : exn :=
  match e with
  | AltSourceKit.Error m => Exn "Error" m
  | AltSourceKit.TypeError => Exn "TypeError" TypeError_message
  end.

(** The [try] block of the strict loader. *)
Definition load (url : string) : outcome (loaded AltSourceKit.ASRepository) :=
  match fetchJSON url with
  | Thrown e => Thrown e
  | Returned d =>
      match AltSourceKit.new_ASRepository d with
      | AltSourceKit.Throw e => Thrown (thrown_by e)
      | AltSourceKit.Ok repository =>
          Returned {| data := repository; url := url |}
      end
  end.

(** [fetchRepo] of [alt-source-kit.js]: the settled result and the cache
    afterwards. *)
Definition fetchRepo (src : string)
    (cache : list (string * loaded AltSourceKit.ASRepository))
  : outcome (loaded AltSourceKit.ASRepository)
    * list (string * loaded AltSourceKit.ASRepository) :=
  match cache_get src cache with
  | Some r => (Returned r, cache)
  | None =>
      let url := resolve src in
      match load url with
      | Returned result => (Returned result, cache_set src result cache)
      | Thrown error =>
          (Thrown (Exn "Error" ("Failed to load repository: "
                                ++ message_of error)), cache)
      end
  end.

(** [fetchRepo] of [repo-loader.js]. *)
Definition fetchRepo_plain (src : string)
    (cache : list (string * loaded Js.value))
  : outcome (loaded Js.value) * list (string * loaded Js.value) :=
  match cache_get src cache with
  | Some r => (Returned r, cache)
  | None =>
      let url := resolve src in
      match fetchJSON url with
      | Thrown e => (Thrown e, cache)
      | Returned d =>
          let result := {| data := d; url := url |} in
          (Returned result, cache_set src result cache)
      end
  end.

End WithNetwork.

End RepoLoader.

(** ** The detail page: merging the collected apps

    The loop of the variant that reads the configured sources itself: the
    scalar fields start empty, the [Set] of keys starts empty, and a
    version is taken when its key is new and its [url] is not empty. *)

Module DetailPage.
Import Catalog.
Local Open Scope list_scope.

(** [`${v.version}||${v.url}`] *)
Definition ver_key (v : version) : string :=
  (ver_version v ++ "||" ++ ver_url v)%string.

Record merged : Type := mkMerged {
  m_name : string;
  m_bundle : string;
  m_icon : string;
  m_dev : string;
  m_desc : string;
  m_versions : list version;
  m_source : option string           (* [None]: [undefined] *)
}.

(** [for (const v of (a.versions || [])) { ... }] on [merged.versions] and
    [seen]. *)
Fixpoint take_new (acc : list version) (seen : list string)
                  (vs : list version) : list version * list string :=
  match vs with
  | [] => (acc, seen)
  | v :: vs' =>
      let key := ver_key v in
      if negb (set_has seen key) && JsString.truthy (ver_url v)
      then take_new (acc ++ [v]) (seen ++ [key]) vs'
      else take_new acc seen vs'
  end.

(** One turn of [for (const a of collectedApps)]. *)
Definition merge_app (ms : merged * list string) (a : app)
  : merged * list string :=
  let '(m, seen) := ms in
  let '(vs, seen') := take_new (m_versions m) seen (default [] (versions a)) in
  ({| m_name := JsString.or_else (m_name m) (name a);
      m_bundle := m_bundle m;
      m_icon := JsString.or_else (m_icon m) (icon a);
      m_dev := JsString.or_else (m_dev m) (dev a);
      m_desc := JsString.or_else (m_desc m) (desc a);
      m_versions := vs;
      m_source := m_source m |}, seen').

(** [(x, y) => semverCompare(y.version, x.version)] *)
Definition byVersionDesc (x y : version) : Z :=
  Utils.semverCompare (ver_version y) (ver_version x).

(** The object [merged] after the loop and the sort. *)
Definition merge (bundle repoParam : string) (collectedApps : list app)
  : merged :=
  let init :=
    {| m_name := ""; m_bundle := bundle; m_icon := ""; m_dev := "";
       m_desc := ""; m_versions := [];
       m_source := if JsString.truthy repoParam then Some repoParam
                   else option_map source (head collectedApps) |} in
  let '(m, _) := foldl merge_app (init, []) collectedApps in
  {| m_name := m_name m; m_bundle := m_bundle m; m_icon := m_icon m;
     m_dev := m_dev m; m_desc := m_desc m;
     m_versions :=
       JsArray.sort (fun x y => (0 <? byVersionDesc x y)%Z) (m_versions m);
     m_source := m_source m |}.

End DetailPage.

(** ** sources.js: the list of sources

    The page state as the listeners see it: the array stored under
    [ripe_sources] ([None] when nothing usable is stored, so that [get]
    falls back), the array [DEFAULTS] (which [get] hands out itself, not a
    copy), the selected row and the text of the input field.  What is
    stored is an array of strings, as [set] writes it. *)

Module Sources.
Local Open Scope list_scope.

Record page : Type := mkPage {
  stored : option (list string);
  DEFAULTS : list string;
  selected : option string;
  newSource : string
}.

Definition initial : page :=
  {| stored := None; DEFAULTS := ["RipeStore"]; selected := None;
     newSource := "" |}.

(** [get()] *)
Definition get (st : page) : list string :=
  match stored st with
  | Some l => l
  | None => DEFAULTS st
  end.

(** [list.includes(v)] *)
Definition listed (list : list string) (v : string) : bool :=
  existsb (String.eqb v) list.

(** The click listener of the Add button, on its own. *)
Definition add (st : page) : page :=
  let v := JsString.trim (newSource st) in
  if negb (JsString.truthy v) then st
  else
    let list := get st in
    if negb (listed list v) then
      (* list.push(v) reaches DEFAULTS when [get] handed it out *)
      {| stored := Some (list ++ [v]);
         DEFAULTS := match stored st with
                     | Some _ => DEFAULTS st
                     | None => list ++ [v]
                     end;
         selected := None;
         newSource := "" |}
    else
      {| stored := stored st; DEFAULTS := DEFAULTS st; selected := None;
         newSource := "" |}.

(** The click handler of the row that shows [url]. *)
Definition click_row (url : string) (st : page) : page :=
  let list := get st in
  if match selected st with
     | Some s => String.eqb s url
     | None => false
     end
  then {| stored := Some (List.filter (fun x => negb (String.eqb x url)) list);
          DEFAULTS := DEFAULTS st; selected := None;
          newSource := newSource st |}
  else {| stored := stored st; DEFAULTS := DEFAULTS st; selected := Some url;
          newSource := newSource st |}.

(** The click listener of the document, which every click on the page
    reaches: for a target outside [#sourceList] the selection is dropped. *)
Definition click_document (inside : bool) (st : page) : page :=
  if inside then st
  else {| stored := stored st; DEFAULTS := DEFAULTS st; selected := None;
          newSource := newSource st |}.

(** A click on the Add button as the page handles it: the button's
    listener, then the document's.  The button is not inside
    [#sourceList]: [render] replaces the whole content of the list, and
    the button's listener is attached once. *)
Definition click_add (st : page) : page := click_document false (add st).

(** Typing into the input field. *)
Definition type_source (v : string) (st : page) : page :=
  {| stored := stored st; DEFAULTS := DEFAULTS st; selected := selected st;
     newSource := v |}.

End Sources.

(** ** A sample network

    A parser that knows the empty object and the empty array, and servers
    that answer every request with one response. *)

Module SampleNet.
Import Fetch.

Definition JSON_parse (s : string) : outcome Js.value :=
  if String.eqb s "{}" then Returned (Js.VObj [])
  else if String.eqb s "[]" then Returned (Js.VArr [])
  else if String.eqb s "null" then Returned Js.VNull
  else Thrown (Exn "SyntaxError" "Unexpected token").

Definition serve (body : string) : string -> outcome response :=
  fun _ => Returned {| ok := true; status := 200; text := Returned body |}.

Definition not_found : string -> outcome response :=
  fun _ => Returned {| ok := false; status := 404; text := Returned "{}" |}.

Definition offline : string -> outcome Js.value :=
  fun _ => Thrown (Exn "TypeError" "Failed to fetch").

End SampleNet.

(** ** What the detail page's merge loop maintains *)

Module DetailInv.
Import Catalog DetailPage MergeSpec.
Local Open Scope list_scope.

Definition has_url (v : version) : Prop := JsString.truthy (ver_url v) = true.

(** After the apps [done]: [seen] holds the keys of the versions taken, no
    key twice; every version taken has a [url] and comes from an app of
    [done]; every version of [done] that has a [url] has its key in
    [seen]; the scalar fields are the first non-empty values. *)
Record merged_inv (done : list app) (m : merged) (seen : list string)
  : Prop := mkMergedInv {
  mi_seen : seen = map ver_key (m_versions m);
  mi_nodup : List.NoDup seen;
  mi_url : List.Forall has_url (m_versions m);
  mi_from : forall v, In v (m_versions m) ->
      exists a, In a done /\ In v (default [] (versions a));
  mi_all : forall a v, In a done -> In v (default [] (versions a)) ->
      has_url v -> In (ver_key v) seen;
  mi_name : m_name m = first_nonempty (map name done);
  mi_icon : m_icon m = first_nonempty (map icon done);
  mi_dev : m_dev m = first_nonempty (map dev done);
  mi_desc : m_desc m = first_nonempty (map desc done)
}.

End DetailInv.

(** ** The orders the sorts are meant to produce *)

Module Orders.
Import Catalog.

Section WithPlatform.
Variable Date_parse : string -> option Z.
Variable localeCompare : string -> string -> Z.

(** A version record whose [date], when it has one, is a date for
    [new Date]. *)
Definition well_dated (v : version) : Prop :=
  Merge.date_of Date_parse v <> Some None.

(** [x] may stand before [y] in a merged version list: both dated, [x] not
    older; or only [x] dated; or neither dated and [x]'s version string
    not lower. *)
Definition newest_first (x y : version) : Prop :=
  match Merge.date_of Date_parse x, Merge.date_of Date_parse y with
  | Some (Some tx), Some (Some ty) => (ty <= tx)%Z
  | Some _, Some _ => True
  | Some _, None => True
  | None, Some _ => False
  | None, None =>
      (Utils.semverCompare (ver_version x) (ver_version y) >= 0)%Z
  end.

(** [a] may stand before [b] in the grid under the sort mode [mode]. *)
Definition mode_order (mode : string) (a b : item) : Prop :=
  let by_name := (localeCompare (item_name a) (item_name b) <= 0)%Z in
  if String.eqb mode "name-desc" then
    (localeCompare (item_name b) (item_name a) <= 0)%Z
  else if String.eqb mode "version-desc" then
    match Controller.getLatestDate Date_parse a,
          Controller.getLatestDate Date_parse b with
    | Some ta, Some tb => (tb <= ta)%Z
    | Some _, None => True
    | None, Some _ => False
    | None, None => by_name
    end
  else if String.eqb mode "version-asc" then
    match Controller.getLatestDate Date_parse a,
          Controller.getLatestDate Date_parse b with
    | Some ta, Some tb => (ta <= tb)%Z
    | Some _, None => False
    | None, Some _ => True
    | None, None => by_name
    end
  else by_name.

(** The time value [parseDateString] gives a record's [date]. *)
Definition record_time (v : version) : option Z :=
  Utils.parseDateString Date_parse (date_value (ver_date v)).

End WithPlatform.

End Orders.

(** ** The calendar fields of a compact date *)

Module CompactDate.
Import Utils.
Local Open Scope Z_scope.

(** Year, month (1-12), day, hour, minute and second as [parseInt] reads
    the six groups of the pattern. *)
Definition compact_fields (s : string) : option (Z * Z * Z * Z * Z * Z) :=
  match fullDateMatch s with
  | Some (year, month, day, hour, minute, second) =>
      match parseInt year, parseInt month, parseInt day,
            parseInt hour, parseInt minute, parseInt second with
      | Some y, Some mo, Some d, Some h, Some mi, Some se =>
          Some (y, mo, d, h, mi, se)
      | _, _, _, _, _, _ => None
      end
  | None => None
  end.

(** The fields name a moment of the calendar, in a year from 100 on (the
    years 0 to 99 are read as 1900 to 1999 by [Date.UTC]). *)
Definition calendar_valid (f : Z * Z * Z * Z * Z * Z) : bool :=
  let '(y, mo, d, h, mi, se) := f in
  (100 <=? y) && (1 <=? mo) && (mo <=? 12) && (1 <=? d)
  && (d <=? JsDate.DaysInMonth y (mo - 1))
  && (h <? 24) && (mi <? 60) && (se <? 60).

(** [f1] is an earlier moment than [f2]. *)
Definition earlier (f1 f2 : Z * Z * Z * Z * Z * Z) : bool :=
  let '(y1, mo1, d1, h1, mi1, se1) := f1 in
  let '(y2, mo2, d2, h2, mi2, se2) := f2 in
  (y1 <? y2) || ((y1 =? y2) &&
  ((mo1 <? mo2) || ((mo1 =? mo2) &&
  ((d1 <? d2) || ((d1 =? d2) &&
  ((h1 <? h2) || ((h1 =? h2) &&
  ((mi1 <? mi2) || ((mi1 =? mi2) && (se1 <? se2)))))))))).

End CompactDate.
(** ** Facts about [semverCompare] *)

Module UtilsFacts.
Import Utils.

Lemma num_ltb_asym a b : JsNumber.ltb a b = true -> JsNumber.ltb b a = false.
Proof.
  destruct a as [a|], b as [b|]; simpl; try congruence.
  intros H. apply N.ltb_lt in H. apply N.ltb_ge. lia.
Qed.

Lemma str_ltb_asym a b : JsString.ltb a b = true -> JsString.ltb b a = false.
Proof.
  unfold JsString.ltb, String.ltb. rewrite (String.compare_antisym b a).
  destruct (String.compare a b); simpl; congruence.
Qed.

Lemma num_ltb_irrefl a : JsNumber.ltb a a = false.
Proof. destruct a; simpl; [apply N.ltb_irrefl | reflexivity]. Qed.

Lemma str_ltb_irrefl a : JsString.ltb a a = false.
Proof.
  destruct (JsString.ltb a a) eqn:E; [|reflexivity].
  pose proof (str_ltb_asym _ _ E). congruence.
Qed.

(** Swapping the operands of one loop turn negates what it returns. *)
Lemma compare_at_swap x y :
  compare_at y x = option_map Z.opp (compare_at x y).
Proof.
  destruct x as [a|a], y as [b|b]; simpl; try reflexivity.
  - destruct (JsNumber.ltb a b) eqn:E1.
    + rewrite (num_ltb_asym _ _ E1). reflexivity.
    + destruct (JsNumber.ltb b a); reflexivity.
  - destruct (JsString.ltb a b) eqn:E1.
    + rewrite (str_ltb_asym _ _ E1). reflexivity.
    + destruct (JsString.ltb b a); reflexivity.
Qed.

Lemma compare_at_refl x : compare_at x x = None.
Proof.
  destruct x; simpl; [rewrite num_ltb_irrefl | rewrite str_ltb_irrefl];
    reflexivity.
Qed.

Lemma semver_loop_swap A B : forall k i,
  (i + k <= Nat.max (length A) (length B))%nat ->
  semver_loop B A i k = (- semver_loop A B i k)%Z.
Proof.
  induction k as [|k IH]; intros i Hn; simpl; [reflexivity|].
  destruct (A !! i) as [x|] eqn:EA, (B !! i) as [y|] eqn:EB; try reflexivity.
  - rewrite compare_at_swap. destruct (compare_at x y); simpl; [reflexivity|].
    apply IH. lia.
  - apply lookup_ge_None in EA, EB. lia.
Qed.

Lemma semver_loop_refl A : forall k i,
  (i + k <= length A)%nat -> semver_loop A A i k = 0%Z.
Proof.
  induction k as [|k IH]; intros i Hn; simpl; [reflexivity|].
  destruct (A !! i) as [x|] eqn:EA.
  - rewrite compare_at_refl. apply IH. lia.
  - apply lookup_ge_None in EA. lia.
Qed.

Lemma split_nonempty p s : JsString.split p s <> [].
Proof.
  destruct s as [|c s]; simpl; [discriminate|].
  destruct (p c); [discriminate|]. destruct (JsString.split p s); discriminate.
Qed.

Lemma seg_length_pos s : (0 < length (seg s))%nat.
Proof.
  unfold seg. rewrite length_map.
  pose proof (split_nonempty is_sep s).
  destruct (JsString.split is_sep s); [congruence | simpl; lia].
Qed.

(** The indexed loop, started at the front, is the structural comparison. *)
Lemma semver_loop_drop A B : forall k i,
  (i + k = Nat.max (length A) (length B))%nat ->
  (0 < k)%nat \/ (i = length A /\ i = length B)%nat ->
  semver_loop A B i k = compare_segments (drop i A) (drop i B).
Proof.
  induction k as [|k IH]; intros i Hn Hk; simpl.
  - destruct Hk as [Hk|[Ha Hb]]; [lia|].
    rewrite !drop_ge by lia. reflexivity.
  - destruct (A !! i) as [x|] eqn:EA, (B !! i) as [y|] eqn:EB.
    + rewrite (drop_S _ _ _ EA), (drop_S _ _ _ EB). simpl.
      assert (Hrec : semver_loop A B (S i) k
                     = compare_segments (drop (S i) A) (drop (S i) B)).
      { apply IH; [lia|]. destruct k; [right|left; lia].
        apply lookup_lt_Some in EA, EB. lia. }
      destruct x as [a|a], y as [b|b]; simpl; try reflexivity.
      * destruct (JsNumber.ltb a b); [reflexivity|].
        destruct (JsNumber.ltb b a); [reflexivity|]. exact Hrec.
      * destruct (JsString.ltb a b); [reflexivity|].
        destruct (JsString.ltb b a); [reflexivity|]. exact Hrec.
    + rewrite (drop_S _ _ _ EA). apply lookup_ge_None in EB.
      rewrite (drop_ge B) by lia. reflexivity.
    + rewrite (drop_S _ _ _ EB). apply lookup_ge_None in EA.
      rewrite (drop_ge A) by lia. reflexivity.
    + apply lookup_ge_None in EA, EB. lia.
Qed.

Lemma semverCompare_structural a b :
  semverCompare a b = compare_segments (seg a) (seg b).
Proof.
  unfold semverCompare.
  rewrite (semver_loop_drop (seg a) (seg b) _ 0%nat); [reflexivity|lia|].
  left. pose proof (seg_length_pos a). lia.
Qed.

(** A version whose segments are a proper prefix of another's is lower. *)
Lemma compare_segments_prefix A x B :
  compare_segments A (A ++ x :: B) = (-1)%Z.
Proof.
  induction A as [|y A IH]; simpl; [reflexivity|].
  destruct y; [rewrite num_ltb_irrefl | rewrite str_ltb_irrefl]; exact IH.
Qed.

Lemma split_no_sep p s : Forall (fun x => has_char p x = false) (JsString.split p s).
Proof.
  induction s as [|c s IH]; simpl.
  - repeat constructor.
  - destruct (p c) eqn:E.
    + constructor; [reflexivity | exact IH].
    + destruct (JsString.split p s) as [|h t].
      * repeat constructor. simpl. now rewrite E.
      * inversion IH; subst. constructor; [simpl; now rewrite E | assumption].
Qed.

Lemma split_length p s : length (JsString.split p s) = S (count_char p s).
Proof.
  induction s as [|c s IH]; simpl; [reflexivity|].
  destruct (p c); simpl; [now rewrite IH|].
  pose proof (split_nonempty p s).
  destruct (JsString.split p s); [congruence | exact IH].
Qed.

Lemma is_sep_spec c :
  is_sep c = true <-> c = "."%char \/ c = "+"%char \/ c = "-"%char.
Proof.
  split.
  - intros H. unfold is_sep in H.
    rewrite <- (ascii_nat_embedding c).
    destruct (nat_of_ascii c) as [|n]; [discriminate|].
    do 43 (destruct n as [|n]; [try discriminate; auto|]).
    do 2 (destruct n as [|n]; [try discriminate; auto|]).
    destruct n as [|n]; [auto | discriminate].
  - intros [ -> | [ -> | -> ] ]; reflexivity.
Qed.

(** Below a common prefix the first differing pair decides. *)
Lemma compare_segments_app P A B :
  compare_segments (P ++ A) (P ++ B) = compare_segments A B.
Proof.
  induction P as [|x P IH]; simpl; [reflexivity|].
  destruct x; [rewrite num_ltb_irrefl | rewrite str_ltb_irrefl]; exact IH.
Qed.

Lemma semverCompare_swap a b : semverCompare a b = (- semverCompare b a)%Z.
Proof.
  unfold semverCompare. rewrite (Nat.max_comm (length (seg a))).
  apply semver_loop_swap. lia.
Qed.

(** [C6] For all version strings [a] and [b],
    [semverCompare a b = - semverCompare b a], and
    [semverCompare a a = 0]. *)
Theorem semverCompare_antisymmetric :
  (forall a b : string, semverCompare a b = (- semverCompare b a)%Z) /\
  (forall a : string, semverCompare a a = 0%Z).
Proof.
  split.
  - apply semverCompare_swap.
  - intros a. unfold semverCompare. rewrite Nat.max_id.
    apply semver_loop_refl. lia.
Qed.

(** [C7] The comparator splits on [.], [+] and [-], turns the segments that
    read as numbers into numbers, and compares segment by segment: a missing
    segment is lowest, two segments of one type compare natively, a number
    is above a text; so ["1.2.0"] is below ["1.10.0"] and ["1.0"] below
    ["1.0.0"]. *)
Theorem semverCompare_segmentwise :
  (* the separators, and what the split leaves *)
  (forall c, is_sep c = true <-> c = "."%char \/ c = "+"%char \/ c = "-"%char) /\
  (forall s, Forall (fun x => has_char is_sep x = false)
               (JsString.split is_sep s) /\
             length (seg s) = S (count_char is_sep s)) /\
  JsString.split is_sep "1.2+3-rc" = ["1"; "2"; "3"; "rc"] /\
  (* numeric-looking segments become numbers, the others stay text *)
  (forall x, coerce x = match JsNumber.to_number x with
                        | Some n => SNum n
                        | None => SStr x
                        end) /\
  seg "1.10.0-beta" =
    [SNum (JsNumber.Fin 1); SNum (JsNumber.Fin 10); SNum (JsNumber.Fin 0);
     SStr "beta"] /\
  (* the loop is the segment-wise comparison of the specification *)
  (forall a b, semverCompare a b = compare_segments (seg a) (seg b)) /\
  (* missing segment lowest *)
  (forall a b x R, seg b = (seg a ++ x :: R)%list ->
     semverCompare a b = (-1)%Z /\ semverCompare b a = 1%Z) /\
  (* same type: native order; different types: the number is greater *)
  (forall a b P m n A B, seg a = (P ++ SNum m :: A)%list -> seg b = (P ++ SNum n :: B)%list ->
     JsNumber.ltb m n = true -> semverCompare a b = (-1)%Z) /\
  (forall a b P u v A B, seg a = (P ++ SStr u :: A)%list -> seg b = (P ++ SStr v :: B)%list ->
     JsString.ltb u v = true -> semverCompare a b = (-1)%Z) /\
  (forall a b P n u A B, seg a = (P ++ SNum n :: A)%list -> seg b = (P ++ SStr u :: B)%list ->
     semverCompare a b = 1%Z /\ semverCompare b a = (-1)%Z) /\
  (* the two examples *)
  (semverCompare "1.2.0" "1.10.0" < 0)%Z /\
  (semverCompare "1.0" "1.0.0" < 0)%Z.
Proof.
  split; [exact is_sep_spec|].
  split.
  { intros s. split; [apply split_no_sep|].
    unfold seg. rewrite length_map. apply split_length. }
  split; [reflexivity|].
  split; [intros x; unfold coerce; now destruct (JsNumber.to_number x)|].
  split; [reflexivity|].
  split; [exact semverCompare_structural|].
  split.
  { intros a b x R H. split.
    - rewrite semverCompare_structural, H. apply compare_segments_prefix.
    - rewrite (semverCompare_swap b a), semverCompare_structural, H,
        compare_segments_prefix. reflexivity. }
  split.
  { intros a b P m n A B Ha Hb Hlt.
    rewrite semverCompare_structural, Ha, Hb, compare_segments_app. simpl.
    now rewrite Hlt. }
  split.
  { intros a b P u v A B Ha Hb Hlt.
    rewrite semverCompare_structural, Ha, Hb, compare_segments_app. simpl.
    now rewrite Hlt. }
  split.
  { intros a b P n u A B Ha Hb. split.
    - rewrite semverCompare_structural, Ha, Hb, compare_segments_app.
      reflexivity.
    - rewrite semverCompare_structural, Ha, Hb, compare_segments_app.
      reflexivity. }
  split; reflexivity.
Qed.

Lemma semverCompare_segmentwise_witness :
  (semverCompare "1.0" "1.0.0" = (-1)%Z /\ semverCompare "1.0.0" "1.0" = 1%Z) /\
  semverCompare "1.2.0" "1.10.0" = (-1)%Z /\
  semverCompare "1.0-alpha" "1.0-beta" = (-1)%Z /\
  (semverCompare "1.0.1" "1.0.rc" = 1%Z /\
   semverCompare "1.0.rc" "1.0.1" = (-1)%Z).
Proof.
  destruct semverCompare_segmentwise
    as (_ & _ & _ & _ & _ & _ & Hmiss & Hnum & Hstr & Hmix & _).
  split; [|split; [|split]].
  - apply (Hmiss "1.0" "1.0.0" (SNum (JsNumber.Fin 0)) []). reflexivity.
  - apply (Hnum "1.2.0" "1.10.0" [SNum (JsNumber.Fin 1)]
             (JsNumber.Fin 2) (JsNumber.Fin 10)
             [SNum (JsNumber.Fin 0)] [SNum (JsNumber.Fin 0)]); reflexivity.
  - apply (Hstr "1.0-alpha" "1.0-beta"
             [SNum (JsNumber.Fin 1); SNum (JsNumber.Fin 0)]
             "alpha" "beta" [] []); reflexivity.
  - apply (Hmix "1.0.1" "1.0.rc"
             [SNum (JsNumber.Fin 1); SNum (JsNumber.Fin 0)]
             (JsNumber.Fin 1) "rc" [] []); reflexivity.
Defined.

End UtilsFacts.

(** ** Facts about [parseDateString] *)

Module DateFacts.
Import Utils.

(** *** The compact form always yields a time value *)

Lemma is_digit_cases c :
  JsString.is_digit c = true ->
  exists n, (n < 10)%nat /\ c = ascii_of_nat (48 + n).
Proof.
  intros H. unfold JsString.is_digit in H.
  apply andb_true_iff in H as [H1 H2].
  apply Nat.leb_le in H1, H2.
  exists (nat_of_ascii c - 48)%nat. split; [lia|].
  replace (48 + (nat_of_ascii c - 48))%nat with (nat_of_ascii c) by lia.
  now rewrite ascii_nat_embedding.
Qed.

Ltac digit_cases c H :=
  let n := fresh "n" in
  let Hn := fresh "Hn" in
  destruct (is_digit_cases c H) as (n & Hn & ->);
  do 10 try (destruct n as [|n]; [clear Hn|]);
  try (exfalso; lia);
  repeat match goal with
         | |- context [ascii_of_nat ?k] =>
             let v := eval vm_compute in (ascii_of_nat k) in
             change (ascii_of_nat k) with v in *
         end.

Lemma digit_val_digit c :
  JsString.is_digit c = true ->
  exists d, JsNumber.digit_val c = Some d /\ (d < 10)%N.
Proof.
  intros H. digit_cases c H; (eexists; split; [reflexivity | reflexivity]).
Qed.

Lemma digit_run_digits s : forall acc,
  all_digits s = true ->
  exists n, digit_run 10 s (Some acc) = Some n /\
            (acc * 10 ^ N.of_nat (String.length s) <= n
             < (acc + 1) * 10 ^ N.of_nat (String.length s))%N.
Proof.
  induction s as [|c s IH]; intros acc H; simpl.
  - exists acc. split; [reflexivity | lia].
  - simpl in H. apply andb_true_iff in H as [Hc Hs].
    destruct (digit_val_digit c Hc) as (d & -> & Hd).
    assert ((d <? 10)%N = true) as -> by now apply N.ltb_lt.
    destruct (IH (acc * 10 + d)%N Hs) as (n & -> & Hn).
    exists n. split; [reflexivity|].
    rewrite Nat2N.inj_succ, N.pow_succ_r'. nia.
Qed.

Lemma parseInt_digits s :
  all_digits s = true -> s <> "" ->
  exists n, parseInt s = Some n /\
            (0 <= n < 10 ^ Z.of_nat (String.length s))%Z.
Proof.
  intros H Hne. destruct s as [|c s]; [congruence|].
  assert (Hrun : exists n, digit_run 10 (String c s) None = Some n /\
                 (n < 10 ^ N.of_nat (String.length (String c s)))%N).
  { simpl in H. apply andb_true_iff in H as [Hc Hs]. simpl digit_run.
    destruct (digit_val_digit c Hc) as (d & -> & Hd).
    assert ((d <? 10)%N = true) as -> by now apply N.ltb_lt.
    destruct (digit_run_digits s d Hs) as (n & -> & Hn).
    exists n. split; [reflexivity|].
    simpl String.length. rewrite Nat2N.inj_succ, N.pow_succ_r'. nia. }
  destruct Hrun as (n & Hrun & Hn).
  exists (Z.of_N n). split.
  - simpl in H. apply andb_true_iff in H as [Hc Hs].
    unfold parseInt.
    assert (Htrim : JsString.trimStart (String c s) = String c s).
    { digit_cases c Hc; reflexivity. }
    rewrite Htrim.
    destruct s as [|c2 s2].
    + digit_cases c Hc; cbv beta iota zeta; rewrite Hrun; reflexivity.
    + simpl in Hs. apply andb_true_iff in Hs as [Hc2 Hs2].
      digit_cases c Hc; digit_cases c2 Hc2;
        cbv beta iota zeta; rewrite Hrun; reflexivity.
  - split; [lia|].
    change 10%Z with (Z.of_N 10). rewrite <- nat_N_Z, <- N2Z.inj_pow. lia.
Qed.

Lemma substring_digits s : forall i n,
  all_digits s = true -> all_digits (substring i n s) = true.
Proof.
  induction s as [|c s IH]; intros i n H.
  - destruct i, n; reflexivity.
  - simpl in H. apply andb_true_iff in H as [Hc Hs].
    destruct i as [|i]; simpl.
    + destruct n as [|n]; [reflexivity|]. simpl. rewrite Hc. now apply IH.
    + now apply IH.
Qed.

Lemma substring_length s : forall i n,
  (i + n <= String.length s)%nat -> String.length (substring i n s) = n.
Proof.
  induction s as [|c s IH]; intros i n H; simpl in H.
  - assert (i = 0 /\ n = 0)%nat as [-> ->] by lia. reflexivity.
  - destruct i as [|i]; simpl.
    + destruct n as [|n]; [reflexivity|]. simpl. f_equal. apply IH. lia.
    + apply IH. lia.
Qed.

Lemma parseInt_group s i n :
  all_digits s = true -> (i + n <= String.length s)%nat -> (0 < n)%nat ->
  exists v, parseInt (substring i n s) = Some v /\
            (0 <= v < 10 ^ Z.of_nat n)%Z.
Proof.
  intros Hd Hlen Hn.
  destruct (parseInt_digits (substring i n s)) as (v & Hv & Hb).
  - now apply substring_digits.
  - intros H. pose proof (substring_length s i n Hlen) as Hl.
    rewrite H in Hl. simpl in Hl. lia.
  - rewrite (substring_length s i n Hlen) in Hb. eauto.
Qed.

Lemma month_start_bounds mn :
  (0 <= mn < 12)%Z -> (0 <= JsDate.month_start mn <= 334)%Z.
Proof.
  intros H.
  assert (mn = 0 \/ mn = 1 \/ mn = 2 \/ mn = 3 \/ mn = 4 \/ mn = 5 \/
          mn = 6 \/ mn = 7 \/ mn = 8 \/ mn = 9 \/ mn = 10 \/ mn = 11)%Z
    as Hc by lia.
  repeat destruct Hc as [->|Hc]; try subst mn; simpl; lia.
Qed.

(** [Date.UTC] on two-digit fields and a four-digit year never leaves the
    range of time values. *)
Lemma UTC_in_range y mo d h mi se :
  (0 <= y < 10000)%Z -> (-1 <= mo < 99)%Z -> (0 <= d < 100)%Z ->
  (0 <= h < 100)%Z -> (0 <= mi < 100)%Z -> (0 <= se < 100)%Z ->
  exists t, JsDate.UTC y mo d h mi se = Some t.
Proof.
  intros Hy Hmo Hd Hh Hmi Hse.
  unfold JsDate.UTC, JsDate.TimeClip.
  match goal with
  | |- exists t, (if ?c then _ else _) = _ => assert (Hc : c = true)
  end.
  2:{ rewrite Hc. eauto. }
  apply Z.leb_le.
  unfold JsDate.MakeDate, JsDate.MakeDay, JsDate.MakeTime, JsDate.DayFromYear,
    JsDate.msPerDay, JsDate.msPerHour, JsDate.msPerMinute, JsDate.msPerSecond.
  assert (Hyr : (100 <= JsDate.MakeFullYear y < 10000)%Z).
  { unfold JsDate.MakeFullYear.
    destruct ((0 <=? y) && (y <=? 99))%Z eqn:E; [lia|].
    apply andb_false_iff in E as [E|E];
      [apply Z.leb_gt in E | apply Z.leb_gt in E]; lia. }
  set (yr := JsDate.MakeFullYear y) in *.
  pose proof (month_start_bounds (mo mod 12)) as Hms.
  assert (Hmod : (0 <= mo mod 12 < 12)%Z) by (apply Z.mod_pos_bound; lia).
  specialize (Hms Hmod).
  set (ms := JsDate.month_start (mo mod 12)) in *.
  assert (Hdiv : (-1 <= mo / 12 <= 8)%Z)
    by (Z.to_euclidean_division_equations; lia).
  set (q := (mo / 12)%Z) in *.
  set (leap := if JsDate.InLeapYear (yr + q) && (2 <=? mo mod 12)%Z
               then 1%Z else 0%Z).
  assert (Hleap : (0 <= leap <= 1)%Z) by (unfold leap; destruct (_ && _); lia).
  clearbody leap ms q yr.
  assert (H4 : (-500 <= (yr + q - 1969) / 4 <= 2100)%Z)
    by (Z.to_euclidean_division_equations; lia).
  assert (H100 : (-20 <= (yr + q - 1901) / 100 <= 100)%Z)
    by (Z.to_euclidean_division_equations; lia).
  assert (H400 : (-5 <= (yr + q - 1601) / 400 <= 30)%Z)
    by (Z.to_euclidean_division_equations; lia).
  lia.
Qed.

(** Every string of fourteen digits is a compact date. *)
Lemma compactDate_total s :
  String.length s = 14%nat -> all_digits s = true ->
  exists t, compactDate s = Some t.
Proof.
  intros Hlen Hd. unfold compactDate, fullDateMatch.
  rewrite Hlen, Hd. simpl andb. cbv iota.
  destruct (parseInt_group s 0 4 Hd) as (y & -> & Hy); [lia | lia |].
  destruct (parseInt_group s 4 2 Hd) as (mo & -> & Hmo); [lia | lia |].
  destruct (parseInt_group s 6 2 Hd) as (d & -> & Hdd); [lia | lia |].
  destruct (parseInt_group s 8 2 Hd) as (h & -> & Hh); [lia | lia |].
  destruct (parseInt_group s 10 2 Hd) as (mi & -> & Hmi); [lia | lia |].
  destruct (parseInt_group s 12 2 Hd) as (se & -> & Hse); [lia | lia |].
  simpl option_map. unfold Date_UTC.
  apply UTC_in_range; simpl in *; lia.
Qed.

Section WithDateParse.
Variable Date_parse : string -> option Z.

Lemma parseDateString_not_string v :
  Js.is_string v = false -> parseDateString Date_parse v = None.
Proof. destruct v; simpl; congruence. Qed.

Lemma parseDateString_blank s :
  JsString.trim s = "" -> parseDateString Date_parse (Js.VStr s) = None.
Proof. intros H. simpl. now rewrite H. Qed.

(** The compact form is tried first: when it yields a time value, that is
    the result, whatever [Date.parse] would say. *)
Lemma parseDateString_compact_first s t :
  JsString.trim s <> "" -> compactDate (JsString.trim s) = Some t ->
  parseDateString Date_parse (Js.VStr s) = Some t.
Proof.
  intros Hne Hc. simpl.
  destruct (String.eqb_spec (JsString.trim s) ""); [contradiction|].
  now rewrite Hc.
Qed.

(** A string that is neither blank nor compact is handed to [Date.parse]. *)
Lemma parseDateString_fallback s :
  JsString.trim s <> "" -> compactDate (JsString.trim s) = None ->
  parseDateString Date_parse (Js.VStr s) = Date_parse (JsString.trim s).
Proof.
  intros Hne Hc. simpl.
  destruct (String.eqb_spec (JsString.trim s) ""); [contradiction|].
  rewrite Hc. unfold new_Date.
  destruct (Date_parse (JsString.trim s)); reflexivity.
Qed.

End WithDateParse.

(** [C8] ["20230615143000"] parses to the time value of 2023-06-15 14:30:00
    UTC; the compact form comes first: every string of fourteen digits gets
    the time value [Date.UTC] gives its fields, whatever [Date.parse] would
    say; every input that is not a string, and every empty or blank string,
    gives the [null] result. *)
Theorem parseDateString_contract :
  forall Date_parse : string -> option Z,
    parseDateString Date_parse (Js.VStr "20230615143000")
      = Some 1686839400000%Z /\
    JsDate.utc_fields 1686839400000 = (2023, 6, 15, 14, 30, 0, 0)%Z /\
    JsDate.UTC 2023 5 15 14 30 0 = Some 1686839400000%Z /\
    (forall v, Js.is_string v = false ->
               parseDateString Date_parse v = None) /\
    (forall s, JsString.trim s = "" ->
               parseDateString Date_parse (Js.VStr s) = None) /\
    (forall s t, JsString.trim s <> "" ->
                 compactDate (JsString.trim s) = Some t ->
                 parseDateString Date_parse (Js.VStr s) = Some t) /\
    (forall s, String.length (JsString.trim s) = 14%nat ->
               all_digits (JsString.trim s) = true ->
               exists t, compactDate (JsString.trim s) = Some t /\
                         parseDateString Date_parse (Js.VStr s) = Some t).
Proof.
  intros Date_parse.
  split; [reflexivity|].
  split; [reflexivity|].
  split; [reflexivity|].
  split; [apply parseDateString_not_string|].
  split; [apply parseDateString_blank|].
  split; [apply parseDateString_compact_first|].
  intros s Hlen Hd.
  destruct (compactDate_total _ Hlen Hd) as [t Ht].
  exists t. split; [exact Ht|].
  apply parseDateString_compact_first; [|exact Ht].
  intros H. rewrite H in Hlen. discriminate.
Qed.

Lemma parseDateString_contract_witness :
  parseDateString (fun _ => Some 0%Z) Js.VNull = None /\
  parseDateString (fun _ => Some 0%Z) (Js.VNum 20230615143000) = None /\
  parseDateString (fun _ => Some 0%Z) (Js.VStr "   ") = None /\
  parseDateString (fun _ => Some 0%Z) (Js.VStr " 20230615143000 ")
    = Some 1686839400000%Z /\
  (exists t, compactDate (JsString.trim "19991231235959 ") = Some t /\
             parseDateString (fun _ => Some 0%Z) (Js.VStr "19991231235959 ")
             = Some t).
Proof.
  destruct (parseDateString_contract (fun _ => Some 0%Z))
    as (_ & _ & _ & Hns & Hblank & Hfirst & Hany).
  split; [apply Hns; reflexivity|].
  split; [apply Hns; reflexivity|].
  split; [apply Hblank; reflexivity|].
  split; [apply Hfirst; [discriminate | reflexivity]|].
  apply (Hany "19991231235959 "); reflexivity.
Defined.

End DateFacts.

(** ** Facts about the constructors *)

Module AltSourceKitFacts.
Import Js AltSourceKit.

Lemma guard_spec msg data :
  guard msg data = (if is_object data then Ok tt else Throw (Error msg)).
Proof.
  unfold guard, is_object.
  destruct (truthy data), (typeof_object data); reflexivity.
Qed.

(** Which values the guard lets through. *)
Lemma is_object_shape data :
  is_object data = true <->
  (exists items, data = VArr items) \/ (exists fields, data = VObj fields).
Proof.
  split.
  - destruct data; simpl; try discriminate; eauto.
    + unfold is_object. simpl. destruct b; discriminate.
    + unfold is_object. simpl. rewrite andb_false_r. discriminate.
    + unfold is_object. simpl. rewrite andb_false_r. discriminate.
  - intros [[? ->]|[? ->]]; reflexivity.
Qed.

Section MapNew.
Context {A : Type} (ctor : value -> result A).

(** When the mapped constructor calls all return, so does the map. *)
Lemma map_new_ok items :
  Forall (fun x => exists a, ctor x = Ok a) items ->
  exists r, map_new ctor items = Ok r /\ length r = length items.
Proof.
  induction 1 as [|x items [a Ha] _ [r [Hr Hl]]]; simpl.
  - exists []. split; reflexivity.
  - rewrite Ha. simpl. rewrite Hr. simpl. exists (a :: r). simpl.
    split; [reflexivity | now rewrite Hl].
Qed.

Lemma map_new_ok_inv items r :
  map_new ctor items = Ok r ->
  Forall (fun x => exists a, ctor x = Ok a) items.
Proof.
  revert r. induction items as [|x items IH]; intros r H; [constructor|].
  simpl in H. destruct (ctor x) as [a|e] eqn:Ex; [|discriminate].
  simpl in H. destruct (map_new ctor items) as [r'|e] eqn:Er; [|discriminate].
  constructor; [eauto | eapply IH; reflexivity].
Qed.

(** Whatever the map throws was thrown by one of the constructor calls. *)
Lemma map_new_throw items e :
  map_new ctor items = Throw e -> exists x, In x items /\ ctor x = Throw e.
Proof.
  induction items as [|x items IH]; simpl; [discriminate|].
  destruct (ctor x) as [a|e'] eqn:Ex; simpl.
  - destruct (map_new ctor items) as [r|e'] eqn:Er; simpl; [discriminate|].
    intros H. injection H as <-. destruct (IH eq_refl) as [y [Hy Hc]].
    exists y. auto.
  - intros H. injection H as <-. exists x. auto.
Qed.

Lemma map_or_empty_falsy v :
  truthy v = false -> map_or_empty ctor v = Ok [].
Proof. intros H. unfold map_or_empty, or_else. now rewrite H. Qed.

Lemma map_or_empty_array items :
  map_or_empty ctor (VArr items) = map_new ctor items.
Proof. reflexivity. Qed.

Lemma map_or_empty_throw v e :
  map_or_empty ctor v = Throw e ->
  e = TypeError \/ exists x, ctor x = Throw e.
Proof.
  unfold map_or_empty, or_else.
  destruct (truthy v); [|simpl; discriminate].
  destruct v; try (intros H; injection H as <-; now left).
  intros H. right. destruct (map_new_throw _ _ H) as [x [_ Hx]]. eauto.
Qed.

End MapNew.

Lemma map_or_empty_ok_iff {A : Type} (ctor : value -> result A) v :
  (exists r, map_or_empty ctor v = Ok r) <-> mappable ctor v.
Proof.
  split.
  - intros [r Hr]. unfold mappable.
    destruct (truthy v) eqn:Ht; [right | now left].
    unfold map_or_empty, or_else in Hr. rewrite Ht in Hr.
    destruct v; try discriminate.
    exists items. split; [reflexivity|]. eapply map_new_ok_inv; eauto.
  - intros [Hf | [items [-> Hall]]].
    + exists []. now apply map_or_empty_falsy.
    + destruct (map_new_ok ctor items Hall) as [r [Hr _]]. eauto.
Qed.

Lemma new_Version_throw x e :
  new_Version x = Throw e -> e = Error "Invalid version data".
Proof.
  unfold new_Version. rewrite guard_spec.
  destruct (is_object x); simpl; congruence.
Qed.

Lemma new_Permission_throw x e :
  new_Permission x = Throw e -> e = Error "Invalid permission data".
Proof.
  unfold new_Permission. rewrite guard_spec.
  destruct (is_object x); simpl; congruence.
Qed.

Lemma new_AppPermissions_throw x e :
  new_AppPermissions x = Throw e -> e = Error "Invalid app permissions data".
Proof.
  unfold new_AppPermissions. rewrite guard_spec.
  destruct (is_object x); simpl; congruence.
Qed.

Lemma new_News_throw x e :
  new_News x = Throw e -> e = Error "Invalid news data".
Proof.
  unfold new_News. rewrite guard_spec.
  destruct (is_object x); simpl; congruence.
Qed.

Lemma new_App_throw x e : new_App x = Throw e -> e <> repo_error.
Proof.
  unfold new_App. rewrite guard_spec.
  destruct (is_object x); simpl; [|intros [= <-]; discriminate].
  destruct (map_or_empty new_Version (get x "versions")) as [vs|e1] eqn:E1;
    simpl.
  2:{ intros [= <-]. apply map_or_empty_throw in E1 as [->|[y Hy]];
        [discriminate|]. apply new_Version_throw in Hy as ->. discriminate. }
  destruct (map_or_empty new_Permission (get x "permissions")) as [ps|e2] eqn:E2;
    simpl.
  2:{ intros [= <-]. apply map_or_empty_throw in E2 as [->|[y Hy]];
        [discriminate|]. apply new_Permission_throw in Hy as ->. discriminate. }
  destruct (truthy (get x "appPermissions")); simpl; [|discriminate].
  destruct (new_AppPermissions (get x "appPermissions")) as [p|e3] eqn:E3;
    simpl; [discriminate|].
  intros [= <-]. apply new_AppPermissions_throw in E3 as ->. discriminate.
Qed.

(** An object-shaped document never raises the document-level error. *)
Lemma new_ASRepository_object_error data e :
  is_object data = true -> new_ASRepository data = Throw e -> e <> repo_error.
Proof.
  intros Hobj. unfold new_ASRepository. rewrite guard_spec, Hobj. simpl.
  destruct (map_or_empty new_App (get data "apps")) as [apps|e1] eqn:E1; simpl.
  2:{ intros [= <-]. apply map_or_empty_throw in E1 as [->|[y Hy]];
        [discriminate|]. now apply new_App_throw in Hy. }
  destruct (map_or_empty new_News (get data "news")) as [news|e2] eqn:E2;
    simpl; [discriminate|].
  intros [= <-]. apply map_or_empty_throw in E2 as [->|[y Hy]];
    [discriminate|]. apply new_News_throw in Hy as ->. discriminate.
Qed.

Lemma new_ASRepository_not_object data :
  is_object data = false -> new_ASRepository data = Throw repo_error.
Proof.
  intros H. unfold new_ASRepository. rewrite guard_spec, H. reflexivity.
Qed.

(** When an object-shaped document is accepted. *)
Lemma new_ASRepository_ok_iff data :
  (exists r, new_ASRepository data = Ok r) <->
  is_object data = true /\
  mappable new_App (get data "apps") /\ mappable new_News (get data "news").
Proof.
  unfold new_ASRepository. rewrite guard_spec. split.
  - intros [r Hr]. destruct (is_object data); [|discriminate]. simpl in Hr.
    destruct (map_or_empty new_App (get data "apps")) as [apps|] eqn:E1;
      [|discriminate]. simpl in Hr.
    destruct (map_or_empty new_News (get data "news")) as [news|] eqn:E2;
      [|discriminate].
    repeat split; apply map_or_empty_ok_iff; eauto.
  - intros (-> & Ha & Hn). simpl.
    apply map_or_empty_ok_iff in Ha as [apps ->].
    apply map_or_empty_ok_iff in Hn as [news ->]. simpl. eauto.
Qed.

Lemma new_ASRepository_no_apps data :
  is_object data = true ->
  truthy (get data "apps") = false ->
  mappable new_News (get data "news") ->
  exists r, new_ASRepository data = Ok r /\ r_apps r = [].
Proof.
  intros Hobj Ha Hn. unfold new_ASRepository. rewrite guard_spec, Hobj. simpl.
  rewrite (map_or_empty_falsy _ _ Ha). simpl.
  apply map_or_empty_ok_iff in Hn as [news ->]. simpl. eauto.
Qed.

(** An entry of [apps] that is not an object stops the repository
    constructor, whatever else the document holds. *)
Lemma new_ASRepository_bad_app data items :
  is_object data = true -> get data "apps" = VArr items ->
  Exists (fun x => is_object x = false) items ->
  exists e, new_ASRepository data = Throw e /\ e <> repo_error.
Proof.
  intros Hobj Happs Hbad.
  destruct (new_ASRepository data) as [r|e] eqn:E.
  - exfalso.
    assert (Hok : exists r, new_ASRepository data = Ok r) by eauto.
    apply new_ASRepository_ok_iff in Hok as (_ & [Hf|(items' & Heq & Hall)] & _).
    + rewrite Happs in Hf. discriminate.
    + rewrite Happs in Heq. injection Heq as <-.
      apply Exists_exists in Hbad as (x & Hin & Hx).
      rewrite Forall_forall in Hall. destruct (Hall x Hin) as [a Ha].
      unfold new_App in Ha. rewrite guard_spec, Hx in Ha. discriminate.
  - exists e. split; [reflexivity|].
    now apply (new_ASRepository_object_error data e Hobj).
Qed.

(** [C9], as the constructors have it.  The document-level error is thrown
    exactly when the input is not an object (a primitive or [null]).  An
    object-shaped document whose [apps] and [news] are absent (or falsy),
    or arrays of entries their constructors accept, is accepted, and
    without [apps] its app list is empty.  An object-shaped document with an
    [apps] entry that is not an object is rejected by the guard of the
    nested constructor: it throws, though never the document-level
    error. *)
Theorem new_ASRepository_strict :
  (forall data,
     new_ASRepository data = Throw repo_error <-> is_object data = false) /\
  (forall data,
     is_object data = true ->
     mappable new_App (get data "apps") ->
     mappable new_News (get data "news") ->
     exists r, new_ASRepository data = Ok r) /\
  (forall data,
     is_object data = true ->
     truthy (get data "apps") = false ->
     mappable new_News (get data "news") ->
     exists r, new_ASRepository data = Ok r /\ r_apps r = []) /\
  (forall data items,
     is_object data = true -> get data "apps" = VArr items ->
     Exists (fun x => is_object x = false) items ->
     exists e, new_ASRepository data = Throw e /\ e <> repo_error) /\
  new_ASRepository (VStr "not a catalog") = Throw repo_error /\
  new_ASRepository VNull = Throw repo_error /\
  (exists r, new_ASRepository (VObj [("name", VStr "Odd")]) = Ok r /\
             r_apps r = []).
Proof.
  split.
  { intros data. split.
    - intros H. destruct (is_object data) eqn:Hobj; [|reflexivity].
      exfalso. now apply (new_ASRepository_object_error data repo_error Hobj).
    - apply new_ASRepository_not_object. }
  split.
  { intros data Hobj Ha Hn. apply new_ASRepository_ok_iff. auto. }
  split; [exact new_ASRepository_no_apps|].
  split; [exact new_ASRepository_bad_app|].
  split; [reflexivity|].
  split; [reflexivity|].
  eexists. split; reflexivity.
Qed.

Lemma new_ASRepository_strict_witness :
  new_ASRepository (VNum 7) = Throw repo_error /\
  (exists r, new_ASRepository
               (VObj [("apps", VArr [VObj [("name", VStr "A")]])]) = Ok r) /\
  (exists r, new_ASRepository (VObj [("news", VArr [VObj []])]) = Ok r /\
             r_apps r = []) /\
  (exists e, new_ASRepository (VObj [("apps", VArr [VObj []; VNum 3])])
             = Throw e /\ e <> repo_error).
Proof.
  destruct new_ASRepository_strict as (Hthrow & Hok & Hnoapps & Hbad & _).
  split; [apply Hthrow; reflexivity|].
  split.
  { apply Hok; [reflexivity | | left; reflexivity].
    right. eexists. split; [reflexivity|].
    repeat constructor. eexists. reflexivity. }
  split.
  { apply Hnoapps; [reflexivity | reflexivity |].
    right. exists [VObj []]. split; [reflexivity|].
    repeat constructor. eexists. reflexivity. }
  apply (Hbad _ [VObj []; VNum 3]); [reflexivity | reflexivity |].
  apply Exists_cons_tl. apply Exists_cons_hd. reflexivity.
Defined.

(** An object-shaped document that the strict path rejects: one entry of
    [apps] is [null]. *)
Lemma new_ASRepository_object_throws :
  is_object (VObj [("apps", VArr [VNull])]) = true /\
  new_ASRepository (VObj [("apps", VArr [VNull])])
    = Throw (Error "Invalid app data").
Proof. split; reflexivity. Qed.

End AltSourceKitFacts.

(** ** Facts about the sort *)

Module SortFacts.
Import JsArray.

Section Sort.
Context {A : Type} (gt : A -> A -> bool).

Lemma insert_sorted_perm x l : Permutation (insert_sorted gt x l) (x :: l).
Proof.
  induction l as [|y l IH]; simpl; [reflexivity|].
  destruct (gt x y); [|reflexivity].
  rewrite IH. apply perm_swap.
Qed.

Lemma sort_perm l : Permutation (sort gt l) l.
Proof.
  induction l as [|x l IH]; simpl; [reflexivity|].
  rewrite insert_sorted_perm. now constructor.
Qed.

Lemma sort_In x l : In x (sort gt l) <-> In x l.
Proof.
  split; apply Permutation_in; [|symmetry]; apply sort_perm.
Qed.

Lemma sort_length l : length (sort gt l) = length l.
Proof. apply Permutation_length, sort_perm. Qed.

(** Two elements: the comparator on the pair, in array order, decides. *)
Lemma sort_pair x y :
  sort gt [x; y] = if gt x y then [y; x] else [x; y].
Proof. reflexivity. Qed.

Local Abbreviation ordered := (JsArray.ordered gt).

Hypothesis gt_total : forall x y, gt x y = true -> gt y x = false.
Hypothesis gt_trans : forall x y z, ordered x y -> ordered y z -> ordered x z.

Lemma insert_sorted_sorted x l :
  StronglySorted ordered l -> StronglySorted ordered (insert_sorted gt x l).
Proof.
  induction 1 as [|y l Hs IH Hall]; simpl.
  - repeat constructor.
  - destruct (gt x y) eqn:E.
    + constructor; [exact IH|].
      apply Forall_forall. intros z Hz.
      rewrite insert_sorted_perm in Hz.
      apply elem_of_cons in Hz as [->|Hz]; [now apply gt_total|].
      revert z Hz. now apply Forall_forall.
    + constructor; [now constructor|].
      constructor; [exact E|].
      apply Forall_forall. intros z Hz.
      apply gt_trans with y; [exact E|].
      revert z Hz. now apply Forall_forall.
Qed.

Lemma sort_sorted l : StronglySorted ordered (sort gt l).
Proof.
  induction l as [|x l IH]; simpl; [constructor|].
  now apply insert_sorted_sorted.
Qed.

End Sort.

Lemma sorted_weaken {A : Type} (R R' : A -> A -> Prop) (l : list A) :
  (forall a b, R a b -> R' a b) -> StronglySorted R l -> StronglySorted R' l.
Proof.
  intros Himp. induction 1 as [|x l Hs IH Hall]; constructor; [exact IH|].
  eapply Forall_impl; [exact Hall | auto].
Qed.

(** In a sorted list an element stands before every element it must
    precede: positions are ordered like the elements. *)
Lemma sorted_positions {A : Type} (R : A -> A -> Prop) (l : list A) i j x y :
  StronglySorted R l -> l !! i = Some x -> l !! j = Some y ->
  ~ R y x -> x <> y -> (i < j)%nat.
Proof.
  intros Hs. revert i j. induction Hs as [|z l Hs IH Hall]; intros i j Hi Hj Hn Hne.
  - discriminate.
  - destruct i as [|i], j as [|j]; simpl in *.
    + congruence.
    + lia.
    + exfalso. injection Hj as ->. apply Hn.
      apply list_elem_of_lookup_2 in Hi.
      exact (proj1 (Forall_forall _ _) Hall x Hi).
    + specialize (IH i j Hi Hj Hn Hne). lia.
Qed.

End SortFacts.

(** ** Facts about [sortApps] and [filterAndPrepare] *)

Module ControllerFacts.
Import Catalog Controller Examples.
Local Open Scope list_scope.

Section WithPlatform.
Variable Date_parse : string -> option Z.
Variable localeCompare : string -> string -> Z.
Variable Fuse_search : list item -> string -> nat -> list Search.fuse_result.
Variable allApps : list item.
Variable fuse_search : string -> nat -> list Search.fuse_result.

Local Abbreviation sortApps := (Controller.sortApps Date_parse localeCompare).
Local Abbreviation has_date := (Controller.has_date Date_parse).
Local Abbreviation getLatestDate := (Controller.getLatestDate Date_parse).
Local Abbreviation candidates :=
  (Controller.candidates Fuse_search allApps fuse_search).
Local Abbreviation filterAndPrepare :=
  (Controller.filterAndPrepare Date_parse localeCompare Fuse_search allApps
                               fuse_search).

Lemma sortApps_In it apps mode : In it (sortApps apps mode) <-> In it apps.
Proof.
  unfold Controller.sortApps, sort_with.
  repeat match goal with |- context [if ?c then _ else _] => destruct c end;
    apply SortFacts.sort_In.
Qed.

Lemma has_date_parse it :
  has_date it = true <->
  Utils.parseDateString Date_parse (date_value (item_date it)) <> None.
Proof.
  unfold Controller.has_date.
  destruct (Utils.parseDateString Date_parse (date_value (item_date it)));
    split; congruence.
Qed.

(** In a version mode the prepared list holds exactly the candidates whose
    [date] parses. *)
Lemma filterAndPrepare_list_In st it :
  is_version_mode (st_sort st) = true ->
  In it (st_list (filterAndPrepare st)) <->
  In it (candidates st) /\ has_date it = true.
Proof.
  intros Hm. unfold Controller.filterAndPrepare. simpl. rewrite Hm.
  rewrite sortApps_In. apply filter_In.
Qed.

(** The descending comparator on a dated and an undated app. *)
Lemma byVerDesc_dated_undated a b ta :
  getLatestDate a = Some ta -> getLatestDate b = None ->
  byVerDesc Date_parse localeCompare a b = (-1)%Z /\
  byVerDesc Date_parse localeCompare b a = 1%Z.
Proof. intros Ha Hb. unfold byVerDesc. now rewrite Ha, Hb. Qed.

Lemma sortApps_desc_dated_first a b ta :
  getLatestDate a = Some ta -> getLatestDate b = None ->
  sortApps [a; b] "version-desc" = [a; b] /\
  sortApps [b; a] "version-desc" = [a; b].
Proof.
  intros Ha Hb.
  destruct (byVerDesc_dated_undated a b ta Ha Hb) as [Hab Hba].
  unfold Controller.sortApps, sort_with. simpl. now rewrite Hab, Hba.
Qed.

Lemma step_desc_dated_only st a b :
  JsString.trim (st_q st) = "" -> st_sort st = "version-desc" ->
  has_date a = true -> has_date b = false ->
  st_allMerged st = [a; b] \/ st_allMerged st = [b; a] ->
  st_list (filterAndPrepare st) = [a].
Proof.
  intros Hq Hs Ha Hb Hl.
  unfold Controller.filterAndPrepare, Controller.candidates. simpl.
  rewrite Hq, Hs. simpl.
  destruct Hl as [-> | ->]; simpl; rewrite Ha, Hb; reflexivity.
Qed.

End WithPlatform.

(** [C1] In the filter/sort step under a version mode, an item whose [date]
    does not parse is left out of the prepared list (which holds exactly the
    other candidates); the step run in [version-desc] over a dated and an
    undated app keeps the dated one at the head; and the descending
    comparator itself puts an app whose leading version is dated before one
    whose is not, in either input order. *)
Theorem filterAndPrepare_version_modes :
  forall (Date_parse : string -> option Z)
         (localeCompare : string -> string -> Z)
         (Fuse_search : list item -> string -> nat -> list Search.fuse_result)
         (allApps : list item)
         (fuse_search : string -> nat -> list Search.fuse_result),
  let prepare := filterAndPrepare Date_parse localeCompare Fuse_search
                                  allApps fuse_search in
  let cands := candidates Fuse_search allApps fuse_search in
  (forall st it,
     st_sort st = "version-desc" \/ st_sort st = "version-asc" ->
     Utils.parseDateString Date_parse (date_value (item_date it)) = None ->
     ~ In it (st_list (prepare st))) /\
  (forall st it,
     st_sort st = "version-desc" \/ st_sort st = "version-asc" ->
     (In it (st_list (prepare st)) <->
      In it (cands st) /\
      Utils.parseDateString Date_parse (date_value (item_date it)) <> None)) /\
  (forall st a b,
     JsString.trim (st_q st) = "" -> st_sort st = "version-desc" ->
     Utils.parseDateString Date_parse (date_value (item_date a)) <> None ->
     Utils.parseDateString Date_parse (date_value (item_date b)) = None ->
     st_allMerged st = [a; b] \/ st_allMerged st = [b; a] ->
     st_list (prepare st) = [a]) /\
  (forall a b ta,
     getLatestDate Date_parse a = Some ta ->
     getLatestDate Date_parse b = None ->
     sortApps Date_parse localeCompare [a; b] "version-desc" = [a; b] /\
     sortApps Date_parse localeCompare [b; a] "version-desc" = [a; b]).
Proof.
  intros Date_parse localeCompare Fuse_search allApps fuse_search prepare cands.
  assert (Hmode : forall st,
            st_sort st = "version-desc" \/ st_sort st = "version-asc" ->
            is_version_mode (st_sort st) = true).
  { intros st [-> | ->]; reflexivity. }
  split; [|split; [|split]].
  - intros st it Hm Hnone Hin.
    apply filterAndPrepare_list_In in Hin as [_ Hd]; [|auto].
    apply has_date_parse in Hd. contradiction.
  - intros st it Hm. unfold prepare.
    rewrite filterAndPrepare_list_In by auto.
    now rewrite has_date_parse.
  - intros st a b Hq Hs Ha Hb Hl. apply (step_desc_dated_only _ _ _ _ _ st a b); auto.
    + now apply has_date_parse.
    + destruct (has_date Date_parse b) eqn:E; [|reflexivity].
      apply has_date_parse in E. contradiction.
  - apply sortApps_desc_dated_first.
Qed.

Lemma filterAndPrepare_version_modes_witness :
  let prepare := filterAndPrepare Sample.Date_parse Sample.localeCompare
                                  Sample.no_match [] (fun _ _ => []) in
  ~ In undated_item (st_list (prepare (sample_state [dated_item; undated_item])))
  /\ In dated_item (st_list (prepare (sample_state [dated_item; undated_item])))
  /\ st_list (prepare (sample_state [undated_item; dated_item])) = [dated_item]
  /\ sortApps Sample.Date_parse Sample.localeCompare
       [undated_item; dated_item] "version-desc" = [dated_item; undated_item].
Proof.
  intros prepare.
  destruct (filterAndPrepare_version_modes Sample.Date_parse
              Sample.localeCompare Sample.no_match [] (fun _ _ => []))
    as (Hout & Hin & Hstep & Hsort).
  split; [|split; [|split]].
  - apply Hout; [left; reflexivity | reflexivity].
  - apply Hin; [left; reflexivity|]. split; [left; reflexivity | discriminate].
  - apply (Hstep _ dated_item undated_item);
      [reflexivity | reflexivity | discriminate | reflexivity|].
    right. reflexivity.
  - apply (Hsort dated_item undated_item 1672531200000%Z); reflexivity.
Defined.

End ControllerFacts.

(** ** Facts about [mergeByBundle] *)

Module MergeFacts.
Import Catalog Merge MergeSpec MergeInv Examples.
Local Open Scope list_scope.

Lemma map_get_app_sym b m i o : map_get b (m ++ [(KSym i, o)]) = map_get b m.
Proof.
  induction m as [|[[b'|j] o'] m IH]; simpl; [reflexivity| |exact IH].
  destruct (String.eqb b b'); [reflexivity | exact IH].
Qed.

Lemma map_get_app_str b m b' o :
  map_get b (m ++ [(KStr b', o)]) =
  match map_get b m with
  | Some x => Some x
  | None => if String.eqb b b' then Some o else None
  end.
Proof.
  induction m as [|[[c|j] o'] m IH]; simpl; [reflexivity| |exact IH].
  destruct (String.eqb b c); [reflexivity | exact IH].
Qed.

Lemma map_get_In b m o : map_get b m = Some o -> In (KStr b, o) m.
Proof.
  induction m as [|[[c|j] o'] m IH]; simpl; [discriminate| |auto].
  destruct (String.eqb_spec b c) as [->|Hne]; [|auto].
  intros [= ->]. now left.
Qed.

Lemma map_get_None_In b m o : map_get b m = None -> ~ In (KStr b, o) m.
Proof.
  induction m as [|[[c|j] o'] m IH]; simpl; [tauto| |].
  - destruct (String.eqb_spec b c) as [->|Hne]; [discriminate|].
    intros H [[= <-]|Hin]; [congruence | now apply IH].
  - intros H [[=]|Hin]. now apply IH.
Qed.

Lemma str_keys_app m m' : str_keys (m ++ m') = str_keys m ++ str_keys m'.
Proof.
  induction m as [|[[b|i] o] m IH]; simpl; [reflexivity| |exact IH].
  now rewrite IH.
Qed.

Lemma str_keys_In b m : In b (str_keys m) <-> exists o, In (KStr b, o) m.
Proof.
  induction m as [|[[c|i] o] m IH]; simpl.
  - split; [tauto | intros [? []]].
  - rewrite IH. split.
    + intros [->|[o' H]]; eauto.
    + intros [o' [[= -> ->]|H]]; eauto.
  - rewrite IH. split.
    + intros [o' H]; eauto.
    + intros [o' [[=]|H]]; eauto.
Qed.

Lemma map_get_None_keys b m : map_get b m = None -> ~ In b (str_keys m).
Proof.
  intros H Hin. apply str_keys_In in Hin as [o Ho].
  now apply (map_get_None_In b m o).
Qed.

Lemma or_else_first_nonempty g x :
  JsString.or_else (first_nonempty g) x = first_nonempty (g ++ [x]).
Proof.
  induction g as [|y g IH]; simpl.
  - unfold JsString.or_else. simpl. now destruct x.
  - destruct (JsString.truthy y) eqn:E; [|exact IH].
    unfold JsString.or_else. now rewrite E.
Qed.

Lemma first_nonempty_single x : first_nonempty [x] = x.
Proof. now destruct x. Qed.

Lemma first_nonempty_app l r :
  JsString.truthy (first_nonempty l) = true ->
  first_nonempty (l ++ r) = first_nonempty l.
Proof.
  induction l as [|x l IH]; simpl; [discriminate|].
  destruct (JsString.truthy x); auto.
Qed.

Lemma fields_merged_single a (l : loc) :
  fields_merged (with_versions a (Some l)) [a].
Proof.
  unfold fields_merged. cbn -[first_nonempty].
  now rewrite !first_nonempty_single.
Qed.

Lemma fields_merged_step acc g a :
  fields_merged acc g -> fields_merged (merge_fields acc a) (g ++ [a]).
Proof.
  intros (Hn & Hi & Hd & He). unfold fields_merged. simpl.
  rewrite !map_app. simpl.
  rewrite Hn, Hi, Hd, He, !or_else_first_nonempty. auto.
Qed.

Section Invariant.
Variable st0 : store.

Lemma inv_init : inv st0 [] st0 [].
Proof.
  constructor; simpl; try lia; try tauto; try discriminate; auto.
  constructor.
Qed.

Lemma group_snoc b done a :
  group st0 b (done ++ [a]) =
  group st0 b done ++
  (if String.eqb (bundle_key (objs st0 !!! a)) b then [objs st0 !!! a] else []).
Proof.
  unfold group. rewrite map_app, List.filter_app. simpl.
  now destruct (String.eqb (bundle_key (objs st0 !!! a)) b).
Qed.

Lemma inv_step done st m a :
  a < length (objs st0) -> inv st0 done st m ->
  inv st0 (done ++ [a]) (merge_step (st, m) a).1 (merge_step (st, m) a).2.
Proof.
  intros Ha I. pose proof (inv_objs _ _ _ _ I a Ha) as Hobj.
  unfold merge_step. cbv beta iota zeta. rewrite Hobj.
  set (obj := objs st0 !!! a) in *.
  destruct (JsString.truthy (bundle_key obj)) eqn:Hb; simpl.
  2:{ (* no bundle: the object itself goes into the map *)
    destruct I. constructor; simpl; auto.
    - intros b o Hin. apply in_app_or in Hin as [Hin|[[=]|[]]].
      rewrite map_get_app_sym. now apply inv_str0.
    - intros i o Hin. apply in_app_or in Hin as [Hin|[[= <- <-]|[]]].
      + destruct (inv_sym0 i o Hin). split; [apply in_or_app|]; auto.
      + split; [apply in_or_app; right; now left | exact Hb].
    - intros b o. rewrite map_get_app_sym, group_snoc. intros Hg.
      fold obj. destruct (String.eqb_spec (bundle_key obj) b) as [<-|Hne].
      + apply map_get_In, inv_str0 in Hg as (_ & _ & Ht & _). congruence.
      + rewrite app_nil_r. now apply inv_fields0.
    - intros b Ht. rewrite map_get_app_sym, group_snoc. intros Hg.
      fold obj. destruct (String.eqb_spec (bundle_key obj) b) as [<-|Hne];
        [congruence|]. rewrite app_nil_r. now apply inv_absent0.
    - intros b o. rewrite map_get_app_sym, group_snoc. intros Hg H.
      apply app_eq_nil in H as [H _]. now apply (inv_present0 b o).
    - rewrite str_keys_app. simpl. now rewrite app_nil_r. }
  destruct (map_get (bundle_key obj) m) as [o|] eqn:Hget; simpl.
  - (* the bundle is in the map: fill the object *)
    pose proof (inv_str _ _ _ _ I _ _ (map_get_In _ _ _ Hget))
      as (Ho & Hkey & _ & _ & arr & Harr & Harrb).
    rewrite Harr.
    destruct I. constructor; simpl; rewrite ?length_insert; auto.
    + intros o' Ho'. rewrite list_lookup_total_insert_ne by lia. auto.
    + intros l Hl. rewrite list_lookup_total_insert_ne by lia. auto.
    + intros b o' Hin.
      destruct (inv_str0 b o' Hin) as (Hr & Hk & Ht & Hg & arr' & Ha' & Hab).
      split; [exact Hr|].
      destruct (decide (o = o')) as [<-|Hne].
      * rewrite list_lookup_total_insert_eq by lia. simpl.
        repeat split; auto. exists arr'. split; [exact Ha' | lia].
      * rewrite list_lookup_total_insert_ne by exact Hne.
        repeat split; auto. exists arr'. split; [exact Ha' | lia].
    + intros i o' Hin. destruct (inv_sym0 i o' Hin).
      split; [apply in_or_app|]; auto.
    + intros b o' Hg. rewrite group_snoc. fold obj.
      destruct (String.eqb_spec (bundle_key obj) b) as [<-|Hne].
      * assert (o' = o) as -> by congruence.
        rewrite list_lookup_total_insert_eq by lia.
        apply fields_merged_step. now apply inv_fields0.
      * rewrite app_nil_r.
        assert (o <> o').
        { intros <-. apply map_get_In, inv_str0 in Hg as (_ & Hk' & _).
          congruence. }
        rewrite list_lookup_total_insert_ne by assumption.
        now apply inv_fields0.
    + intros b Ht Hg. rewrite group_snoc. fold obj.
      destruct (String.eqb_spec (bundle_key obj) b) as [<-|Hne];
        [congruence|]. rewrite app_nil_r. now apply inv_absent0.
    + intros b o' Hg. rewrite group_snoc. intros H.
      apply app_eq_nil in H as [H _]. now apply (inv_present0 b o').
  - (* a new bundle: a new object and a new array *)
    destruct I. constructor; simpl; rewrite ?length_app; simpl; try lia.
    + intros o Ho. rewrite lookup_total_app_l by lia. auto.
    + intros l Hl. rewrite lookup_total_app_l by lia. auto.
    + intros b o Hin. rewrite map_get_app_str.
      apply in_app_or in Hin as [Hin|[[= <- <-]|[]]].
      * destruct (inv_str0 b o Hin) as (Hr & Hk & Ht & Hg & arr & Ha' & Hab).
        rewrite lookup_total_app_l by lia. rewrite Hg.
        repeat split; auto; try lia. exists arr. split; [exact Ha' | lia].
      * rewrite list_lookup_total_middle by reflexivity.
        rewrite Hget, String.eqb_refl. simpl.
        repeat split; auto; try lia. eexists. split; [reflexivity | lia].
    + intros i o Hin. apply in_app_or in Hin as [Hin|[[=]|[]]].
      destruct (inv_sym0 i o Hin). split; [apply in_or_app|]; auto.
    + intros b o. rewrite map_get_app_str, group_snoc. fold obj.
      destruct (map_get b m) as [o'|] eqn:Hg.
      * intros [= <-].
        destruct (String.eqb_spec (bundle_key obj) b) as [<-|Hne];
          [congruence|]. rewrite app_nil_r.
        pose proof (inv_str0 _ _ (map_get_In _ _ _ Hg)) as (Hr & _).
        rewrite lookup_total_app_l by lia. now apply inv_fields0.
      * destruct (String.eqb_spec b (bundle_key obj)) as [->|Hne];
          [|discriminate].
        intros [= <-]. rewrite String.eqb_refl.
        rewrite (inv_absent0 _ Hb Hg). simpl.
        rewrite list_lookup_total_middle by reflexivity.
        apply fields_merged_single.
    + intros b Ht. rewrite map_get_app_str, group_snoc. fold obj.
      destruct (map_get b m) eqn:Hg; [discriminate|].
      destruct (String.eqb_spec b (bundle_key obj)) as [->|Hne];
        [discriminate|]. intros _.
      destruct (String.eqb_spec (bundle_key obj) b) as [<-|Hne'];
        [congruence|]. rewrite app_nil_r. now apply inv_absent0.
    + intros b o. rewrite map_get_app_str, group_snoc. fold obj.
      destruct (map_get b m) as [o'|] eqn:Hg.
      * intros _ H. apply app_eq_nil in H as [H _].
        now apply (inv_present0 b o').
      * destruct (String.eqb_spec b (bundle_key obj)) as [->|Hne];
          [|discriminate].
        intros _. rewrite String.eqb_refl. intros H.
        apply app_eq_nil in H as [_ H]. discriminate.
    + rewrite str_keys_app. simpl.
      apply List.NoDup_app. repeat split; auto.
      * repeat constructor. simpl. tauto.
      * intros x Hx [<-|[]]. now apply (map_get_None_keys _ _ Hget).
Qed.

Lemma inv_loop apps : forall done st m,
  Forall (fun a => a < length (objs st0)) apps -> inv st0 done st m ->
  inv st0 (done ++ apps) (foldl merge_step (st, m) apps).1
                     (foldl merge_step (st, m) apps).2.
Proof.
  induction apps as [|a apps IH]; intros done st m Hall I.
  - simpl. now rewrite app_nil_r.
  - inversion Hall as [|? ? Ha Hall']; subst.
    pose proof (inv_step done st m a Ha I) as I'.
    change (foldl merge_step (st, m) (a :: apps))
      with (foldl merge_step (merge_step (st, m) a) apps).
    destruct (merge_step (st, m) a) as [st' m'] eqn:E. simpl in I'.
    replace (done ++ a :: apps) with ((done ++ [a]) ++ apps)
      by now rewrite <- app_assoc.
    now apply IH.
Qed.

End Invariant.

Section SecondLoop.
Variable Date_parse : string -> option Z.

Lemma sort_step_objs st o : objs (sort_step Date_parse st o) = objs st.
Proof. unfold sort_step. now destruct (versions (objs st !!! o)). Qed.

Lemma sort_loop_objs os : forall st,
  objs (foldl (sort_step Date_parse) st os) = objs st.
Proof.
  induction os as [|o os IH]; intros st; simpl; [reflexivity|].
  now rewrite IH, sort_step_objs.
Qed.

(** The second loop leaves alone every array that no returned object
    holds. *)
Lemma sort_loop_arrs os l : forall st,
  (forall o, In o os -> versions (objs st !!! o) <> Some l) ->
  arrs (foldl (sort_step Date_parse) st os) !!! l = arrs st !!! l.
Proof.
  induction os as [|o os IH]; intros st H; simpl; [reflexivity|].
  rewrite IH.
  - unfold sort_step. destruct (versions (objs st !!! o)) as [arr|] eqn:E;
      [|reflexivity]. simpl.
    apply list_lookup_total_insert_ne. intros ->.
    apply (H o); [now left | exact E].
  - intros o' Ho'. rewrite sort_step_objs. apply H. now right.
Qed.

Lemma mergeByBundle_unfold st apps :
  mergeByBundle Date_parse st apps =
  (foldl (sort_step Date_parse) (foldl merge_step (st, []) apps).1
         (map_values (foldl merge_step (st, []) apps).2),
   map_values (foldl merge_step (st, []) apps).2).
Proof.
  unfold mergeByBundle. now destruct (foldl merge_step (st, []) apps).
Qed.

End SecondLoop.

(** With distinct string keys, exactly one returned object carries a given
    bundle identifier. *)
Lemma merged_for_none st b m :
  (forall k o, In (k, o) m ->
     String.eqb (bundle_key (objs st !!! o)) b = true -> k = KStr b) ->
  ~ In b (str_keys m) -> merged_for st b (map_values m) = [].
Proof.
  induction m as [|[k o] m IH]; intros Hhit Hno; [reflexivity|].
  unfold merged_for, map_values in *. simpl.
  destruct (String.eqb (bundle_key (objs st !!! o)) b) eqn:E.
  - exfalso. apply Hno. rewrite (Hhit k o (or_introl eq_refl) E). now left.
  - apply IH.
    + intros k' o' Hin. apply Hhit. now right.
    + intros Hin. apply Hno. destruct k; simpl; auto.
Qed.

Lemma merged_for_unique st b o m :
  (forall k o', In (k, o') m ->
     String.eqb (bundle_key (objs st !!! o')) b = true <-> k = KStr b) ->
  List.NoDup (str_keys m) -> In (KStr b, o) m ->
  merged_for st b (map_values m) = [o].
Proof.
  induction m as [|[k o1] m IH]; intros Hhit Hnd Hin; [destruct Hin|].
  assert (Hhit' : forall k o', In (k, o') m ->
            String.eqb (bundle_key (objs st !!! o')) b = true <-> k = KStr b).
  { intros k' o' H. apply Hhit. now right. }
  unfold merged_for, map_values in *. simpl.
  destruct (String.eqb (bundle_key (objs st !!! o1)) b) eqn:E.
  - apply (Hhit k o1 (or_introl eq_refl)) in E as ->. simpl in Hnd.
    inversion Hnd as [|? ? Hnotin Hnd']; subst.
    assert (o1 = o) as ->.
    { destruct Hin as [[= ->]|Hin]; [reflexivity|].
      exfalso. apply Hnotin. apply str_keys_In. eauto. }
    f_equal. apply (merged_for_none st b m); [|exact Hnotin].
    intros k' o' H. now apply Hhit'.
  - destruct Hin as [[= -> ->]|Hin].
    + assert (String.eqb (bundle_key (objs st !!! o)) b = true)
        by now apply (Hhit (KStr b) o (or_introl eq_refl)).
      congruence.
    + apply IH; auto.
      destruct k; simpl in Hnd; [now inversion Hnd | exact Hnd].
Qed.

(** What [mergeByBundle] returns for a bundle identifier that occurs in the
    input. *)
Lemma mergeByBundle_group Date_parse st apps b :
  Forall (fun a => a < length (objs st)) apps ->
  JsString.truthy b = true -> group st b apps <> [] ->
  exists o,
    merged_for (mergeByBundle Date_parse st apps).1 b
               (mergeByBundle Date_parse st apps).2 = [o] /\
    fields_merged (objs (mergeByBundle Date_parse st apps).1 !!! o)
                  (group st b apps).
Proof.
  intros Hall Hb Hg. rewrite mergeByBundle_unfold. cbn [fst snd].
  pose proof (inv_loop st apps [] st [] Hall (inv_init st)) as I.
  change ([] ++ apps) with apps in I. revert I.
  destruct (foldl merge_step (st, []) apps) as [st1 m] eqn:E. intros I.
  cbn [fst snd] in *.
  destruct (map_get b m) as [o|] eqn:Hget.
  2:{ exfalso. apply Hg. now apply (inv_absent _ _ _ _ I). }
  exists o. split.
  - apply merged_for_unique.
    + intros k o' Hin. rewrite sort_loop_objs.
      destruct k as [b'|i].
      * destruct (inv_str _ _ _ _ I b' o' Hin) as (_ & Hk & _).
        rewrite Hk. split.
        -- intros H. apply String.eqb_eq in H. now subst.
        -- intros [= ->]. apply String.eqb_refl.
      * destruct (inv_sym _ _ _ _ I i o' Hin) as (Hin' & Hf).
        assert (o' < length (objs st)).
        { rewrite List.Forall_forall in Hall. now apply Hall. }
        rewrite (inv_objs _ _ _ _ I) by assumption.
        split; [|discriminate].
        intros Heq. apply String.eqb_eq in Heq. congruence.
    + exact (inv_nodup _ _ _ _ I).
    + now apply map_get_In.
  - rewrite sort_loop_objs. now apply (inv_fields _ _ _ _ I).
Qed.

(** [C4] For every group of apps sharing a bundle identifier the merged app
    is unique and each of its scalar fields (name, icon, developer,
    description) is the first non-empty value of that field in encounter
    order; a field that is non-empty after some inputs keeps its value
    whatever inputs follow; [{name: "Foo"}] merged with [{name: ""}] has the
    name ["Foo"] in either order. *)
Theorem mergeByBundle_first_nonempty_wins :
  forall Date_parse : string -> option Z,
  let merge := mergeByBundle Date_parse in
  (forall st apps b,
     Forall (fun a => a < length (objs st)) apps ->
     JsString.truthy b = true -> group st b apps <> [] ->
     exists o,
       merged_for (merge st apps).1 b (merge st apps).2 = [o] /\
       name (objs (merge st apps).1 !!! o)
         = first_nonempty (map name (group st b apps)) /\
       icon (objs (merge st apps).1 !!! o)
         = first_nonempty (map icon (group st b apps)) /\
       dev (objs (merge st apps).1 !!! o)
         = first_nonempty (map dev (group st b apps)) /\
       desc (objs (merge st apps).1 !!! o)
         = first_nonempty (map desc (group st b apps))) /\
  (forall st apps more b o,
     Forall (fun a => a < length (objs st)) (apps ++ more) ->
     JsString.truthy b = true ->
     merged_for (merge st apps).1 b (merge st apps).2 = [o] ->
     exists o',
       merged_for (merge st (apps ++ more)).1 b
                  (merge st (apps ++ more)).2 = [o'] /\
       forall field : appobj -> string,
         field = name \/ field = icon \/ field = dev \/ field = desc ->
         JsString.truthy (field (objs (merge st apps).1 !!! o)) = true ->
         field (objs (merge st (apps ++ more)).1 !!! o')
           = field (objs (merge st apps).1 !!! o)) /\
  (let foo := mkApp (Some "com.x.y") "Foo" "" "" "" "a" None None in
   let bare := mkApp (Some "com.x.y") "" "" "" "" "b" None None in
   let st := {| objs := [foo; bare]; arrs := [] |} in
   map (fun o => name (objs (merge st [0; 1]).1 !!! o)) (merge st [0; 1]).2
     = ["Foo"] /\
   map (fun o => name (objs (merge st [1; 0]).1 !!! o)) (merge st [1; 0]).2
     = ["Foo"]).
Proof.
  intros Date_parse merge. split; [|split].
  - intros st apps b Hall Hb Hg.
    destruct (mergeByBundle_group Date_parse st apps b Hall Hb Hg)
      as (o & Hu & Hn & Hi & Hd & He).
    exists o. auto.
  - intros st apps more b o Hall Hb Hone.
    assert (Hall1 : Forall (fun a => a < length (objs st)) apps).
    { apply Forall_app in Hall. tauto. }
    assert (Hg : group st b apps <> []).
    { unfold merge in Hone.
      rewrite mergeByBundle_unfold in Hone. cbn [fst snd] in Hone.
      pose proof (inv_loop st apps [] st [] Hall1 (inv_init st)) as I.
      change ([] ++ apps) with apps in I. revert I Hone.
      destruct (foldl merge_step (st, []) apps) as [st1 m] eqn:E.
      intros I Hone.
      cbn [fst snd] in *.
      destruct (map_get b m) as [o'|] eqn:Hget;
        [exact (inv_present _ _ _ _ I b o' Hget)|].
      rewrite merged_for_none in Hone; [discriminate| |].
      - intros k o' Hin. rewrite sort_loop_objs. intros Hhit.
        apply String.eqb_eq in Hhit.
        destruct k as [b'|i].
        + destruct (inv_str _ _ _ _ I b' o' Hin) as (_ & Hk & _). congruence.
        + destruct (inv_sym _ _ _ _ I i o' Hin) as (Hin' & Hf).
          assert (o' < length (objs st)).
          { rewrite List.Forall_forall in Hall1. now apply Hall1. }
          rewrite (inv_objs _ _ _ _ I) in Hhit by assumption. congruence.
      - now apply map_get_None_keys. }
    destruct (mergeByBundle_group Date_parse st apps b Hall1 Hb Hg)
      as (o1 & Hu1 & Hf1).
    assert (Hg2 : group st b (apps ++ more) <> []).
    { unfold group in *. rewrite map_app, List.filter_app.
      intros H. apply app_eq_nil in H as [H _]. contradiction. }
    destruct (mergeByBundle_group Date_parse st (apps ++ more) b Hall Hb Hg2)
      as (o2 & Hu2 & Hf2).
    exists o2. split; [exact Hu2|].
    fold merge in Hu1, Hf1, Hf2. rewrite Hone in Hu1. injection Hu1 as <-.
    assert (Happ : group st b (apps ++ more)
                   = group st b apps ++ group st b more).
    { unfold group. now rewrite map_app, List.filter_app. }
    rewrite Happ in Hf2.
    destruct Hf1 as (Hn1 & Hi1 & Hd1 & He1).
    destruct Hf2 as (Hn2 & Hi2 & Hd2 & He2).
    intros field [ -> | [ -> | [ -> | -> ] ] ] Ht.
    + rewrite Hn2, map_app, first_nonempty_app; [congruence|].
      now rewrite <- Hn1.
    + rewrite Hi2, map_app, first_nonempty_app; [congruence|].
      now rewrite <- Hi1.
    + rewrite Hd2, map_app, first_nonempty_app; [congruence|].
      now rewrite <- Hd1.
    + rewrite He2, map_app, first_nonempty_app; [congruence|].
      now rewrite <- He1.
  - split; reflexivity.
Qed.

Lemma mergeByBundle_first_nonempty_wins_witness :
  let foo := mkApp (Some "com.x.y") "Foo" "" "" "" "a" None None in
  let bar := mkApp (Some " com.x.y ") "Bar" "icon.png" "" "" "b" None None in
  let other := mkApp None "Loose" "" "" "" "c" None None in
  let st := {| objs := [foo; other; bar]; arrs := [] |} in
  let merge := mergeByBundle Sample.Date_parse in
  (exists o,
     merged_for (merge st [0; 1; 2]).1 "com.x.y" (merge st [0; 1; 2]).2 = [o] /\
     name (objs (merge st [0; 1; 2]).1 !!! o) = "Foo" /\
     icon (objs (merge st [0; 1; 2]).1 !!! o) = "icon.png") /\
  (exists o',
     merged_for (merge st ([0] ++ [1; 2])).1 "com.x.y"
                (merge st ([0] ++ [1; 2])).2 = [o'] /\
     name (objs (merge st ([0] ++ [1; 2])).1 !!! o')
       = name (objs (merge st [0]).1 !!! 3)).
Proof.
  intros foo bar other st merge.
  destruct (mergeByBundle_first_nonempty_wins Sample.Date_parse)
    as (Hfirst & Hkeep & _).
  split.
  - destruct (Hfirst st [0; 1; 2] "com.x.y") as (o & Hu & Hn & Hi & _).
    + repeat constructor.
    + reflexivity.
    + discriminate.
    + exists o. auto.
  - destruct (Hkeep st [0] [1; 2] "com.x.y" 3) as (o' & Hu & Hf).
    + repeat constructor.
    + reflexivity.
    + reflexivity.
    + exists o'. split; [exact Hu|]. apply Hf; [now left | reflexivity].
Defined.

(** The store on the input's side: no app object of the input is changed,
    and an input array is changed only if an app without a bundle
    identifier holds it. *)
Lemma mergeByBundle_frame Date_parse st apps :
  Forall (fun a => a < length (objs st)) apps ->
  (forall o, o < length (objs st) ->
     objs (mergeByBundle Date_parse st apps).1 !!! o = objs st !!! o) /\
  (forall l, l < length (arrs st) ->
     (forall a, In a apps ->
        JsString.truthy (bundle_key (objs st !!! a)) = false ->
        versions (objs st !!! a) <> Some l) ->
     arrs (mergeByBundle Date_parse st apps).1 !!! l = arrs st !!! l).
Proof.
  intros Hall. rewrite mergeByBundle_unfold. cbn [fst snd].
  pose proof (inv_loop st apps [] st [] Hall (inv_init st)) as I.
  change ([] ++ apps) with apps in I. revert I.
  destruct (foldl merge_step (st, []) apps) as [st1 m] eqn:E. intros I.
  cbn [fst snd] in *. split.
  - intros o Ho. rewrite sort_loop_objs. now apply (inv_objs _ _ _ _ I).
  - intros l Hl Hfree. rewrite sort_loop_arrs; [now apply (inv_arrs _ _ _ _ I)|].
    intros o Ho. unfold map_values in Ho. apply in_map_iff in Ho as [[k o'] [Heq Hin]].
    simpl in Heq. subst o'. destruct k as [b|i].
    + destruct (inv_str _ _ _ _ I b o Hin) as (_ & _ & _ & _ & arr & -> & Hr).
      intros [= ->]. lia.
    + destruct (inv_sym _ _ _ _ I i o Hin) as (Hin' & Hf).
      assert (o < length (objs st)).
      { rewrite List.Forall_forall in Hall. now apply Hall. }
      rewrite (inv_objs _ _ _ _ I) by assumption. now apply Hfree.
Qed.

Section Comparator.
Variable Date_parse : string -> option Z.

Lemma versionCompare_both_valid x y tx ty :
  date_of Date_parse x = Some (Some tx) ->
  date_of Date_parse y = Some (Some ty) ->
  versionCompare Date_parse x y = Some (ty - tx)%Z.
Proof. intros Hx Hy. unfold versionCompare. now rewrite Hx, Hy. Qed.

Lemma versionCompare_one_dated x y d :
  date_of Date_parse x = Some d -> date_of Date_parse y = None ->
  versionCompare Date_parse x y = Some (-1)%Z /\
  versionCompare Date_parse y x = Some 1%Z.
Proof. intros Hx Hy. unfold versionCompare. now rewrite Hx, Hy. Qed.

Lemma versionCompare_undated x y :
  date_of Date_parse x = None -> date_of Date_parse y = None ->
  versionCompare Date_parse x y
    = Some (Utils.semverCompare (ver_version y) (ver_version x)).
Proof. intros Hx Hy. unfold versionCompare. now rewrite Hx, Hy. Qed.

(** A date that is there but does not parse makes the comparator return
    NaN against every dated record, and the sort then leaves the pair as it
    found it. *)
Lemma versionCompare_invalid x y s dy :
  ver_date x = Some s -> JsString.truthy s = true -> Date_parse s = None ->
  date_of Date_parse y = Some dy ->
  versionCompare Date_parse x y = None /\
  versionCompare Date_parse y x = None /\
  sortVersions Date_parse [x; y] = [x; y] /\
  sortVersions Date_parse [y; x] = [y; x].
Proof.
  intros Hs Ht Hp Hy.
  assert (Hx : date_of Date_parse x = Some None).
  { unfold date_of. rewrite Hs, Ht. unfold Utils.new_Date. now rewrite Hp. }
  assert (H1 : versionCompare Date_parse x y = None).
  { unfold versionCompare. rewrite Hx, Hy. now destruct dy. }
  assert (H2 : versionCompare Date_parse y x = None).
  { unfold versionCompare. rewrite Hx, Hy. now destruct dy. }
  repeat split; auto; unfold sortVersions; simpl; now rewrite ?H1, ?H2.
Qed.

End Comparator.

(** *** The version list of a merged app *)

Section PushUnseen.
Import VersionsSpec.

Lemma set_has_snoc seen x id :
  set_has (seen ++ [x]) id = set_has seen id || String.eqb id x.
Proof.
  unfold set_has. rewrite existsb_app. simpl. now rewrite orb_false_r.
Qed.

Lemma has_id_snoc id acc v :
  has_id id (acc ++ [v]) = has_id id acc || hit id v.
Proof.
  unfold has_id. rewrite existsb_app. simpl. now rewrite orb_false_r.
Qed.

Lemma set_has_ids id acc : set_has (map ver_id acc) id = has_id id acc.
Proof.
  unfold set_has, has_id, hit. induction acc as [|v acc IH]; simpl;
    [reflexivity|]. now rewrite IH, (String.eqb_sym id).
Qed.

Lemma with_id_none id vs : has_id id vs = false -> with_id id vs = [].
Proof.
  unfold has_id, with_id. induction vs as [|v vs IH]; simpl; [reflexivity|].
  destruct (hit id v); simpl; [discriminate | exact IH].
Qed.

Lemma first_seen_none id vs : has_id id vs = false -> first_seen id vs = None.
Proof.
  unfold has_id, first_seen. induction vs as [|v vs IH]; simpl; [reflexivity|].
  destruct (hit id v); simpl; [discriminate | exact IH].
Qed.

Lemma first_seen_app id vs ws :
  first_seen id (vs ++ ws) =
  match first_seen id vs with
  | Some v => Some v
  | None => first_seen id ws
  end.
Proof.
  unfold first_seen. induction vs as [|v vs IH]; simpl; [reflexivity|].
  now destruct (hit id v).
Qed.

Lemma has_id_first_seen id vs :
  has_id id vs = true -> exists v, first_seen id vs = Some v.
Proof.
  unfold has_id, first_seen. induction vs as [|v vs IH]; simpl; [discriminate|].
  destruct (hit id v); simpl; eauto.
Qed.

(** What [push_unseen] leaves under a key: the records the accumulator
    already had, or else the first record of the new list. *)
Lemma push_unseen_with_id id vs : forall acc seen,
  (forall i, set_has seen i = has_id i acc) ->
  with_id id (push_unseen acc seen vs) = kept id acc vs.
Proof.
  unfold kept.
  induction vs as [|v vs IH]; intros acc seen Hseen; simpl.
  - destruct (has_id id acc) eqn:E; [reflexivity | now apply with_id_none].
  - destruct (set_has seen (ver_id v)) eqn:Es.
    + rewrite (IH acc seen Hseen).
      destruct (has_id id acc) eqn:E; [reflexivity|].
      unfold first_seen. simpl. fold (first_seen id vs).
      destruct (hit id v) eqn:Eh; [|reflexivity].
      unfold hit in Eh. apply String.eqb_eq in Eh. subst id.
      rewrite Hseen in Es. congruence.
    + rewrite (IH (acc ++ [v]) (seen ++ [ver_id v])).
      2:{ intros i. rewrite set_has_snoc, has_id_snoc, Hseen.
          unfold hit. now rewrite (String.eqb_sym i). }
      rewrite has_id_snoc. unfold first_seen. simpl. fold (first_seen id vs).
      destruct (has_id id acc) eqn:E; simpl.
      * unfold with_id. rewrite List.filter_app. simpl.
        destruct (hit id v) eqn:Eh; [|now rewrite app_nil_r].
        unfold hit in Eh. apply String.eqb_eq in Eh. subst id.
        rewrite Hseen in Es. congruence.
      * destruct (hit id v) eqn:Eh; [|reflexivity].
        unfold with_id. rewrite List.filter_app. simpl. rewrite Eh.
        fold (with_id id acc). now rewrite (with_id_none id acc E).
Qed.

Lemma push_unseen_has_id id vs acc :
  has_id id (push_unseen acc (map ver_id acc) vs) = has_id id acc || has_id id vs.
Proof.
  pose proof (push_unseen_with_id id vs acc (map ver_id acc)
                (fun i => set_has_ids i acc)) as H.
  unfold kept in H.
  destruct (has_id id (push_unseen acc (map ver_id acc) vs)) eqn:E1.
  - destruct (has_id id acc) eqn:E2; [reflexivity|]. simpl.
    destruct (has_id id vs) eqn:E3; [reflexivity|].
    rewrite (first_seen_none id vs E3) in H.
    unfold has_id in E1. apply existsb_exists in E1 as [v [Hin Hv]].
    assert (In v (with_id id (push_unseen acc (map ver_id acc) vs)))
      by (apply filter_In; auto).
    rewrite H in *. contradiction.
  - rewrite (with_id_none _ _ E1) in H.
    destruct (has_id id acc) eqn:E2.
    + exfalso. unfold has_id in E2. apply existsb_exists in E2 as [v [Hin Hv]].
      assert (In v (with_id id acc)) by (apply filter_In; auto).
      rewrite <- H in *. contradiction.
    + simpl. destruct (has_id id vs) eqn:E3; [|reflexivity].
      destruct (has_id_first_seen id vs E3) as [v Hv]. rewrite Hv in H.
      discriminate.
Qed.

(** Over a whole group: the records of the first list if it has the key,
    else the first record with the key among the later lists. *)
Lemma merged_versions_with_id id rest : forall first,
  with_id id (merged_versions (first :: rest)) = kept id first (concat rest).
Proof.
  induction rest as [|vs rest IH]; intros first.
  - unfold kept. simpl.
    destruct (has_id id first) eqn:E; [reflexivity | now apply with_id_none].
  - change (merged_versions (first :: vs :: rest))
      with (merged_versions (push_unseen first (map ver_id first) vs :: rest)).
    rewrite IH. unfold kept. rewrite push_unseen_has_id.
    rewrite (push_unseen_with_id id vs first (map ver_id first)
               (fun i => set_has_ids i first)).
    unfold kept. simpl concat. rewrite first_seen_app.
    destruct (has_id id first) eqn:E1; simpl; [reflexivity|].
    destruct (has_id id vs) eqn:E2.
    + destruct (has_id_first_seen id vs E2) as [v ->]. reflexivity.
    + now rewrite (first_seen_none id vs E2).
Qed.

Lemma merged_versions_snoc g vs :
  g <> [] ->
  merged_versions (g ++ [vs]) =
  push_unseen (merged_versions g) (map ver_id (merged_versions g)) vs.
Proof.
  destruct g as [|first rest]; [congruence|]. intros _.
  simpl. now rewrite foldl_snoc.
Qed.

End PushUnseen.

Section ArraysInvariant.
Import VersionsSpec.
Variable st0 : store.

Lemma inv_arr_init : inv_arr st0 [] st0 [].
Proof. constructor; simpl; [discriminate | tauto]. Qed.

Lemma versions_or_empty_frame st obj :
  (forall l, l < length (arrs st0) -> arrs st !!! l = arrs st0 !!! l) ->
  (forall l, versions obj = Some l -> l < length (arrs st0)) ->
  versions_or_empty st obj = versions_or_empty st0 obj.
Proof.
  intros Hfr Hv. unfold versions_or_empty.
  destruct (versions obj) as [l|]; [|reflexivity]. apply Hfr. now apply Hv.
Qed.

Lemma group_versions_snoc b done a :
  group_versions st0 b (done ++ [a]) =
  group_versions st0 b done ++
  (if String.eqb (bundle_key (objs st0 !!! a)) b
   then [versions_or_empty st0 (objs st0 !!! a)] else []).
Proof.
  unfold group_versions. rewrite group_snoc, map_app.
  now destruct (String.eqb (bundle_key (objs st0 !!! a)) b).
Qed.

Lemma inv_arr_step done st m a :
  valid_app st0 a -> inv st0 done st m -> inv_arr st0 done st m ->
  inv_arr st0 (done ++ [a]) (merge_step (st, m) a).1 (merge_step (st, m) a).2.
Proof.
  intros [Ha Hva] I J. pose proof (inv_objs _ _ _ _ I a Ha) as Hobj.
  unfold merge_step. cbv beta iota zeta. rewrite Hobj.
  set (obj := objs st0 !!! a) in *.
  destruct (JsString.truthy (bundle_key obj)) eqn:Hb; simpl.
  2:{ destruct J. constructor; simpl.
      - intros b o arr. rewrite map_get_app_sym, group_versions_snoc.
        intros Hg Hv. fold obj.
        destruct (String.eqb_spec (bundle_key obj) b) as [<-|Hne].
        + apply map_get_In in Hg.
          destruct (inv_str _ _ _ _ I _ _ Hg) as (_ & _ & Ht & _). congruence.
        + rewrite app_nil_r. now apply (ia_versions0 b o arr).
      - intros b1 o1 b2 o2 arr H1 H2.
        apply in_app_or in H1 as [H1|[[=]|[]]].
        apply in_app_or in H2 as [H2|[[=]|[]]].
        now apply (ia_inj0 b1 o1 b2 o2 arr). }
  destruct (map_get (bundle_key obj) m) as [o|] eqn:Hget; simpl.
  - pose proof (inv_str _ _ _ _ I _ _ (map_get_In _ _ _ Hget))
      as (Ho & Hkey & _ & _ & arr & Harr & Harrb).
    rewrite Harr.
    assert (Hvers : forall o',
              versions (<[o:=merge_fields (objs st !!! o) obj]> (objs st) !!! o')
              = versions (objs st !!! o')).
    { intros o'. destruct (decide (o = o')) as [<-|Hne].
      - rewrite list_lookup_total_insert_eq by lia. reflexivity.
      - now rewrite list_lookup_total_insert_ne. }
    destruct J. constructor; simpl.
    + intros b o' arr'. rewrite Hvers, group_versions_snoc. fold obj.
      intros Hg Hv.
      destruct (String.eqb_spec (bundle_key obj) b) as [<-|Hne].
      * assert (o' = o) as -> by congruence.
        assert (arr' = arr) as -> by congruence.
        rewrite list_lookup_total_insert_eq by lia.
        rewrite merged_versions_snoc.
        2:{ unfold group_versions. intros H. apply map_eq_nil in H.
            now apply (inv_present _ _ _ _ I _ _ Hget). }
        rewrite <- (ia_versions0 _ _ _ Hget Harr).
        f_equal. apply versions_or_empty_frame; [|exact Hva].
        exact (inv_arrs _ _ _ _ I).
      * rewrite app_nil_r.
        assert (arr <> arr').
        { intros <-. apply Hne.
          pose proof (ia_inj0 _ _ _ _ _ (map_get_In _ _ _ Hget)
                        (map_get_In _ _ _ Hg) Harr Hv) as <-.
          destruct (inv_str _ _ _ _ I _ _ (map_get_In _ _ _ Hg))
            as (_ & Hk & _). congruence. }
        rewrite list_lookup_total_insert_ne by assumption.
        now apply (ia_versions0 b o' arr').
    + intros b1 o1 b2 o2 arr'. rewrite !Hvers. apply ia_inj0.
  - destruct J. constructor; simpl.
    + intros b o arr. rewrite map_get_app_str, group_versions_snoc. fold obj.
      destruct (map_get b m) as [o'|] eqn:Hg.
      * intros [= <-].
        destruct (inv_str _ _ _ _ I _ _ (map_get_In _ _ _ Hg))
          as (Hr & _ & _ & _ & arr' & Harr' & Hab).
        rewrite lookup_total_app_l by lia. rewrite Harr'. intros [= <-].
        rewrite lookup_total_app_l by lia.
        destruct (String.eqb_spec (bundle_key obj) b) as [<-|Hne];
          [congruence|]. rewrite app_nil_r. now apply (ia_versions0 b o' arr').
      * destruct (String.eqb_spec b (bundle_key obj)) as [->|Hne];
          [|discriminate].
        intros [= <-]. rewrite list_lookup_total_middle by reflexivity.
        simpl. intros [= <-].
        rewrite list_lookup_total_middle by reflexivity.
        rewrite String.eqb_refl.
        unfold group_versions. rewrite (inv_absent _ _ _ _ I _ Hb Hg). simpl.
        apply versions_or_empty_frame; [|exact Hva].
        exact (inv_arrs _ _ _ _ I).
    + assert (Hold : forall b o arr, In (KStr b, o) m ->
                versions ((objs st ++ [with_versions obj (Some (length (arrs st)))])
                          !!! o) = Some arr ->
                versions (objs st !!! o) = Some arr /\ arr < length (arrs st)).
      { intros b o arr Hin.
        destruct (inv_str _ _ _ _ I _ _ Hin)
          as (Hr & _ & _ & _ & arr' & Harr' & Hab).
        rewrite lookup_total_app_l by lia. rewrite Harr'.
        intros [= <-]. split; [reflexivity | lia]. }
      assert (Hnew : forall arr,
                versions ((objs st ++ [with_versions obj (Some (length (arrs st)))])
                          !!! length (objs st)) = Some arr ->
                arr = length (arrs st)).
      { intros arr. rewrite list_lookup_total_middle by reflexivity.
        simpl. congruence. }
      intros b1 o1 b2 o2 arr H1 H2 V1 V2.
      apply in_app_or in H1 as [H1|[[= <- <-]|[]]];
        apply in_app_or in H2 as [H2|[[= <- <-]|[]]].
      * destruct (Hold _ _ _ H1 V1), (Hold _ _ _ H2 V2).
        now apply (ia_inj0 b1 o1 b2 o2 arr).
      * destruct (Hold _ _ _ H1 V1). apply Hnew in V2. lia.
      * destruct (Hold _ _ _ H2 V2). apply Hnew in V1. lia.
      * reflexivity.
Qed.

Lemma inv_arr_loop apps : forall done st m,
  Forall (valid_app st0) apps -> inv st0 done st m -> inv_arr st0 done st m ->
  inv_arr st0 (done ++ apps) (foldl merge_step (st, m) apps).1
                         (foldl merge_step (st, m) apps).2.
Proof.
  induction apps as [|a apps IH]; intros done st m Hall I J.
  - simpl. now rewrite app_nil_r.
  - inversion Hall as [|? ? Ha Hall']; subst.
    pose proof (inv_step st0 done st m a (proj1 Ha) I) as I'.
    pose proof (inv_arr_step done st m a Ha I J) as J'.
    change (foldl merge_step (st, m) (a :: apps))
      with (foldl merge_step (merge_step (st, m) a) apps).
    destruct (merge_step (st, m) a) as [st' m'] eqn:E. simpl in I', J'.
    replace (done ++ a :: apps) with ((done ++ [a]) ++ apps)
      by now rewrite <- app_assoc.
    now apply IH.
Qed.

End ArraysInvariant.

Section MergedVersions.
Import VersionsSpec.
Variable Date_parse : string -> option Z.

Lemma sort_step_length st o :
  length (arrs (sort_step Date_parse st o)) = length (arrs st).
Proof.
  unfold sort_step. destruct (versions (objs st !!! o)); [|reflexivity].
  simpl. apply length_insert.
Qed.

Lemma sort_loop_length os : forall st,
  length (arrs (foldl (sort_step Date_parse) st os)) = length (arrs st).
Proof.
  induction os as [|o os IH]; intros st; simpl; [reflexivity|].
  now rewrite IH, sort_step_length.
Qed.

(** An array held by exactly one of the returned objects is sorted once. *)
Lemma sort_loop_once os1 o os2 arr st :
  versions (objs st !!! o) = Some arr -> arr < length (arrs st) ->
  (forall o', In o' (os1 ++ os2) -> versions (objs st !!! o') <> Some arr) ->
  arrs (foldl (sort_step Date_parse) st (os1 ++ o :: os2)) !!! arr
  = sortVersions Date_parse (arrs st !!! arr).
Proof.
  intros Hv Hlt Hfree. rewrite foldl_app. simpl.
  rewrite sort_loop_arrs.
  2:{ intros o' Ho'. rewrite sort_step_objs, sort_loop_objs.
      apply Hfree, in_or_app. now right. }
  unfold sort_step at 1. rewrite sort_loop_objs, Hv. simpl.
  rewrite list_lookup_total_insert_eq by now rewrite sort_loop_length.
  f_equal. apply sort_loop_arrs.
  intros o' Ho'. apply Hfree, in_or_app. now left.
Qed.

Lemma entry_split (m : bundle_map) b o :
  List.NoDup (str_keys m) -> In (KStr b, o) m ->
  exists m1 m2, m = m1 ++ (KStr b, o) :: m2 /\
                ~ In b (str_keys m1) /\ ~ In b (str_keys m2).
Proof.
  intros Hnd Hin. destruct (in_split _ _ Hin) as (m1 & m2 & ->).
  exists m1, m2. split; [reflexivity|].
  rewrite str_keys_app in Hnd. simpl in Hnd.
  apply NoDup_remove_2 in Hnd. split; intros H; apply Hnd, in_or_app; auto.
Qed.

Lemma filter_perm {A : Type} (f : A -> bool) (l l' : list A) :
  Permutation l l' -> Permutation (List.filter f l) (List.filter f l').
Proof.
  induction 1 as [|x l l' _ IH|x y l|l l' l'' _ IH1 _ IH2]; simpl.
  - reflexivity.
  - destruct (f x); [now constructor | exact IH].
  - destruct (f x), (f y); try reflexivity. apply perm_swap.
  - now rewrite IH1.
Qed.

(** The version list of the merged app of a bundle: the fold of the group's
    lists, sorted. *)
Lemma mergeByBundle_versions st apps b :
  Forall (valid_app st) apps ->
  JsString.truthy b = true -> group st b apps <> [] ->
  exists o,
    merged_for (mergeByBundle Date_parse st apps).1 b
               (mergeByBundle Date_parse st apps).2 = [o] /\
    versions (read_app (mergeByBundle Date_parse st apps).1 o)
    = Some (sortVersions Date_parse
              (merged_versions (group_versions st b apps))).
Proof.
  intros Hval Hb Hg.
  assert (Hall : Forall (fun a => a < length (objs st)) apps).
  { eapply Forall_impl; [exact Hval|]. now intros a [H _]. }
  destruct (mergeByBundle_group Date_parse st apps b Hall Hb Hg)
    as (o & Hu & _).
  exists o. split; [exact Hu|]. revert Hu.
  rewrite mergeByBundle_unfold. cbn [fst snd].
  pose proof (inv_loop st apps [] st [] Hall (inv_init st)) as I.
  pose proof (inv_arr_loop st apps [] st [] Hval (inv_init st)
                (inv_arr_init st)) as J.
  change ([] ++ apps) with apps in I, J. revert I J.
  destruct (foldl merge_step (st, []) apps) as [st1 m] eqn:E. intros I J Hu.
  cbn [fst snd] in *.
  destruct (map_get b m) as [o1|] eqn:Hget.
  2:{ exfalso. apply Hg. now apply (inv_absent _ _ _ _ I). }
  pose proof (map_get_In _ _ _ Hget) as Hin.
  destruct (inv_str _ _ _ _ I _ _ Hin)
    as (Hr & Hk & _ & _ & arr & Harr & Harrb).
  assert (o = o1) as ->.
  { assert (In o1 (merged_for
                     (foldl (sort_step Date_parse) st1 (map_values m)) b
                     (map_values m))).
    { unfold merged_for. apply filter_In. split.
      - unfold map_values. apply in_map_iff. now exists (KStr b, o1).
      - rewrite sort_loop_objs, Hk. apply String.eqb_refl. }
    rewrite Hu in H. destruct H as [<-|[]]. reflexivity. }
  unfold read_app. rewrite sort_loop_objs, Harr. simpl. f_equal.
  destruct (entry_split m b o1 (inv_nodup _ _ _ _ I) Hin)
    as (m1 & m2 & -> & Hn1 & Hn2).
  unfold map_values. rewrite map_app. simpl.
  rewrite (sort_loop_once _ _ _ arr st1 Harr); [|lia|].
  - f_equal. now apply (ia_versions _ _ _ _ J b o1 arr).
  - intros o' Ho' Hv'. rewrite <- map_app in Ho'.
    apply in_map_iff in Ho' as [[k o''] [Heq Hin']]. simpl in Heq. subst o''.
    assert (Hin'' : In (k, o') (m1 ++ (KStr b, o1) :: m2)).
    { apply in_app_or in Hin' as [H|H]; apply in_or_app; [left|right; right];
        exact H. }
    destruct k as [b'|i].
    + pose proof (ia_inj _ _ _ _ J _ _ _ _ _ Hin'' Hin Hv' Harr) as ->.
      destruct (inv_str _ _ _ _ I _ _ Hin'') as (_ & Hk' & _).
      assert (b' = b) as -> by congruence.
      apply in_app_or in Hin' as [H|H];
        [apply Hn1 | apply Hn2]; apply str_keys_In; eauto.
    + destruct (inv_sym _ _ _ _ I _ _ Hin'') as (Hd & _).
      rewrite List.Forall_forall in Hval. destruct (Hval o' Hd) as [Ho Hva].
      rewrite (inv_objs _ _ _ _ I) in Hv' by assumption.
      apply Hva in Hv'. lia.
Qed.

(** Under one key the merged list holds the records the first app of the
    group has under it or, when it has none, the first record any later
    app has: one record per key unless the first app repeats it. *)
Lemma mergeByBundle_with_id st apps b id first rest :
  Forall (valid_app st) apps ->
  JsString.truthy b = true ->
  group_versions st b apps = first :: rest ->
  exists o vs,
    merged_for (mergeByBundle Date_parse st apps).1 b
               (mergeByBundle Date_parse st apps).2 = [o] /\
    versions (read_app (mergeByBundle Date_parse st apps).1 o) = Some vs /\
    Permutation (with_id id vs) (kept id first (concat rest)).
Proof.
  intros Hval Hb Hgv.
  assert (Hg : group st b apps <> []).
  { intros H. unfold group_versions in Hgv. rewrite H in Hgv. discriminate. }
  destruct (mergeByBundle_versions st apps b Hval Hb Hg) as (o & Hu & Hv).
  exists o, (sortVersions Date_parse (merged_versions (group_versions st b apps))).
  split; [exact Hu|]. split; [exact Hv|].
  rewrite Hgv, <- merged_versions_with_id.
  apply filter_perm, SortFacts.sort_perm.
Qed.

End MergedVersions.

(** *** The comparator on a date that is present but does not parse *)

(** [C2] Of two records exactly one has a date that parses.  The comparator
    of [mergeByBundle] takes any non-empty date for a date, subtracts, and
    returns NaN: the sort leaves the record with the unparseable date in
    front.  The comparator of the detail page has no rule for a lone date:
    it compares the version strings, and the undated record goes first. *)
Theorem versionCompare_parseable_not_first :
  Utils.parseDateString Sample.Date_parse (date_value (ver_date garbled))
    = None /\
  Utils.parseDateString Sample.Date_parse (date_value (ver_date dated))
    = Some 1672531200000%Z /\
  versionCompare Sample.Date_parse garbled dated = None /\
  versionCompare Sample.Date_parse dated garbled = None /\
  sortVersions Sample.Date_parse [garbled; dated] = [garbled; dated] /\
  (let st := {| objs := [mkApp (Some "com.x.y") "X" "" "" "" "s" None (Some 0)];
                arrs := [[garbled; dated]] |} in
   let res := mergeByBundle Sample.Date_parse st [0] in
   map (read_app res.1) res.2
     = [mkApp (Some "com.x.y") "X" "" "" "" "s" None
              (Some [garbled; dated])]) /\
  Utils.parseDateString Sample.Date_parse (date_value (ver_date undated_newer))
    = None /\
  Detail.compareRecords Sample.Date_parse dated undated_newer = 1%Z /\
  Detail.sortRecords Sample.Date_parse [dated; undated_newer]
    = [undated_newer; dated].
Proof. repeat split. Qed.

(** *** Duplicates inside the first app of a group *)

(** [C3] Two entries for [com.x.y] overlap on the pair
    (["1.0.0"], ["https://x/1.ipa"]), and the first of them lists the pair
    twice.  The merge returns one app for the bundle, and its version list
    holds the pair twice: the first app's own list is copied as it is. *)
Theorem mergeByBundle_keeps_first_app_duplicates :
  let st := {| objs := [mkApp (Some "com.x.y") "X" "" "" "" "s1" None (Some 0);
                        mkApp (Some "com.x.y") "X" "" "" "" "s2" None (Some 1)];
               arrs := [[v100; v100]; [v100]] |} in
  let res := mergeByBundle Sample.Date_parse st [0; 1] in
  merged_for res.1 "com.x.y" res.2 = [2] /\
  length res.2 = 1 /\
  versions (read_app res.1 2) = Some [v100; v100] /\
  length (List.filter (fun v => String.eqb (ver_id v) (ver_id v100))
                      (default [] (versions (read_app res.1 2)))) = 2.
Proof. repeat split. Qed.

(** *** An app without a bundle identifier *)

(** [C10] An app without a bundle identifier, its versions oldest first.
    The merge returns the very object (its reference, not a copy) and the
    second loop sorts its array in place: after the call the input's
    [versions] array is reordered. *)
Theorem mergeByBundle_sorts_unbundled_input_in_place :
  let st := {| objs := [mkApp None "Loose" "" "" "" "s" None (Some 0)];
               arrs := [[v1; v2]] |} in
  let res := mergeByBundle Sample.Date_parse st [0] in
  versionCompare Sample.Date_parse v1 v2 = Some 1%Z /\
  versionCompare Sample.Date_parse v2 v1 = Some (-1)%Z /\
  res.2 = [0] /\
  read_versions st (versions (objs st !!! 0)) = Some [v1; v2] /\
  read_versions res.1 (versions (objs st !!! 0)) = Some [v2; v1] /\
  arrs res.1 !!! 0 <> arrs st !!! 0 /\
  (let st' := {| objs := [mkApp (Some "") "Loose" "" "" "" "s" None (Some 0)];
                 arrs := [[v1; v2]] |} in
   (mergeByBundle Sample.Date_parse st' [0]).2 = [0] /\
   arrs (mergeByBundle Sample.Date_parse st' [0]).1 = [[v2; v1]]).
Proof. repeat split. discriminate. Qed.

End MergeFacts.

(** ** Facts about [searchApps] *)

Module SearchFacts.
Import Catalog Search.
Local Open Scope list_scope.

Lemma searchApps_query Fuse_search allApps fuse_search q appsToSearch limit :
  JsString.truthy (JsString.trim q) = true ->
  searchApps Fuse_search allApps fuse_search q appsToSearch limit =
  map fst
    (take limit
       (JsArray.sort (fun a b => positive (by_rel a b))
          (map (score_one (JsString.toLowerCase (JsString.trim q)))
               match appsToSearch with
               | Some docs => Fuse_search docs (JsString.trim q) (limit * 2)
               | None => fuse_search (JsString.trim q) (limit * 2)
               end))).
Proof. intros Hq. unfold searchApps. now rewrite Hq. Qed.

End SearchFacts.

(** ** More about [semverCompare]: the order it defines *)

Module SemverOrder.
Import Utils UtilsFacts.
Local Open Scope list_scope.

Lemma ascii_compare_trans a b c :
  Ascii.compare a b = Lt -> Ascii.compare b c = Lt -> Ascii.compare a c = Lt.
Proof.
  unfold Ascii.compare. rewrite !N.compare_lt_iff. lia.
Qed.

Lemma ascii_compare_eq a b : Ascii.compare a b = Eq -> a = b.
Proof.
  unfold Ascii.compare. intros H. apply N.compare_eq in H.
  rewrite <- (ascii_N_embedding a), <- (ascii_N_embedding b). now rewrite H.
Qed.

Lemma string_compare_trans a : forall b c,
  String.compare a b = Lt -> String.compare b c = Lt -> String.compare a c = Lt.
Proof.
  induction a as [|x a IH]; intros [|y b] [|z c]; simpl; try congruence.
  destruct (Ascii.compare x y) eqn:Exy; try discriminate;
    destruct (Ascii.compare y z) eqn:Eyz; try discriminate; intros H1 H2.
  - apply ascii_compare_eq in Exy, Eyz. subst.
    assert (Ascii.compare z z = Eq) as ->
      by (unfold Ascii.compare; apply N.compare_refl).
    now apply (IH b c).
  - apply ascii_compare_eq in Exy. subst. now rewrite Eyz.
  - apply ascii_compare_eq in Eyz. subst. now rewrite Exy.
  - now rewrite (ascii_compare_trans x y z Exy Eyz).
Qed.

Lemma str_ltb_trans a b c :
  JsString.ltb a b = true -> JsString.ltb b c = true -> JsString.ltb a c = true.
Proof.
  unfold JsString.ltb, String.ltb.
  destruct (String.compare a b) eqn:E1; try discriminate.
  destruct (String.compare b c) eqn:E2; try discriminate.
  now rewrite (string_compare_trans a b c E1 E2).
Qed.

Lemma str_ltb_total a b :
  JsString.ltb a b = false -> JsString.ltb b a = false -> a = b.
Proof.
  unfold JsString.ltb, String.ltb. rewrite (String.compare_antisym b a).
  destruct (String.compare a b) eqn:E; simpl; try discriminate.
  intros _ _. now apply String.compare_eq_iff.
Qed.

Lemma num_ltb_trans a b c :
  JsNumber.ltb a b = true -> JsNumber.ltb b c = true -> JsNumber.ltb a c = true.
Proof.
  destruct a, b, c; simpl; try congruence.
  rewrite !N.ltb_lt. lia.
Qed.

Lemma num_ltb_total a b :
  JsNumber.ltb a b = false -> JsNumber.ltb b a = false -> a = b.
Proof.
  destruct a, b; simpl; try congruence.
  rewrite !N.ltb_ge. intros. f_equal. lia.
Qed.

(** One loop turn goes on to the next index exactly on equal segments. *)
Lemma compare_at_none_iff x y : compare_at x y = None <-> x = y.
Proof.
  split; [|intros ->; apply compare_at_refl].
  destruct x as [a|a], y as [b|b]; simpl; try discriminate.
  - destruct (JsNumber.ltb a b) eqn:E1; [discriminate|].
    destruct (JsNumber.ltb b a) eqn:E2; [discriminate|].
    intros _. f_equal. now apply num_ltb_total.
  - destruct (JsString.ltb a b) eqn:E1; [discriminate|].
    destruct (JsString.ltb b a) eqn:E2; [discriminate|].
    intros _. f_equal. now apply str_ltb_total.
Qed.

Lemma compare_at_values x y :
  compare_at x y = None \/ compare_at x y = Some (-1)%Z \/
  compare_at x y = Some 1%Z.
Proof.
  destruct x as [a|a], y as [b|b]; simpl; auto.
  - destruct (JsNumber.ltb a b); auto. destruct (JsNumber.ltb b a); auto.
  - destruct (JsString.ltb a b); auto. destruct (JsString.ltb b a); auto.
Qed.

Lemma compare_at_trans x y z :
  compare_at x y = Some (-1)%Z -> compare_at y z = Some (-1)%Z ->
  compare_at x z = Some (-1)%Z.
Proof.
  destruct x as [a|a], y as [b|b], z as [c|c]; simpl; intros H1 H2;
    try discriminate; try reflexivity.
  - destruct (JsNumber.ltb a b) eqn:E1.
    2:{ destruct (JsNumber.ltb b a); discriminate. }
    destruct (JsNumber.ltb b c) eqn:E2.
    2:{ destruct (JsNumber.ltb c b); discriminate. }
    now rewrite (num_ltb_trans a b c E1 E2).
  - destruct (JsString.ltb a b) eqn:E1.
    2:{ destruct (JsString.ltb b a); discriminate. }
    destruct (JsString.ltb b c) eqn:E2.
    2:{ destruct (JsString.ltb c b); discriminate. }
    now rewrite (str_ltb_trans a b c E1 E2).
Qed.

(** The segment-wise comparison, one turn at a time. *)
Lemma compare_segments_cons x A y B :
  compare_segments (x :: A) (y :: B) =
  match compare_at x y with
  | Some r => r
  | None => compare_segments A B
  end.
Proof.
  destruct x as [a|a], y as [b|b]; simpl; try reflexivity.
  - destruct (JsNumber.ltb a b); [reflexivity|].
    now destruct (JsNumber.ltb b a).
  - destruct (JsString.ltb a b); [reflexivity|].
    now destruct (JsString.ltb b a).
Qed.

Lemma compare_segments_values A : forall B,
  compare_segments A B = (-1)%Z \/ compare_segments A B = 0%Z \/
  compare_segments A B = 1%Z.
Proof.
  induction A as [|x A IH]; intros [|y B]; try (simpl; auto; fail).
  rewrite compare_segments_cons.
  destruct (compare_at_values x y) as [->|[->| ->]]; auto.
Qed.

Lemma compare_segments_zero A : forall B,
  compare_segments A B = 0%Z <-> A = B.
Proof.
  induction A as [|x A IH]; intros [|y B].
  - simpl. tauto.
  - simpl. split; [discriminate | congruence].
  - simpl. split; [discriminate | congruence].
  - rewrite compare_segments_cons.
    destruct (compare_at x y) as [r|] eqn:E.
    + split.
      * intros ->. destruct (compare_at_values x y) as [H|[H|H]];
          rewrite H in E; discriminate.
      * intros [= -> ->]. rewrite compare_at_refl in E. discriminate.
    + apply compare_at_none_iff in E as ->. rewrite IH.
      split; [intros ->; reflexivity | now intros [= ->]].
Qed.

Lemma compare_segments_trans A : forall B C,
  compare_segments A B = (-1)%Z -> compare_segments B C = (-1)%Z ->
  compare_segments A C = (-1)%Z.
Proof.
  induction A as [|x A IH]; intros [|y B] [|z C];
    try (simpl; congruence); try (simpl; discriminate).
  rewrite !compare_segments_cons.
  destruct (compare_at x y) as [r1|] eqn:E1;
    destruct (compare_at y z) as [r2|] eqn:E2.
  - intros -> ->. now rewrite (compare_at_trans x y z E1 E2).
  - apply compare_at_none_iff in E2 as ->. intros -> _. now rewrite E1.
  - apply compare_at_none_iff in E1 as ->. intros _ ->. now rewrite E2.
  - apply compare_at_none_iff in E1 as ->.
    apply compare_at_none_iff in E2 as ->.
    rewrite compare_at_refl. apply IH.
Qed.

(** [X1] [semverCompare] returns -1, 0 or 1, and it returns 0 exactly when
    the two strings have the same list of coerced segments, which strings
    that differ can have (["1.0"] and ["1.00"], ["1.0"] and ["1+0"]). *)
Theorem semverCompare_zero_iff_same_segments :
  forall a b : string,
    (semverCompare a b = (-1)%Z \/ semverCompare a b = 0%Z \/
     semverCompare a b = 1%Z) /\
    (semverCompare a b = 0%Z <-> seg a = seg b).
Proof.
  intros a b. rewrite semverCompare_structural. split.
  - apply compare_segments_values.
  - apply compare_segments_zero.
Qed.

Lemma semverCompare_zero_iff_same_segments_witness :
  semverCompare "1.0" "1.00" = 0%Z /\ semverCompare "1..2" "1.0.2" = 0%Z.
Proof.
  split.
  - apply (proj2 (semverCompare_zero_iff_same_segments "1.0" "1.00")).
    reflexivity.
  - apply (proj2 (semverCompare_zero_iff_same_segments "1..2" "1.0.2")).
    reflexivity.
Defined.

Lemma semverCompare_values a b :
  semverCompare a b = (-1)%Z \/ semverCompare a b = 0%Z \/
  semverCompare a b = 1%Z.
Proof. rewrite semverCompare_structural. apply compare_segments_values. Qed.

Lemma semverCompare_order a b c :
  (semverCompare a b <= 0)%Z -> (semverCompare b c <= 0)%Z ->
  (semverCompare a c <= 0)%Z /\
  ((semverCompare a b < 0)%Z \/ (semverCompare b c < 0)%Z ->
   (semverCompare a c < 0)%Z).
Proof.
  rewrite !semverCompare_structural.
  destruct (compare_segments_values (seg a) (seg b)) as [Hab|[Hab|Hab]];
    destruct (compare_segments_values (seg b) (seg c)) as [Hbc|[Hbc|Hbc]];
    rewrite ?Hab, ?Hbc; try lia; intros _ _.
  - rewrite (compare_segments_trans _ _ _ Hab Hbc). lia.
  - apply compare_segments_zero in Hbc. rewrite <- Hbc, Hab. lia.
  - apply compare_segments_zero in Hab. rewrite Hab, Hbc. lia.
  - apply compare_segments_zero in Hab, Hbc. rewrite Hab, Hbc.
    assert (compare_segments (seg c) (seg c) = 0%Z) as ->
      by now apply compare_segments_zero.
    lia.
Qed.

(** [X2] [semverCompare] orders version strings consistently: "lower than"
    is transitive, also through strings that compare equal, so a sort that
    uses it has a well-defined result. *)
Theorem semverCompare_transitive :
  forall a b c : string,
    (semverCompare a b <= 0)%Z -> (semverCompare b c <= 0)%Z ->
    (semverCompare a c <= 0)%Z /\
    ((semverCompare a b < 0)%Z \/ (semverCompare b c < 0)%Z ->
     (semverCompare a c < 0)%Z).
Proof. exact semverCompare_order. Qed.

Lemma semverCompare_transitive_witness :
  (semverCompare "1.2" "1.10" < 0)%Z /\ (semverCompare "1.2" "1.10.0" < 0)%Z.
Proof.
  split; [reflexivity|].
  apply (semverCompare_transitive "1.2" "1.10" "1.10.0");
    [discriminate | discriminate | left; reflexivity].
Defined.

Lemma split_app_sep p a c r :
  p c = true ->
  JsString.split p (a ++ String c r)%string
  = (JsString.split p a ++ JsString.split p r)%list.
Proof.
  intros Hc. induction a as [|x a IH]; simpl.
  - now rewrite Hc.
  - destruct (p x); [now rewrite IH|].
    rewrite IH. pose proof (split_nonempty p a).
    destruct (JsString.split p a); [congruence | reflexivity].
Qed.

(** [X3] A version string extended by a separator and anything after it
    compares greater than the string itself: ["1.0.0-beta"] and
    ["1.0.0+build"] both rank above ["1.0.0"]. *)
Theorem semverCompare_suffix_greater :
  forall (a : string) (c : ascii) (r : string),
    is_sep c = true ->
    semverCompare a (a ++ String c r)%string = (-1)%Z /\
    semverCompare (a ++ String c r)%string a = 1%Z.
Proof.
  intros a c r Hc.
  assert (H : semverCompare a (a ++ String c r)%string = (-1)%Z).
  { rewrite semverCompare_structural. unfold seg.
    rewrite (split_app_sep is_sep a c r Hc), map_app.
    pose proof (split_nonempty is_sep r).
    destruct (JsString.split is_sep r) as [|h t]; [congruence|].
    apply compare_segments_prefix. }
  split; [exact H|].
  rewrite semverCompare_swap, H. reflexivity.
Qed.

Lemma semverCompare_suffix_greater_witness :
  semverCompare "1.0.0" "1.0.0-beta" = (-1)%Z /\
  semverCompare "1.0.0-beta" "1.0.0" = 1%Z.
Proof.
  apply (semverCompare_suffix_greater "1.0.0" "-" "beta"). reflexivity.
Defined.

End SemverOrder.

(** ** White space around a date string *)

Module TrimFacts.
Import JsString.

Lemma trimEnd_cons c s :
  is_ws c = false -> trimEnd (String c s) = String c (trimEnd s).
Proof. intros H. simpl. rewrite H. now destruct (trimEnd s). Qed.

Lemma trimEnd_idem s : trimEnd (trimEnd s) = trimEnd s.
Proof.
  induction s as [|c s IH]; [reflexivity|].
  simpl. destruct (trimEnd s) as [|d t] eqn:E.
  - destruct (is_ws c) eqn:Ec; [reflexivity|]. simpl. now rewrite Ec.
  - change (trimEnd (String c (String d t))) with
      (match trimEnd (String d t) with
       | EmptyString => if is_ws c then EmptyString else String c EmptyString
       | u => String c u
       end).
    now rewrite IH.
Qed.

Lemma trimStart_head s :
  trimStart s = EmptyString \/
  exists c r, trimStart s = String c r /\ is_ws c = false.
Proof.
  induction s as [|c s IH]; simpl; [now left|].
  destruct (is_ws c) eqn:E; [exact IH|]. right. now exists c, s.
Qed.

Lemma trim_idem s : trim (trim s) = trim s.
Proof.
  unfold trim. destruct (trimStart_head s) as [-> | (c & r & -> & Hc)].
  - reflexivity.
  - rewrite (trimEnd_cons c r Hc). simpl. rewrite Hc.
    rewrite <- (trimEnd_cons c r Hc). apply trimEnd_idem.
Qed.

(** No character of [s] is outside the white space. *)
Local Abbreviation blank s := (Utils.has_char (fun c => negb (is_ws c)) s = false).

Lemma trimStart_blank s : blank s -> trimStart s = EmptyString.
Proof.
  induction s as [|c s IH]; simpl; [reflexivity|].
  intros H. apply orb_false_elim in H as [Hc Hs].
  apply negb_false_iff in Hc. rewrite Hc. now apply IH.
Qed.

Lemma trimEnd_blank s : blank s -> trimEnd s = EmptyString.
Proof.
  induction s as [|c s IH]; simpl; [reflexivity|].
  intros H. apply orb_false_elim in H as [Hc Hs].
  apply negb_false_iff in Hc. rewrite (IH Hs). now rewrite Hc.
Qed.

Lemma trimStart_app_blank pre s :
  blank pre -> trimStart (pre ++ s) = trimStart s.
Proof.
  induction pre as [|c pre IH]; simpl; [reflexivity|].
  intros H. apply orb_false_elim in H as [Hc Hs].
  apply negb_false_iff in Hc. rewrite Hc. now apply IH.
Qed.

Lemma trimEnd_app_blank s post :
  blank post -> trimEnd (s ++ post) = trimEnd s.
Proof.
  intros H. induction s as [|c s IH]; simpl.
  - now apply trimEnd_blank.
  - now rewrite IH.
Qed.

Lemma trim_app_blank pre s post :
  blank pre -> blank post -> trim (pre ++ s ++ post) = trim s.
Proof.
  intros Hpre Hpost. unfold trim. rewrite (trimStart_app_blank pre _ Hpre).
  induction s as [|c s IH]; simpl.
  - rewrite (trimStart_blank post Hpost). reflexivity.
  - destruct (is_ws c) eqn:Ec; [exact IH|].
    change (String c (s ++ post)) with (String c s ++ post).
    now apply trimEnd_app_blank.
Qed.

(** [X4] [parseDateString] reads its argument up to the white space around
    it: the trimmed string gives the same result, and so does the string
    with any white space put before and after it, whatever [Date.parse]
    accepts. *)
Theorem parseDateString_ignores_outer_space :
  forall (Date_parse : string -> option Z) (s : string),
    Utils.parseDateString Date_parse (Js.VStr (trim s))
      = Utils.parseDateString Date_parse (Js.VStr s) /\
    forall pre post : string,
      Utils.has_char (fun c => negb (is_ws c)) pre = false ->
      Utils.has_char (fun c => negb (is_ws c)) post = false ->
      Utils.parseDateString Date_parse (Js.VStr (pre ++ s ++ post))
        = Utils.parseDateString Date_parse (Js.VStr s).
Proof.
  intros Date_parse s. split.
  - unfold Utils.parseDateString. now rewrite trim_idem.
  - intros pre post Hpre Hpost. unfold Utils.parseDateString.
    now rewrite (trim_app_blank pre s post Hpre Hpost).
Qed.

Lemma parseDateString_ignores_outer_space_witness :
  Utils.parseDateString Sample.Date_parse (Js.VStr "  2023-01-01 ")
    = Utils.parseDateString Sample.Date_parse (Js.VStr "2023-01-01").
Proof.
  apply (proj2 (parseDateString_ignores_outer_space Sample.Date_parse
                  "2023-01-01") "  " " "); reflexivity.
Defined.

End TrimFacts.

(** ** Facts about [ellipsize] *)

Module TextFacts.
Import Text.
Local Open Scope list_scope.

Lemma slice_to_length {A : Type} (e : Z) (s : list A) :
  Z.of_nat (length (slice_to e s)) =
  (if e <? 0 then Z.max (Z.of_nat (length s) + e) 0
   else Z.min e (Z.of_nat (length s)))%Z.
Proof.
  unfold slice_to. rewrite length_take.
  destruct (Z.ltb_spec e 0); lia.
Qed.

Lemma ellipsize_length (s : list code_unit) (n : Z) :
  Z.of_nat (length (ellipsize s n)) =
  (if (length s =? 0)%nat then 0
   else if n <? Z.of_nat (length s)
        then (if n - 1 <? 0 then Z.max (Z.of_nat (length s) + (n - 1)) 0
              else Z.min (n - 1) (Z.of_nat (length s))) + 1
        else Z.of_nat (length s))%Z.
Proof.
  destruct s as [|x r]; [reflexivity|].
  unfold ellipsize. set (s := x :: r).
  change (length s =? 0)%nat with false. cbv iota.
  destruct (n <? Z.of_nat (length s))%Z; [|reflexivity].
  rewrite length_app, Nat2Z.inj_add, slice_to_length. reflexivity.
Qed.

(** [X5] [ellipsize(s, n)] on an integer [n]: the result is never longer
    than [s]; for [n >= 1] it is at most [n] code units long; a string that
    fits is returned as it is, a longer one as its first [n - 1] code units
    and the ellipsis.  For [n = 0] the limit is not kept: a non-empty
    string loses its last code unit to the ellipsis and keeps its
    length. *)
Theorem ellipsize_bound :
  forall (s : list code_unit) (n : Z),
    (length (ellipsize s n) <= length s)%nat /\
    (1 <= n -> Z.of_nat (length (ellipsize s n)) <= n)%Z /\
    (Z.of_nat (length s) <= n -> ellipsize s n = s)%Z /\
    (1 <= n < Z.of_nat (length s) ->
     ellipsize s n = take (Z.to_nat (n - 1)) s ++ [ellipsis])%Z /\
    (s <> [] ->
     ellipsize s 0 = take (length s - 1) s ++ [ellipsis] /\
     length (ellipsize s 0) = length s).
Proof.
  intros s n. pose proof (ellipsize_length s n) as HL.
  split; [|split; [|split; [|split]]].
  - destruct (Nat.eqb_spec (length s) 0);
      destruct (Z.ltb_spec n (Z.of_nat (length s)));
      destruct (Z.ltb_spec (n - 1) 0); lia.
  - intros Hn.
    destruct (Nat.eqb_spec (length s) 0);
      destruct (Z.ltb_spec n (Z.of_nat (length s)));
      destruct (Z.ltb_spec (n - 1) 0); lia.
  - intros Hn. destruct s as [|x r]; [reflexivity|]. unfold ellipsize.
    destruct (Z.ltb_spec n (Z.of_nat (length (x :: r)))); [lia | reflexivity].
  - intros Hn. destruct s as [|x r]; [simpl in Hn; lia|]. unfold ellipsize.
    destruct (Z.ltb_spec n (Z.of_nat (length (x :: r)))); [|lia].
    unfold slice_to. destruct (Z.ltb_spec (n - 1) 0); [lia|].
    now rewrite Z.min_l by lia.
  - intros Hs.
    assert (Hpos : (0 < length s)%nat) by (destruct s; [congruence | simpl; lia]).
    assert (E : ellipsize s 0 = take (length s - 1) s ++ [ellipsis]).
    { destruct s as [|x r]; [congruence|]. unfold ellipsize.
      destruct (Z.ltb_spec 0 (Z.of_nat (length (x :: r)))); [|lia].
      unfold slice_to. change (0 - 1 <? 0)%Z with true. cbv iota.
      do 2 f_equal. lia. }
    split; [exact E|].
    rewrite E, length_app, length_take. simpl. lia.
Qed.

Lemma ellipsize_bound_witness :
  ellipsize [104; 101; 108; 108; 111]%N 3 = [104; 101; 8230]%N /\
  ellipsize [104; 101; 108; 108; 111]%N 5 = [104; 101; 108; 108; 111]%N /\
  length (ellipsize [104; 101; 108; 108; 111]%N 0) = 5%nat.
Proof.
  destruct (ellipsize_bound [104; 101; 108; 108; 111]%N 3)
    as (_ & _ & _ & Hcut & _).
  destruct (ellipsize_bound [104; 101; 108; 108; 111]%N 5)
    as (_ & _ & Hfit & _).
  destruct (ellipsize_bound [104; 101; 108; 108; 111]%N 0)
    as (_ & _ & _ & _ & Hzero).
  split; [apply Hcut; simpl; lia|].
  split; [apply Hfit; simpl; lia|].
  apply Hzero. discriminate.
Defined.

End TextFacts.

(** ** Facts about [fetchJSON] *)

Module FetchFacts.
Import Fetch.

Lemma free_of_cons c x s :
  free_of c (String x s) = true -> Ascii.eqb c x = false /\ free_of c s = true.
Proof.
  unfold free_of. simpl. rewrite negb_orb. intros H.
  apply andb_prop in H as [H1 H2]. apply negb_true_iff in H1. now split.
Qed.

Lemma upto_last_none close s :
  free_of close s = true -> upto_last close s = None.
Proof.
  induction s as [|x s IH]; [reflexivity|].
  intros H. apply free_of_cons in H as [Hx Hs]. simpl.
  rewrite (IH Hs). rewrite Ascii.eqb_sym. now rewrite Hx.
Qed.

Lemma upto_last_app close mid post :
  free_of close post = true ->
  upto_last close (mid ++ String close post)
  = Some (mid ++ String close EmptyString).
Proof.
  intros Hp. induction mid as [|x mid IH]; simpl.
  - rewrite (upto_last_none close post Hp). now rewrite Ascii.eqb_refl.
  - now rewrite IH.
Qed.

Lemma payload_match_skip pre s :
  free_of "{" pre = true -> free_of "[" pre = true ->
  payload_match (pre ++ s) = payload_match s.
Proof.
  induction pre as [|x pre IH]; [reflexivity|].
  intros H1 H2. apply free_of_cons in H1 as [Hx1 Hp1].
  apply free_of_cons in H2 as [Hx2 Hp2]. simpl.
  rewrite (Ascii.eqb_sym x "{"), Hx1, (Ascii.eqb_sym x "["), Hx2.
  now apply IH.
Qed.

Lemma payload_match_none s :
  free_of "{" s = true -> free_of "[" s = true -> payload_match s = None.
Proof.
  induction s as [|x s IH]; [reflexivity|].
  intros H1 H2. apply free_of_cons in H1 as [Hx1 Hp1].
  apply free_of_cons in H2 as [Hx2 Hp2]. simpl.
  rewrite (Ascii.eqb_sym x "{"), Hx1, (Ascii.eqb_sym x "["), Hx2.
  now apply IH.
Qed.

(** What the pattern finds in a payload wrapped in other text. *)
Lemma payload_match_wrapped pre opening closing mid post :
  (opening = "{"%char /\ closing = "}"%char) \/
  (opening = "["%char /\ closing = "]"%char) ->
  free_of "{" pre = true -> free_of "[" pre = true ->
  free_of closing post = true ->
  payload_match (pre ++ String opening (mid ++ String closing post))
  = Some (String opening (mid ++ String closing EmptyString)).
Proof.
  intros Hk H1 H2 Hp. rewrite (payload_match_skip pre _ H1 H2).
  destruct Hk as [[-> ->] | [-> ->]]; simpl;
    now rewrite (upto_last_app _ mid post Hp).
Qed.

(** [X6] [fetchJSON] on a response whose text does not parse as a whole.
    A JSON object or array wrapped in text that has no opening brace or
    bracket before it and no closing character of its kind after it is cut
    out and parsed on its own.  A text with no brace and no bracket fails
    with ["Invalid JSON payload"].  A response that is not [ok] fails with
    ["Fetch failed"] and the status, whatever its body holds. *)
Theorem fetchJSON_payload :
  forall (fetch : string -> outcome response)
         (JSON_parse : string -> outcome Js.value)
         (url : string) (res : response),
    fetch url = Returned res ->
    (forall body pre opening closing mid post e,
       ok res = true ->
       text res = Returned body ->
       body = pre ++ String opening (mid ++ String closing post) ->
       (opening = "{"%char /\ closing = "}"%char) \/
       (opening = "["%char /\ closing = "]"%char) ->
       free_of "{" pre = true -> free_of "[" pre = true ->
       free_of closing post = true ->
       JSON_parse body = Thrown e ->
       fetchJSON fetch JSON_parse url
       = JSON_parse (String opening (mid ++ String closing EmptyString))) /\
    (forall body e,
       ok res = true ->
       text res = Returned body ->
       free_of "{" body = true -> free_of "[" body = true ->
       JSON_parse body = Thrown e ->
       fetchJSON fetch JSON_parse url
       = Thrown (Exn "Error" "Invalid JSON payload")) /\
    (ok res = false ->
     fetchJSON fetch JSON_parse url
     = Thrown (Exn "Error" ("Fetch failed " ++ decimal (status res)))).
Proof.
  intros fetch JSON_parse url res Hres. unfold fetchJSON. rewrite Hres.
  split; [|split].
  - intros body pre opening closing mid post e Hok Htext -> Hk H1 H2 Hp He.
    rewrite Hok, Htext, He. simpl.
    now rewrite (payload_match_wrapped pre opening closing mid post Hk H1 H2 Hp).
  - intros body e Hok Htext H1 H2 He.
    rewrite Hok, Htext, He. simpl.
    now rewrite (payload_match_none body H1 H2).
  - intros Hok. now rewrite Hok.
Qed.

Lemma fetchJSON_payload_witness :
  fetchJSON (SampleNet.serve "while(1);{} ") SampleNet.JSON_parse "u"
    = Returned (Js.VObj []) /\
  fetchJSON (SampleNet.serve "<html>") SampleNet.JSON_parse "u"
    = Thrown (Exn "Error" "Invalid JSON payload") /\
  fetchJSON SampleNet.not_found SampleNet.JSON_parse "u"
    = Thrown (Exn "Error" "Fetch failed 404").
Proof.
  split; [|split].
  - apply (proj1 (fetchJSON_payload (SampleNet.serve "while(1);{} ")
                    SampleNet.JSON_parse "u" _ eq_refl)
             "while(1);{} " "while(1);" "{"%char "}"%char "" " "
             (Exn "SyntaxError" "Unexpected token"));
      try reflexivity.
    left. split; reflexivity.
  - apply (proj1 (proj2 (fetchJSON_payload (SampleNet.serve "<html>")
                           SampleNet.JSON_parse "u" _ eq_refl))
             "<html>" (Exn "SyntaxError" "Unexpected token"));
      reflexivity.
  - apply (proj2 (proj2 (fetchJSON_payload SampleNet.not_found
                           SampleNet.JSON_parse "u" _ eq_refl))).
    reflexivity.
Defined.

End FetchFacts.

(** ** Facts about [fetchRepo] *)

Module LoaderFacts.
Import Fetch RepoLoader.
Local Open Scope list_scope.

Lemma cache_get_set {D : Type} src (r : loaded D) cache :
  cache_get src (cache_set src r cache) = Some r.
Proof.
  induction cache as [|[k r0] rest IH]; simpl.
  - now rewrite String.eqb_refl.
  - destruct (String.eqb src k) eqn:E; simpl; rewrite E; [reflexivity | exact IH].
Qed.

Lemma cache_get_set_other {D : Type} src k (r : loaded D) cache :
  k <> src -> cache_get k (cache_set src r cache) = cache_get k cache.
Proof.
  intros Hk. induction cache as [|[k0 r0] rest IH]; simpl.
  - apply String.eqb_neq in Hk. now rewrite Hk.
  - destruct (String.eqb src k0) eqn:E; simpl.
    + apply String.eqb_eq in E. subst k0.
      apply String.eqb_neq in Hk. now rewrite Hk.
    + now rewrite IH.
Qed.

Lemma resolve_absolute src : JsString.includes (resolve src) "://" = true.
Proof.
  unfold resolve. destruct (JsString.includes src "://") eqn:E; [exact E|].
  reflexivity.
Qed.

Lemma resolve_idem src : resolve (resolve src) = resolve src.
Proof.
  unfold resolve at 1. now rewrite resolve_absolute.
Qed.

Section Strict.
Variable fetchJSON : string -> outcome Js.value.
Variable TypeError_message : string.

Local Abbreviation fetchRepo := (RepoLoader.fetchRepo fetchJSON TypeError_message).
Local Abbreviation load := (RepoLoader.load fetchJSON TypeError_message).

Lemma fetchRepo_hit src cache r :
  cache_get src cache = Some r -> fetchRepo src cache = (Returned r, cache).
Proof. intros H. unfold RepoLoader.fetchRepo. now rewrite H. Qed.

Lemma fetchRepo_returned src cache r cache' :
  fetchRepo src cache = (Returned r, cache') ->
  cache_get src cache' = Some r /\
  (forall k, k <> src -> cache_get k cache' = cache_get k cache) /\
  (cache_get src cache = None ->
   load (resolve src) = Returned r /\ url r = resolve src).
Proof.
  unfold RepoLoader.fetchRepo.
  destruct (cache_get src cache) as [r0|] eqn:Hget.
  - intros [= -> ->]. split; [exact Hget|]. split; [reflexivity | discriminate].
  - destruct (load (resolve src)) as [result|e] eqn:Hload; [|discriminate].
    intros [= -> <-]. split; [apply cache_get_set|].
    split; [intros k Hk; now apply cache_get_set_other|].
    intros _. split; [reflexivity|].
    unfold RepoLoader.load in Hload.
    destruct (fetchJSON (resolve src)); [|discriminate].
    destruct (AltSourceKit.new_ASRepository a); [|discriminate].
    now injection Hload as <-.
Qed.

Lemma fetchRepo_thrown src cache e cache' :
  fetchRepo src cache = (Thrown e, cache') ->
  cache' = cache /\ cache_get src cache = None /\
  exists error, load (resolve src) = Thrown error /\
    e = Exn "Error" ("Failed to load repository: " ++ message_of error).
Proof.
  unfold RepoLoader.fetchRepo.
  destruct (cache_get src cache) as [r0|] eqn:Hget; [discriminate|].
  destruct (load (resolve src)) as [result|error] eqn:Hload; [discriminate|].
  intros [= <- <-]. split; [reflexivity|]. split; [reflexivity|].
  now exists error.
Qed.

End Strict.

Section Plain.
Variable fetchJSON : string -> outcome Js.value.

Local Abbreviation fetchRepo_plain := (RepoLoader.fetchRepo_plain fetchJSON).

Lemma fetchRepo_plain_returned src cache r cache' :
  fetchRepo_plain src cache = (Returned r, cache') ->
  cache_get src cache' = Some r /\
  (forall k, k <> src -> cache_get k cache' = cache_get k cache) /\
  (cache_get src cache = None ->
   fetchJSON (resolve src) = Returned (data r) /\ url r = resolve src).
Proof.
  unfold RepoLoader.fetchRepo_plain.
  destruct (cache_get src cache) as [r0|] eqn:Hget.
  - intros [= -> ->]. split; [exact Hget|]. split; [reflexivity | discriminate].
  - destruct (fetchJSON (resolve src)) as [d|e] eqn:Hf; [|discriminate].
    intros [= <- <-]. split; [apply cache_get_set|].
    split; [intros k Hk; now apply cache_get_set_other|].
    intros _. now split.
Qed.

End Plain.

(** [X7] Both loaders answer from their cache once a source has loaded: a
    call that returns leaves its result under the source, as given, and
    every later call for that source returns the same result and leaves
    the cache as it is, whatever the network would answer then; the
    entries of other sources are not touched.  On a miss the result comes
    from the resolved address, which is always absolute. *)
Theorem fetchRepo_answers_from_cache :
  (forall fetchJSON msg src cache r cache',
     RepoLoader.fetchRepo fetchJSON msg src cache = (Returned r, cache') ->
     cache_get src cache' = Some r /\
     (forall fetchJSON' msg',
        RepoLoader.fetchRepo fetchJSON' msg' src cache'
        = (Returned r, cache')) /\
     (forall k, k <> src -> cache_get k cache' = cache_get k cache) /\
     (cache_get src cache = None ->
      url r = resolve src /\ JsString.includes (url r) "://" = true)) /\
  (forall fetchJSON src cache r cache',
     RepoLoader.fetchRepo_plain fetchJSON src cache = (Returned r, cache') ->
     cache_get src cache' = Some r /\
     (forall fetchJSON',
        RepoLoader.fetchRepo_plain fetchJSON' src cache'
        = (Returned r, cache')) /\
     (forall k, k <> src -> cache_get k cache' = cache_get k cache) /\
     (cache_get src cache = None ->
      fetchJSON (url r) = Returned (data r) /\
      url r = resolve src /\ JsString.includes (url r) "://" = true)).
Proof.
  split.
  - intros fetchJSON msg src cache r cache' H.
    destruct (fetchRepo_returned _ _ _ _ _ _ H) as (Hget & Hother & Hmiss).
    split; [exact Hget|]. split.
    { intros fetchJSON' msg'. now apply fetchRepo_hit. }
    split; [exact Hother|].
    intros Hnone. destruct (Hmiss Hnone) as [_ Hurl].
    split; [exact Hurl|]. rewrite Hurl. apply resolve_absolute.
  - intros fetchJSON src cache r cache' H.
    destruct (fetchRepo_plain_returned _ _ _ _ _ H) as (Hget & Hother & Hmiss).
    split; [exact Hget|]. split.
    { intros fetchJSON'. unfold RepoLoader.fetchRepo_plain. now rewrite Hget. }
    split; [exact Hother|].
    intros Hnone. destruct (Hmiss Hnone) as [Hf Hurl].
    split; [now rewrite Hurl|].
    split; [exact Hurl|]. rewrite Hurl. apply resolve_absolute.
Qed.

Lemma fetchRepo_answers_from_cache_witness :
  let first := RepoLoader.fetchRepo_plain (fun _ => Returned Js.VNull)
                 "RipeStore" [] in
  first.1 = Returned
    {| data := Js.VNull;
       url := "https://raw.githubusercontent.com/ripestore/repos/main/RipeStore.json" |}
  /\ RepoLoader.fetchRepo_plain SampleNet.offline "RipeStore" first.2 = first.
Proof.
  intros first. split; [reflexivity|].
  destruct (proj2 fetchRepo_answers_from_cache (fun _ => Returned Js.VNull)
              "RipeStore" []
              {| data := Js.VNull;
                 url := "https://raw.githubusercontent.com/ripestore/repos/main/RipeStore.json" |}
              first.2 eq_refl) as (_ & Hagain & _).
  apply Hagain.
Defined.

(** [X8] The strict loader does not cache a failure and reports every
    failure the same way: the call throws an [Error] whose message is
    ["Failed to load repository: "] followed by the message of what went
    wrong, and the cache is as before, so the next call asks the network
    again.  A document that the [ASRepository] constructor rejects fails
    with the constructor's message; a failed request with the request's. *)
Theorem fetchRepo_failure_not_cached :
  forall fetchJSON msg src cache,
    (forall e cache',
       RepoLoader.fetchRepo fetchJSON msg src cache = (Thrown e, cache') ->
       cache' = cache /\ cache_get src cache = None /\
       exists m, e = Exn "Error" ("Failed to load repository: " ++ m)) /\
    (forall d m,
       cache_get src cache = None ->
       fetchJSON (resolve src) = Returned d ->
       AltSourceKit.new_ASRepository d
         = AltSourceKit.Throw (AltSourceKit.Error m) ->
       RepoLoader.fetchRepo fetchJSON msg src cache
       = (Thrown (Exn "Error" ("Failed to load repository: " ++ m)), cache)) /\
    (forall e,
       cache_get src cache = None ->
       fetchJSON (resolve src) = Thrown e ->
       RepoLoader.fetchRepo fetchJSON msg src cache
       = (Thrown (Exn "Error" ("Failed to load repository: "
                               ++ message_of e)), cache)).
Proof.
  intros fetchJSON msg src cache. split; [|split].
  - intros e cache' H.
    destruct (fetchRepo_thrown _ _ _ _ _ _ H) as (Hc & Hnone & error & _ & He).
    split; [exact Hc|]. split; [exact Hnone|]. now exists (message_of error).
  - intros d m Hnone Hf Hnew.
    unfold RepoLoader.fetchRepo, RepoLoader.load. now rewrite Hnone, Hf, Hnew.
  - intros e Hnone Hf.
    unfold RepoLoader.fetchRepo, RepoLoader.load. now rewrite Hnone, Hf.
Qed.

Lemma fetchRepo_failure_not_cached_witness :
  RepoLoader.fetchRepo (fun _ => Returned Js.VNull) "" "RipeStore" []
    = (Thrown (Exn "Error"
                 "Failed to load repository: Invalid repository data"), []) /\
  RepoLoader.fetchRepo SampleNet.offline "" "RipeStore" []
    = (Thrown (Exn "Error" "Failed to load repository: Failed to fetch"), []).
Proof.
  destruct (fetchRepo_failure_not_cached (fun _ => Returned Js.VNull) ""
              "RipeStore" []) as (_ & Hdoc & _).
  destruct (fetchRepo_failure_not_cached SampleNet.offline ""
              "RipeStore" []) as (_ & _ & Hnet).
  split.
  - apply (Hdoc Js.VNull "Invalid repository data"); reflexivity.
  - apply (Hnet (Exn "TypeError" "Failed to fetch")); reflexivity.
Defined.

End LoaderFacts.

(** ** Facts about the detail page's merge *)

Module DetailFacts.
Import Catalog DetailPage DetailInv MergeSpec.
Local Open Scope list_scope.

Lemma set_has_In seen id : set_has seen id = true <-> In id seen.
Proof.
  unfold set_has. rewrite existsb_exists. split.
  - intros (x & Hin & Heq). apply String.eqb_eq in Heq. now subst.
  - intros Hin. exists id. split; [exact Hin | apply String.eqb_refl].
Qed.

Lemma take_new_seen_mono vs : forall acc seen id,
  In id seen -> In id (take_new acc seen vs).2.
Proof.
  induction vs as [|v vs IH]; intros acc seen id Hin; simpl; [exact Hin|].
  destruct (negb (set_has seen (ver_key v)) && JsString.truthy (ver_url v));
    apply IH; [apply in_or_app; now left | exact Hin].
Qed.

Lemma NoDup_snoc {A : Type} (l : list A) (x : A) :
  List.NoDup l -> ~ In x l -> List.NoDup (l ++ [x]).
Proof.
  intros Hnd Hx. apply (Permutation_NoDup (l := x :: l)).
  - rewrite Permutation_app_comm. reflexivity.
  - now constructor.
Qed.

(** What the inner loop keeps true of [merged.versions] and [seen]. *)
Lemma take_new_spec vs : forall acc seen,
  seen = map ver_key acc ->
  List.NoDup seen ->
  List.Forall has_url acc ->
  (take_new acc seen vs).2 = map ver_key (take_new acc seen vs).1 /\
  List.NoDup (take_new acc seen vs).2 /\
  List.Forall has_url (take_new acc seen vs).1 /\
  (exists ext, (take_new acc seen vs).1 = acc ++ ext /\
               forall v, In v ext -> In v vs) /\
  (forall v, In v vs -> has_url v -> In (ver_key v) (take_new acc seen vs).2).
Proof.
  induction vs as [|v vs IH]; intros acc seen Hseen Hnd Hurl; simpl.
  - split; [exact Hseen|]. split; [exact Hnd|]. split; [exact Hurl|].
    split; [|intros v []].
    exists []. split; [now rewrite app_nil_r | intros v []].
  - destruct (negb (set_has seen (ver_key v)) && JsString.truthy (ver_url v))
      eqn:E.
    + apply andb_prop in E as [Hnew Hu]. apply negb_true_iff in Hnew.
      assert (Hnotin : ~ In (ver_key v) seen).
      { intros Hin. apply set_has_In in Hin. congruence. }
      destruct (IH (acc ++ [v]) (seen ++ [ver_key v]))
        as (H1 & H2 & H3 & (ext & H4 & H5) & H6).
      * rewrite map_app. simpl. now rewrite Hseen.
      * now apply NoDup_snoc.
      * apply List.Forall_app. split; [exact Hurl|]. now constructor.
      * split; [exact H1|]. split; [exact H2|]. split; [exact H3|]. split.
        { exists (v :: ext). split; [now rewrite H4, <- app_assoc|].
          intros w [<-|Hw]; [now left | right; now apply H5]. }
        intros w [<-|Hw] Hwu; [|now apply H6].
        apply take_new_seen_mono, in_or_app. right. now left.
    + destruct (IH acc seen Hseen Hnd Hurl)
        as (H1 & H2 & H3 & (ext & H4 & H5) & H6).
      split; [exact H1|]. split; [exact H2|]. split; [exact H3|]. split.
      { exists ext. split; [exact H4|]. intros w Hw. right. now apply H5. }
      intros w [<-|Hw] Hwu; [|now apply H6].
      unfold has_url in Hwu. rewrite Hwu, andb_true_r in E.
      apply negb_false_iff in E. apply set_has_In in E.
      now apply take_new_seen_mono.
Qed.

Lemma merged_inv_init bundle src :
  merged_inv []
    {| m_name := ""; m_bundle := bundle; m_icon := ""; m_dev := "";
       m_desc := ""; m_versions := []; m_source := src |} [].
Proof.
  constructor; simpl; try reflexivity; try constructor; try tauto.
Qed.

Lemma merged_inv_step done m seen a :
  merged_inv done m seen ->
  merged_inv (done ++ [a]) (merge_app (m, seen) a).1 (merge_app (m, seen) a).2.
Proof.
  intros [Hseen Hnd Hurl Hfrom Hall Hn Hi Hd He].
  unfold merge_app.
  destruct (take_new_spec (default [] (versions a)) (m_versions m) seen
              Hseen Hnd Hurl) as (H1 & H2 & H3 & (ext & H4 & H5) & H6).
  destruct (take_new (m_versions m) seen (default [] (versions a)))
    as [vs seen'] eqn:E.
  cbn [fst snd] in *.
  constructor; cbn [m_versions m_name m_icon m_dev m_desc fst snd];
    rewrite ?map_app; simpl (map _ [a]).
  - exact H1.
  - exact H2.
  - exact H3.
  - intros v Hv. rewrite H4 in Hv. apply in_app_or in Hv as [Hv|Hv].
    + destruct (Hfrom v Hv) as (a0 & Ha0 & Hin). exists a0.
      split; [apply in_or_app; now left | exact Hin].
    + exists a. split; [apply in_or_app; right; now left | now apply H5].
  - intros a0 v Ha0 Hv Hu. apply in_app_or in Ha0 as [Ha0|[<-|[]]].
    + pose proof (take_new_seen_mono (default [] (versions a)) (m_versions m)
                    seen (ver_key v) (Hall a0 v Ha0 Hv Hu)) as Hm.
      now rewrite E in Hm.
    + now apply H6.
  - rewrite Hn. apply MergeFacts.or_else_first_nonempty.
  - rewrite Hi. apply MergeFacts.or_else_first_nonempty.
  - rewrite Hd. apply MergeFacts.or_else_first_nonempty.
  - rewrite He. apply MergeFacts.or_else_first_nonempty.
Qed.

Lemma merge_app_fixed m seen a :
  m_bundle (merge_app (m, seen) a).1 = m_bundle m /\
  m_source (merge_app (m, seen) a).1 = m_source m.
Proof.
  unfold merge_app.
  now destruct (take_new (m_versions m) seen (default [] (versions a))).
Qed.

Lemma merged_inv_loop apps : forall done m seen,
  merged_inv done m seen ->
  merged_inv (done ++ apps) (foldl merge_app (m, seen) apps).1
             (foldl merge_app (m, seen) apps).2 /\
  m_bundle (foldl merge_app (m, seen) apps).1 = m_bundle m /\
  m_source (foldl merge_app (m, seen) apps).1 = m_source m.
Proof.
  induction apps as [|a apps IH]; intros done m seen I.
  - simpl. rewrite app_nil_r. now split.
  - change (foldl merge_app (m, seen) (a :: apps))
      with (foldl merge_app (merge_app (m, seen) a) apps).
    pose proof (merged_inv_step done m seen a I) as I'.
    destruct (merge_app_fixed m seen a) as [Hb Hs].
    destruct (merge_app (m, seen) a) as [m' seen'] eqn:E. cbn [fst snd] in *.
    destruct (IH (done ++ [a]) m' seen' I') as (J & Jb & Js).
    rewrite <- app_assoc in J. simpl in J.
    split; [exact J|]. split; congruence.
Qed.

(** The comparator of the first sort is a consistent order. *)
Lemma byVersionDesc_sorted vs :
  StronglySorted
    (fun x y => (Utils.semverCompare (ver_version y) (ver_version x) <= 0)%Z)
    (JsArray.sort (fun x y => (0 <? byVersionDesc x y)%Z) vs).
Proof.
  eapply SortFacts.sorted_weaken;
    [|apply (SortFacts.sort_sorted (fun x y => (0 <? byVersionDesc x y)%Z))].
  - intros x y H. unfold JsArray.ordered in H. apply Z.ltb_ge in H. exact H.
  - intros x y H. apply Z.ltb_lt in H. apply Z.ltb_ge.
    unfold byVersionDesc in *.
    rewrite (UtilsFacts.semverCompare_swap (ver_version x) (ver_version y)).
    lia.
  - intros x y z H1 H2. unfold JsArray.ordered in *.
    apply Z.ltb_ge in H1, H2. apply Z.ltb_ge. unfold byVersionDesc in *.
    now apply (SemverOrder.semverCompare_order (ver_version z) (ver_version y)
                 (ver_version x)).
Qed.

(** [X9] The detail page's merge of the apps collected for one bundle.
    The merged version list has no key (version and address) twice,
    whichever app repeats it; no version without an address is in it; it
    holds versions of the collected apps only, and the key of every one of
    their versions that has an address.  Each scalar field is the first
    non-empty value in encounter order, and the bundle is the one asked
    for. *)
Theorem merge_versions_distinct :
  forall (bundle repoParam : string) (collectedApps : list app),
    let m := merge bundle repoParam collectedApps in
    List.NoDup (map ver_key (m_versions m)) /\
    List.Forall (fun v => JsString.truthy (ver_url v) = true) (m_versions m) /\
    (forall v, In v (m_versions m) ->
       exists a, In a collectedApps /\ In v (default [] (versions a))) /\
    (forall a v, In a collectedApps -> In v (default [] (versions a)) ->
       JsString.truthy (ver_url v) = true ->
       In (ver_key v) (map ver_key (m_versions m))) /\
    m_name m = first_nonempty (map name collectedApps) /\
    m_icon m = first_nonempty (map icon collectedApps) /\
    m_dev m = first_nonempty (map dev collectedApps) /\
    m_desc m = first_nonempty (map desc collectedApps) /\
    m_bundle m = bundle.
Proof.
  intros bundle repoParam apps m. subst m. unfold merge.
  set (src := if JsString.truthy repoParam then Some repoParam
              else option_map source (head apps)).
  destruct (merged_inv_loop apps [] _ [] (merged_inv_init bundle src))
    as (I & Hb & _).
  simpl in I, Hb.
  destruct (foldl merge_app _ apps) as [m seen] eqn:E. cbn [fst snd] in *.
  destruct I as [Hseen Hnd Hurl Hfrom Hall Hn Hi Hd He].
  cbn [m_versions m_name m_icon m_dev m_desc m_bundle].
  set (gt := fun x y : version => (0 <? byVersionDesc x y)%Z).
  pose proof (SortFacts.sort_perm gt (m_versions m)) as Hp.
  split.
  { apply (Permutation_NoDup (l := map ver_key (m_versions m))).
    - symmetry. now apply Permutation_map.
    - now rewrite <- Hseen. }
  split.
  { apply List.Forall_forall. intros v Hv. apply SortFacts.sort_In in Hv.
    rewrite List.Forall_forall in Hurl. now apply Hurl. }
  split.
  { intros v Hv. apply SortFacts.sort_In in Hv. now apply Hfrom. }
  split.
  { intros a v Ha Hv Hu.
    apply (Permutation_in (l := map ver_key (m_versions m)));
      [symmetry; now apply Permutation_map|].
    rewrite <- Hseen. now apply (Hall a v). }
  repeat split; assumption.
Qed.

Lemma merge_versions_distinct_witness :
  let nourl := mkVersion "0.9" None "" "" in
  let one := mkApp (Some "com.x.y") "" "" "" "" "s1" None
               (Some [Examples.v100; Examples.v100; nourl]) in
  let two := mkApp (Some "com.x.y") "X" "" "" "" "s2" None
               (Some [Examples.v100; Examples.v2]) in
  let m := merge "com.x.y" "" [one; two] in
  List.NoDup (map ver_key (m_versions m)) /\
  In (ver_key Examples.v100) (map ver_key (m_versions m)) /\
  m_versions m = [Examples.v2; Examples.v100] /\ m_name m = "X".
Proof.
  intros nourl one two m.
  destruct (merge_versions_distinct "com.x.y" "" [one; two])
    as (Hnd & _ & _ & Hall & Hname & _).
  split; [exact Hnd|]. split; [|split; [reflexivity | exact Hname]].
  apply (Hall one Examples.v100); [now left | now left | reflexivity].
Defined.

(** [X10] The detail page's first sort puts the merged versions in
    descending order of their version strings under [semverCompare], for
    any collected apps: no version stands before one that compares
    greater. *)
Theorem merge_versions_descending :
  forall (bundle repoParam : string) (collectedApps : list app),
    StronglySorted
      (fun x y =>
         (Utils.semverCompare (ver_version x) (ver_version y) >= 0)%Z)
      (m_versions (merge bundle repoParam collectedApps)).
Proof.
  intros bundle repoParam apps. unfold merge.
  destruct (foldl merge_app _ apps) as [m seen]. cbn [m_versions].
  eapply SortFacts.sorted_weaken; [|apply byVersionDesc_sorted].
  intros x y H. cbv beta in H.
  rewrite (UtilsFacts.semverCompare_swap (ver_version x) (ver_version y)).
  lia.
Qed.

End DetailFacts.

(** ** Facts about the list of sources *)

Module SourcesFacts.
Import Sources.
Local Open Scope list_scope.

Lemma includes_In list v : listed list v = true <-> In v list.
Proof.
  unfold listed. rewrite existsb_exists. split.
  - intros (x & Hin & Heq). apply String.eqb_eq in Heq. now subst.
  - intros Hin. exists v. split; [exact Hin | apply String.eqb_refl].
Qed.

Lemma includes_not_In list v : listed list v = false <-> ~ In v list.
Proof.
  rewrite <- includes_In. destruct (listed list v); split; congruence.
Qed.

Lemma get_add st :
  JsString.truthy (JsString.trim (newSource st)) = true ->
  get (add st) =
  if listed (get st) (JsString.trim (newSource st)) then get st
  else get st ++ [JsString.trim (newSource st)].
Proof.
  intros Hv. unfold add. rewrite Hv. cbn [negb].
  destruct (listed (get st) (JsString.trim (newSource st))); reflexivity.
Qed.

Lemma filter_ne_In url (l : list string) x :
  In x (List.filter (fun y => negb (String.eqb y url)) l) <-> In x l /\ x <> url.
Proof.
  rewrite filter_In, negb_true_iff, String.eqb_neq. tauto.
Qed.

Lemma filter_ne_id url (l : list string) :
  ~ In url l -> List.filter (fun y => negb (String.eqb y url)) l = l.
Proof.
  induction l as [|x l IH]; [reflexivity|]. intros Hn. simpl.
  destruct (String.eqb_spec x url) as [->|Hne]; simpl.
  - exfalso. apply Hn. now left.
  - rewrite IH; [reflexivity|]. intros H. apply Hn. now right.
Qed.

Lemma get_click_document inside st : get (click_document inside st) = get st.
Proof. now destruct inside. Qed.

Lemma get_click_add st : get (click_add st) = get (add st).
Proof. apply get_click_document. Qed.

(** [X11] A click on the Add button, as the page handles it: the button's
    listener and then the document's.  Afterwards no row is selected,
    whatever the input.  With a blank input nothing else changes: the
    list, what is stored and the input field are as before.  Otherwise
    the trimmed text is in the list afterwards; it is appended exactly
    when it was not there, so every other entry keeps its place, a list
    without duplicates stays without, and a second click with the same
    text changes nothing; the input field is cleared. *)
Theorem add_lists_trimmed_once :
  forall st : page,
    let v := JsString.trim (newSource st) in
    selected (click_add st) = None /\
    (JsString.truthy v = false ->
     get (click_add st) = get st /\ stored (click_add st) = stored st /\
     DEFAULTS (click_add st) = DEFAULTS st /\
     newSource (click_add st) = newSource st) /\
    (JsString.truthy v = true ->
     In v (get (click_add st)) /\
     (In v (get st) -> get (click_add st) = get st) /\
     (~ In v (get st) -> get (click_add st) = get st ++ [v]) /\
     (List.NoDup (get st) -> List.NoDup (get (click_add st))) /\
     (forall w, JsString.trim w = v ->
        get (click_add (type_source w (click_add st))) = get (click_add st)) /\
     newSource (click_add st) = "").
Proof.
  intros st v. subst v. split; [reflexivity|]. split.
  - intros Hv. unfold click_add, add. rewrite Hv. repeat split.
  - intros Hv. rewrite !get_click_add. pose proof (get_add st Hv) as Hg.
    set (v := JsString.trim (newSource st)) in *.
    assert (Hin : In v (get (add st))).
    { rewrite Hg. destruct (listed (get st) v) eqn:E.
      - now apply includes_In.
      - apply in_or_app. right. now left. }
    split; [exact Hin|]. split; [|split; [|split; [|split]]].
    + intros H. apply includes_In in H. now rewrite Hg, H.
    + intros H. apply includes_not_In in H. now rewrite Hg, H.
    + intros Hnd. rewrite Hg. destruct (listed (get st) v) eqn:E;
        [exact Hnd|]. apply DetailFacts.NoDup_snoc; [exact Hnd|].
      now apply includes_not_In.
    + intros w Hw.
      assert (Hv' : JsString.truthy
                      (JsString.trim
                         (newSource (type_source w (click_add st))))
                    = true) by (simpl; now rewrite Hw).
      rewrite (get_click_add (type_source w (click_add st))).
      rewrite (get_add _ Hv'). simpl newSource. rewrite Hw.
      change (get (type_source w (click_add st))) with (get (click_add st)).
      rewrite get_click_add.
      apply includes_In in Hin. now rewrite Hin.
    + unfold click_add, add. fold v. rewrite Hv. cbn [negb].
      now destruct (listed (get st) v).
Qed.

Lemma add_lists_trimmed_once_witness :
  get (click_add (type_source " https://example.org/repo.json " initial))
    = ["RipeStore"; "https://example.org/repo.json"] /\
  get (click_add (type_source "RipeStore" initial)) = ["RipeStore"] /\
  get (click_add (type_source "   " (click_row "RipeStore" initial)))
    = ["RipeStore"] /\
  selected (click_add (type_source "   " (click_row "RipeStore" initial)))
    = None.
Proof.
  destruct (add_lists_trimmed_once
              (type_source " https://example.org/repo.json " initial))
    as (_ & _ & Hnew).
  destruct (add_lists_trimmed_once (type_source "RipeStore" initial))
    as (_ & _ & Hold).
  destruct (add_lists_trimmed_once
              (type_source "   " (click_row "RipeStore" initial)))
    as (Hsel & Hblank & _).
  split; [|split; [|split]].
  - destruct (Hnew eq_refl) as (_ & _ & Happ & _). apply Happ.
    simpl. intros [H|[]]. discriminate.
  - destruct (Hold eq_refl) as (_ & Hthere & _). apply Hthere.
    simpl. now left.
  - destruct (Hblank eq_refl) as (Hget & _). exact Hget.
  - exact Hsel.
Defined.

(** [X12] Removing a source takes two clicks on its row.  The first click
    selects the row and leaves the list alone; the second removes every
    entry equal to the row's text and nothing else, and clears the
    selection.  Removing an entry that was just added gives the list back
    as it was.  Once the last entry is removed the list is empty and stays
    stored as such: the default source does not come back. *)
Theorem click_twice_removes :
  forall (url : string) (st : page),
    selected st <> Some url ->
    let st1 := click_row url st in
    let st2 := click_row url st1 in
    get st1 = get st /\ selected st1 = Some url /\
    get st2 = List.filter (fun x => negb (String.eqb x url)) (get st) /\
    ~ In url (get st2) /\
    (forall x, x <> url -> In x (get st2) <-> In x (get st)) /\
    selected st2 = None /\
    ((forall x, In x (get st) -> x = url) ->
     get st2 = [] /\ stored st2 = Some []) /\
    (forall st0,
       st = add st0 -> url = JsString.trim (newSource st0) ->
       JsString.truthy url = true -> ~ In url (get st0) ->
       get st2 = get st0).
Proof.
  intros url st Hsel st1 st2.
  assert (H1 : st1 = {| stored := stored st; DEFAULTS := DEFAULTS st;
                        selected := Some url; newSource := newSource st |}).
  { subst st1. unfold click_row. destruct (selected st) as [s|]; [|reflexivity].
    destruct (String.eqb_spec s url) as [->|Hne]; [congruence | reflexivity]. }
  assert (H2 : get st2 = List.filter (fun x => negb (String.eqb x url)) (get st)).
  { subst st2. rewrite H1. unfold click_row. cbn [selected].
    rewrite (String.eqb_refl url). reflexivity. }
  split; [now rewrite H1|]. split; [now rewrite H1|]. split; [exact H2|].
  split; [rewrite H2, filter_ne_In; tauto|].
  split; [intros x Hx; rewrite H2, filter_ne_In; tauto|].
  split.
  { subst st2. rewrite H1. unfold click_row. cbn [selected].
    now rewrite (String.eqb_refl url). }
  split.
  - intros Hall.
    assert (E : List.filter (fun x => negb (String.eqb x url)) (get st) = []).
    { destruct (List.filter _ (get st)) as [|x l] eqn:E; [reflexivity|].
      assert (Hx : In x (x :: l)) by now left.
      rewrite <- E in Hx. apply filter_ne_In in Hx as [Hin Hne].
      now apply Hall in Hin. }
    split; [now rewrite H2|].
    subst st2. rewrite H1. unfold click_row. cbn [selected].
    rewrite (String.eqb_refl url). cbn [stored]. f_equal. exact E.
  - intros st0 -> -> Hv Hnot. rewrite H2, (get_add st0 Hv).
    apply includes_not_In in Hnot as Hinc. rewrite Hinc.
    rewrite List.filter_app. simpl. rewrite (String.eqb_refl _). simpl.
    rewrite app_nil_r. now apply filter_ne_id.
Qed.

Lemma click_twice_removes_witness :
  get (click_row "RipeStore" (click_row "RipeStore" initial)) = [] /\
  stored (click_row "RipeStore" (click_row "RipeStore" initial)) = Some [] /\
  get (click_row "RipeStore" initial) = ["RipeStore"].
Proof.
  assert (Hsel : selected initial <> Some "RipeStore") by discriminate.
  destruct (click_twice_removes "RipeStore" initial Hsel)
    as (Hone & _ & _ & _ & _ & _ & Hlast & _).
  split; [|split].
  - apply Hlast. simpl. intros x [<-|[]]. reflexivity.
  - apply Hlast. simpl. intros x [<-|[]]. reflexivity.
  - exact Hone.
Defined.

End SourcesFacts.

(** ** More about [mergeByBundle]: what it returns and what it leaves *)

Module MergeMore.
Import Catalog Merge MergeSpec VersionsSpec MergeInv MergeFacts.
Local Open Scope list_scope.

Section PassThrough.
Variable st0 : store.

(** The input references among the values of the map. *)
Local Abbreviation inputs m :=
  (List.filter (fun o => (o <? length (objs st0))%nat) (map snd m)).
(** The apps of a list that have no bundle identifier. *)
Local Abbreviation loose l :=
  (List.filter
     (fun a => negb (JsString.truthy (bundle_key (objs st0 !!! a)))) l).

Lemma merge_step_inputs done st m a :
  a < length (objs st0) -> inv st0 done st m ->
  inputs (merge_step (st, m) a).2 = inputs m ++ loose [a] /\
  length (merge_step (st, m) a).2 <= S (length m).
Proof.
  intros Ha I. pose proof (inv_objs _ _ _ _ I a Ha) as Hobj.
  pose proof (inv_objs_len _ _ _ _ I) as Hlen.
  unfold merge_step. cbv beta iota zeta. rewrite Hobj.
  set (obj := objs st0 !!! a) in *. cbn [List.filter]. fold obj.
  destruct (JsString.truthy (bundle_key obj)) eqn:Hb; cbn [negb].
  - destruct (map_get (bundle_key obj) m) as [o|] eqn:Hget.
    + assert (Hm : forall st' : store, inputs (st', m).2 = inputs m ++ []
                               /\ length (st', m).2 <= S (length m)).
      { intros st'. cbn [snd]. rewrite app_nil_r. split; [reflexivity | lia]. }
      destruct (versions (objs st !!! o)); apply Hm.
    + cbn [snd]. rewrite map_app, List.filter_app, length_app. simpl.
      destruct (Nat.ltb_spec (length (objs st)) (length (objs st0))); [lia|].
      split; [reflexivity | lia].
  - cbn [snd]. rewrite map_app, List.filter_app, length_app. simpl.
    destruct (Nat.ltb_spec a (length (objs st0))); [|lia].
    split; [reflexivity | lia].
Qed.

Lemma merge_loop_inputs apps : forall done st m,
  Forall (fun a => a < length (objs st0)) apps -> inv st0 done st m ->
  inputs (foldl merge_step (st, m) apps).2 = inputs m ++ loose apps /\
  length (foldl merge_step (st, m) apps).2 <= length m + length apps.
Proof.
  induction apps as [|a apps IH]; intros done st m Hall I.
  - simpl. rewrite app_nil_r. split; [reflexivity | lia].
  - inversion Hall as [|? ? Ha Hall']; subst.
    pose proof (inv_step st0 done st m a Ha I) as I'.
    destruct (merge_step_inputs done st m a Ha I) as [H1 H2].
    change (foldl merge_step (st, m) (a :: apps))
      with (foldl merge_step (merge_step (st, m) a) apps).
    destruct (merge_step (st, m) a) as [st' m'] eqn:E. cbn [fst snd] in *.
    destruct (IH (done ++ [a]) st' m' Hall' I') as [J1 J2].
    split.
    + rewrite J1, H1, <- app_assoc. f_equal.
      change (a :: apps) with ([a] ++ apps). now rewrite List.filter_app.
    + simpl. lia.
Qed.

End PassThrough.

(** [X13] What [mergeByBundle] returns.  The input objects among the
    returned ones are exactly the apps without a bundle identifier, in
    their order and by reference; every other returned object is new and
    has a non-empty bundle identifier; the result is never longer than the
    input. *)
Theorem mergeByBundle_returns_loose_apps_themselves :
  forall (Date_parse : string -> option Z) (st : store) (apps : list loc),
    Forall (fun a => a < length (objs st)) apps ->
    let res := mergeByBundle Date_parse st apps in
    List.filter (fun o => (o <? length (objs st))%nat) res.2
    = List.filter
        (fun a => negb (JsString.truthy (bundle_key (objs st !!! a)))) apps /\
    (forall o, In o res.2 -> length (objs st) <= o ->
       o < length (objs res.1) /\
       JsString.truthy (bundle_key (objs res.1 !!! o)) = true) /\
    length res.2 <= length apps.
Proof.
  intros Date_parse st apps Hall res. subst res.
  rewrite mergeByBundle_unfold. cbn [fst snd].
  pose proof (inv_loop st apps [] st [] Hall (inv_init st)) as I.
  destruct (merge_loop_inputs st apps [] st [] Hall (inv_init st)) as [H1 H2].
  change ([] ++ apps) with apps in I. revert I H1 H2.
  destruct (foldl merge_step (st, []) apps) as [st1 m] eqn:E. intros I H1 H2.
  cbn [fst snd] in *. unfold map_values.
  split; [exact H1|]. split; [|simpl in H2; now rewrite length_map].
  intros o Ho Hfresh. rewrite sort_loop_objs.
  apply in_map_iff in Ho as [[k o'] [Heq Hin]]. simpl in Heq. subst o'.
  destruct k as [b|i].
  - destruct (inv_str _ _ _ _ I b o Hin) as (Hr & Hk & Ht & _).
    split; [lia|]. now rewrite Hk.
  - destruct (inv_sym _ _ _ _ I i o Hin) as (Hin' & _).
    rewrite List.Forall_forall in Hall. apply Hall in Hin'. lia.
Qed.

Lemma mergeByBundle_returns_loose_apps_themselves_witness :
  let foo := mkApp (Some "com.x.y") "Foo" "" "" "" "a" None None in
  let bar := mkApp (Some " com.x.y ") "Bar" "" "" "" "b" None None in
  let other := mkApp None "Loose" "" "" "" "c" None None in
  let st := {| objs := [foo; other; bar]; arrs := [] |} in
  let res := mergeByBundle Sample.Date_parse st [0; 1; 2] in
  List.filter (fun o => (o <? 3)%nat) res.2 = [1] /\ length res.2 <= 3.
Proof.
  intros foo bar other st res.
  destruct (mergeByBundle_returns_loose_apps_themselves Sample.Date_parse st
              [0; 1; 2]) as (H1 & _ & H3).
  - repeat constructor.
  - split; [exact H1 | exact H3].
Defined.

(** [X14] What [mergeByBundle] leaves of its input.  No app object of the
    input is changed.  A version array of the input is changed only if an
    app without a bundle identifier holds it: the arrays of the apps that
    have one are copied before anything is pushed or sorted. *)
Theorem mergeByBundle_leaves_bundled_input :
  forall (Date_parse : string -> option Z) (st : store) (apps : list loc),
    Forall (fun a => a < length (objs st)) apps ->
    (forall o, o < length (objs st) ->
       objs (mergeByBundle Date_parse st apps).1 !!! o = objs st !!! o) /\
    (forall l, l < length (arrs st) ->
       (forall a, In a apps ->
          JsString.truthy (bundle_key (objs st !!! a)) = false ->
          versions (objs st !!! a) <> Some l) ->
       arrs (mergeByBundle Date_parse st apps).1 !!! l = arrs st !!! l).
Proof. exact mergeByBundle_frame. Qed.

Lemma mergeByBundle_leaves_bundled_input_witness :
  let one := mkApp (Some "com.x.y") "X" "" "" "" "s1" None (Some 0) in
  let two := mkApp (Some "com.x.y") "" "i.png" "" "" "s2" None (Some 1) in
  let st := {| objs := [one; two]; arrs := [[Examples.v1]; [Examples.v2]] |} in
  let res := mergeByBundle Sample.Date_parse st [0; 1] in
  objs res.1 !!! 0 = one /\ arrs res.1 !!! 0 = [Examples.v1] /\
  arrs res.1 !!! 1 = [Examples.v2].
Proof.
  intros one two st res.
  destruct (mergeByBundle_leaves_bundled_input Sample.Date_parse st [0; 1])
    as (Hobj & Harr).
  - repeat constructor.
  - split; [apply (Hobj 0); simpl; lia|].
    split; [apply (Harr 0) | apply (Harr 1)]; try (simpl; lia);
      intros a [<-|[<-|[]]]; discriminate.
Defined.

(** *** The merged version list *)

Lemma has_id_In id vs : has_id id vs = true <-> exists v, In v vs /\ ver_id v = id.
Proof.
  unfold has_id, hit. rewrite existsb_exists. split.
  - intros (v & Hin & Heq). apply String.eqb_eq in Heq. eauto.
  - intros (v & Hin & Heq). exists v. split; [exact Hin|].
    now apply String.eqb_eq.
Qed.

Lemma has_id_perm id vs ws :
  Permutation vs ws -> has_id id vs = has_id id ws.
Proof.
  intros Hp.
  destruct (has_id id vs) eqn:E1, (has_id id ws) eqn:E2; try reflexivity.
  - apply has_id_In in E1 as (v & Hin & Heq).
    assert (has_id id ws = true)
      by (apply has_id_In; exists v; split;
          [now apply (Permutation_in _ Hp) | exact Heq]).
    congruence.
  - apply has_id_In in E2 as (v & Hin & Heq).
    assert (has_id id vs = true)
      by (apply has_id_In; exists v; split;
          [now apply (Permutation_in _ (Permutation_sym Hp)) | exact Heq]).
    congruence.
Qed.

Lemma has_id_app id vs ws :
  has_id id (vs ++ ws) = has_id id vs || has_id id ws.
Proof. unfold has_id. apply existsb_app. Qed.

Lemma push_unseen_extends vs : forall acc seen,
  exists ext, push_unseen acc seen vs = acc ++ ext /\
              forall v, In v ext -> In v vs.
Proof.
  induction vs as [|v vs IH]; intros acc seen; simpl.
  - exists []. split; [now rewrite app_nil_r | intros v []].
  - destruct (set_has seen (ver_id v)).
    + destruct (IH acc seen) as (ext & H1 & H2).
      exists ext. split; [exact H1 | intros w Hw; right; now apply H2].
    + destruct (IH (acc ++ [v]) (seen ++ [ver_id v])) as (ext & H1 & H2).
      exists (v :: ext). split; [now rewrite H1, <- app_assoc|].
      intros w [<-|Hw]; [now left | right; now apply H2].
Qed.

Lemma push_unseen_nodup vs : forall acc,
  List.NoDup (map ver_id acc) ->
  List.NoDup (map ver_id (push_unseen acc (map ver_id acc) vs)).
Proof.
  induction vs as [|v vs IH]; intros acc Hnd; simpl; [exact Hnd|].
  destruct (set_has (map ver_id acc) (ver_id v)) eqn:E.
  - now apply IH.
  - replace (map ver_id acc ++ [ver_id v]) with (map ver_id (acc ++ [v]))
      by (now rewrite map_app).
    apply IH. rewrite map_app. simpl.
    apply (Permutation_NoDup (l := ver_id v :: map ver_id acc)).
    + rewrite Permutation_app_comm. reflexivity.
    + constructor; [|exact Hnd].
      intros Hin. rewrite set_has_ids in E.
      assert (has_id (ver_id v) acc = true); [|congruence].
      apply in_map_iff in Hin as (w & Hw & Hin).
      apply has_id_In. now exists w.
Qed.

Lemma merged_versions_spec rest : forall first,
  (forall id, has_id id (merged_versions (first :: rest))
              = has_id id (first ++ concat rest)) /\
  (exists ext, merged_versions (first :: rest) = first ++ ext /\
               forall v, In v ext -> In v (concat rest)) /\
  (List.NoDup (map ver_id first) ->
   List.NoDup (map ver_id (merged_versions (first :: rest)))).
Proof.
  induction rest as [|vs rest IH]; intros first.
  - simpl. rewrite app_nil_r. split; [reflexivity|]. split; [|auto].
    exists []. split; [now rewrite app_nil_r | intros v []].
  - change (merged_versions (first :: vs :: rest))
      with (merged_versions (push_unseen first (map ver_id first) vs :: rest)).
    destruct (IH (push_unseen first (map ver_id first) vs))
      as (H1 & (ext & H2 & H3) & H4).
    split; [|split].
    + intros id. rewrite H1. simpl concat.
      rewrite !has_id_app, push_unseen_has_id. now rewrite orb_assoc.
    + destruct (push_unseen_extends vs first (map ver_id first))
        as (ext0 & H5 & H6).
      exists (ext0 ++ ext). split; [now rewrite H2, H5, <- app_assoc|].
      intros v Hv. simpl. apply in_or_app.
      apply in_app_or in Hv as [Hv|Hv]; [left; now apply H6 | right; now apply H3].
    + intros Hnd. now apply H4, push_unseen_nodup.
Qed.

(** [X15] The version list of the merged app of a bundle, for a group
    whose version lists are [first :: rest] in encounter order.  The list
    holds every record of the first app and otherwise records of the later
    apps only; a key (version and address) occurs in it exactly when it
    occurs somewhere in the group; and when the first app lists no key
    twice, the merged list lists none twice. *)
Theorem mergeByBundle_versions_complete :
  forall (Date_parse : string -> option Z) (st : store) (apps : list loc)
         (b : string) (first : list version) (rest : list (list version)),
    Forall (valid_app st) apps ->
    JsString.truthy b = true ->
    group_versions st b apps = first :: rest ->
    exists o vs,
      merged_for (mergeByBundle Date_parse st apps).1 b
                 (mergeByBundle Date_parse st apps).2 = [o] /\
      versions (read_app (mergeByBundle Date_parse st apps).1 o) = Some vs /\
      (forall v, In v first -> In v vs) /\
      (forall v, In v vs -> In v (first ++ concat rest)) /\
      (forall id, has_id id vs = has_id id (first ++ concat rest)) /\
      (List.NoDup (map ver_id first) -> List.NoDup (map ver_id vs)).
Proof.
  intros Date_parse st apps b first rest Hval Hb Hgv.
  assert (Hg : group st b apps <> []).
  { intros H. unfold group_versions in Hgv. rewrite H in Hgv. discriminate. }
  destruct (mergeByBundle_versions Date_parse st apps b Hval Hb Hg)
    as (o & Hu & Hv).
  exists o, (sortVersions Date_parse (merged_versions (group_versions st b apps))).
  split; [exact Hu|]. split; [exact Hv|]. rewrite Hgv.
  destruct (merged_versions_spec rest first) as (H1 & (ext & H2 & H3) & H4).
  pose proof (SortFacts.sort_perm
                (fun x y => JsArray.positive (versionCompare Date_parse x y))
                (merged_versions (first :: rest))) as Hp.
  fold (sortVersions Date_parse (merged_versions (first :: rest))) in Hp.
  split; [|split; [|split]].
  - intros v Hin. apply (Permutation_in _ (Permutation_sym Hp)).
    rewrite H2. apply in_or_app. now left.
  - intros v Hin. apply (Permutation_in _ Hp) in Hin. rewrite H2 in Hin.
    apply in_or_app. apply in_app_or in Hin as [Hin|Hin]; [now left|].
    right. now apply H3.
  - intros id. now rewrite (has_id_perm id _ _ Hp).
  - intros Hnd.
    apply (Permutation_NoDup
             (l := map ver_id (merged_versions (first :: rest)))).
    + symmetry. now apply Permutation_map.
    + now apply H4.
Qed.

Lemma mergeByBundle_versions_complete_witness :
  let one := mkApp (Some "com.x.y") "X" "" "" "" "s1" None (Some 0) in
  let two := mkApp (Some "com.x.y") "" "" "" "" "s2" None (Some 1) in
  let st := {| objs := [one; two];
               arrs := [[Examples.v1]; [Examples.v1; Examples.v2]] |} in
  exists o vs,
    merged_for (mergeByBundle Sample.Date_parse st [0; 1]).1 "com.x.y"
               (mergeByBundle Sample.Date_parse st [0; 1]).2 = [o] /\
    versions (read_app (mergeByBundle Sample.Date_parse st [0; 1]).1 o)
      = Some vs /\
    In Examples.v1 vs /\ has_id (ver_id Examples.v2) vs = true /\
    List.NoDup (map ver_id vs).
Proof.
  intros one two st.
  destruct (mergeByBundle_versions_complete Sample.Date_parse st [0; 1]
              "com.x.y" [Examples.v1] [[Examples.v1; Examples.v2]])
    as (o & vs & Hu & Hv & Hfirst & _ & Hid & Hnd).
  - constructor; [|constructor; [|constructor]];
      (split; [simpl; lia | intros l [= <-]; simpl; lia]).
  - reflexivity.
  - reflexivity.
  - exists o, vs. split; [exact Hu|]. split; [exact Hv|].
    split; [apply Hfirst; now left|].
    split; [now rewrite Hid|].
    apply Hnd. repeat constructor; simpl; tauto.
Defined.

End MergeMore.

(** ** Sorting with a comparator that is consistent on the elements at hand *)

Module SortOn.
Import JsArray.

Section Sort.
Context {A : Type} (gt : A -> A -> bool) (P : A -> Prop).

Local Abbreviation ordered := (JsArray.ordered gt).

Hypothesis gt_total : forall x y, P x -> P y -> gt x y = true -> gt y x = false.
Hypothesis gt_trans : forall x y z, P x -> P y -> P z ->
  ordered x y -> ordered y z -> ordered x z.

Lemma insert_sorted_sorted_on x l :
  P x -> List.Forall P l ->
  StronglySorted ordered l -> StronglySorted ordered (insert_sorted gt x l).
Proof.
  intros Hx Hl Hs. induction Hs as [|y l Hs IH Hall]; simpl.
  - repeat constructor.
  - inversion Hl as [|? ? Hy Hl']; subst.
    rewrite List.Forall_forall in Hall, Hl'.
    destruct (gt x y) eqn:E.
    + constructor; [now apply IH; apply List.Forall_forall|].
      apply List.Forall_forall. intros z Hz.
      apply (Permutation_in _ (SortFacts.insert_sorted_perm gt x l)) in Hz.
      destruct Hz as [<-|Hz]; [now apply gt_total | now apply Hall].
    + constructor; [constructor; [exact Hs | now apply List.Forall_forall]|].
      constructor; [exact E|].
      apply List.Forall_forall. intros z Hz.
      apply (gt_trans x y z); auto.
Qed.

Lemma sort_sorted_on l :
  List.Forall P l -> StronglySorted ordered (sort gt l).
Proof.
  induction l as [|x l IH]; intros Hl; simpl; [constructor|].
  inversion Hl as [|? ? Hx Hl']; subst.
  apply insert_sorted_sorted_on; [exact Hx| |now apply IH].
  apply List.Forall_forall. intros z Hz. apply SortFacts.sort_In in Hz.
  rewrite List.Forall_forall in Hl'. now apply Hl'.
Qed.

End Sort.

Lemma sorted_weaken_on {A : Type} (P : A -> Prop) (R R' : A -> A -> Prop)
      (l : list A) :
  (forall a b, P a -> P b -> R a b -> R' a b) ->
  List.Forall P l -> StronglySorted R l -> StronglySorted R' l.
Proof.
  intros Himp Hl Hs. induction Hs as [|x l Hs IH Hall]; constructor.
  - apply IH. now inversion Hl.
  - inversion Hl as [|? ? Hx Hl']; subst.
    rewrite List.Forall_forall in *. intros z Hz. apply Himp; auto.
Qed.

End SortOn.

(** ** The version sort of [mergeByBundle] *)

Module VersionOrder.
Import Catalog Merge MergeSpec VersionsSpec MergeInv MergeFacts Orders.
Local Open Scope list_scope.

Section WithDateParse.
Variable Date_parse : string -> option Z.

Local Abbreviation gt :=
  (fun x y => JsArray.positive (versionCompare Date_parse x y)).
Local Abbreviation well_dated := (Orders.well_dated Date_parse).
Local Abbreviation newest_first := (Orders.newest_first Date_parse).

Lemma ordered_newest_first x y :
  well_dated x -> well_dated y ->
  (JsArray.ordered gt x y <-> newest_first x y).
Proof.
  unfold Orders.well_dated, JsArray.ordered, Orders.newest_first,
    versionCompare.
  intros Hx Hy.
  destruct (date_of Date_parse x) as [[tx|]|], (date_of Date_parse y) as [[ty|]|];
    try congruence; simpl; rewrite ?Z.ltb_ge; try tauto; try lia.
  rewrite (UtilsFacts.semverCompare_swap (ver_version y) (ver_version x)).
  lia.
Qed.

Lemma gt_total_on x y :
  well_dated x -> well_dated y -> gt x y = true -> gt y x = false.
Proof.
  unfold Orders.well_dated, versionCompare. intros Hx Hy.
  destruct (date_of Date_parse x) as [[tx|]|], (date_of Date_parse y) as [[ty|]|];
    try congruence; simpl; rewrite ?Z.ltb_lt, ?Z.ltb_ge; try lia;
    try discriminate.
  rewrite (UtilsFacts.semverCompare_swap (ver_version y) (ver_version x)).
  lia.
Qed.

Lemma newest_first_trans x y z :
  well_dated x -> well_dated y -> well_dated z ->
  newest_first x y -> newest_first y z -> newest_first x z.
Proof.
  unfold Orders.well_dated, Orders.newest_first. intros Hx Hy Hz.
  destruct (date_of Date_parse x) as [[tx|]|], (date_of Date_parse y) as [[ty|]|],
    (date_of Date_parse z) as [[tz|]|];
    try congruence; try tauto; try lia.
  intros H1 H2.
  pose proof (SemverOrder.semverCompare_order (ver_version z) (ver_version y)
                (ver_version x)) as Ht.
  rewrite (UtilsFacts.semverCompare_swap (ver_version x) (ver_version y)) in H1.
  rewrite (UtilsFacts.semverCompare_swap (ver_version y) (ver_version z)) in H2.
  rewrite (UtilsFacts.semverCompare_swap (ver_version x) (ver_version z)).
  lia.
Qed.

Lemma sortVersions_newest_first vs :
  List.Forall well_dated vs ->
  StronglySorted newest_first (sortVersions Date_parse vs).
Proof.
  intros Hall.
  apply (SortOn.sorted_weaken_on well_dated (JsArray.ordered gt)).
  - intros a b Ha Hb. now apply ordered_newest_first.
  - apply List.Forall_forall. intros v Hv. apply SortFacts.sort_In in Hv.
    rewrite List.Forall_forall in Hall. now apply Hall.
  - apply (SortOn.sort_sorted_on gt well_dated); [| |exact Hall].
    + apply gt_total_on.
    + intros x y z Hx Hy Hz H1 H2.
      apply ordered_newest_first in H1, H2; auto.
      apply ordered_newest_first; auto.
      now apply (newest_first_trans x y z).
Qed.

End WithDateParse.

(** [X16] The version list of a merged app is in order when no date of the
    group is garbled.  If every version record of the group has no date,
    an empty one, or one that [new Date] accepts, then in the merged list
    the dated records come first, newest first, and the undated ones
    after them in descending order of their version strings. *)
Theorem mergeByBundle_versions_newest_first :
  forall (Date_parse : string -> option Z) (st : store) (apps : list loc)
         (b : string),
    Forall (valid_app st) apps ->
    JsString.truthy b = true ->
    group st b apps <> [] ->
    List.Forall (List.Forall (Orders.well_dated Date_parse))
                (group_versions st b apps) ->
    exists o vs,
      merged_for (mergeByBundle Date_parse st apps).1 b
                 (mergeByBundle Date_parse st apps).2 = [o] /\
      versions (read_app (mergeByBundle Date_parse st apps).1 o) = Some vs /\
      StronglySorted (Orders.newest_first Date_parse) vs.
Proof.
  intros Date_parse st apps b Hval Hb Hg Hclean.
  destruct (mergeByBundle_versions Date_parse st apps b Hval Hb Hg)
    as (o & Hu & Hv).
  exists o, (sortVersions Date_parse (merged_versions (group_versions st b apps))).
  split; [exact Hu|]. split; [exact Hv|].
  apply sortVersions_newest_first.
  destruct (group_versions st b apps) as [|first rest] eqn:Hgv.
  - constructor.
  - destruct (MergeMore.merged_versions_spec rest first)
      as (_ & (ext & H2 & H3) & _).
    apply List.Forall_forall. intros v Hin. rewrite H2 in Hin.
    assert (Hsrc : In v (concat (first :: rest))).
    { simpl. apply in_or_app. apply in_app_or in Hin as [Hin|Hin];
        [now left | right; now apply H3]. }
    apply in_concat in Hsrc as (l & Hl & Hvl).
    rewrite List.Forall_forall in Hclean. specialize (Hclean l Hl).
    rewrite List.Forall_forall in Hclean. now apply Hclean.
Qed.

Lemma mergeByBundle_versions_newest_first_witness :
  let old := mkVersion "3.0" (Some "2022-05-01") "u3" "" in
  let new := mkVersion "2.5" (Some "2023-01-01") "u25" "" in
  let one := mkApp (Some "com.x.y") "X" "" "" "" "s1" None (Some 0) in
  let two := mkApp (Some "com.x.y") "" "" "" "" "s2" None (Some 1) in
  let st := {| objs := [one; two];
               arrs := [[Examples.v1; old]; [Examples.v2; new]] |} in
  exists o,
    merged_for (mergeByBundle Sample.Date_parse st [0; 1]).1 "com.x.y"
               (mergeByBundle Sample.Date_parse st [0; 1]).2 = [o] /\
    versions (read_app (mergeByBundle Sample.Date_parse st [0; 1]).1 o)
      = Some [new; old; Examples.v2; Examples.v1].
Proof.
  intros old new one two st.
  destruct (mergeByBundle_versions_newest_first Sample.Date_parse st [0; 1]
              "com.x.y") as (o & vs & Hu & Hv & _).
  - constructor; [|constructor; [|constructor]];
      (split; [simpl; lia | intros l [= <-]; simpl; lia]).
  - reflexivity.
  - discriminate.
  - repeat constructor; discriminate.
  - exists o. split; [exact Hu|].
    assert (o = 2) as -> by (vm_compute in Hu; congruence).
    reflexivity.
Defined.

End VersionOrder.

(** ** The order of the grid *)

Module GridOrder.
Import Catalog Controller Orders.
Local Open Scope list_scope.

Section WithPlatform.
Variable Date_parse : string -> option Z.
Variable localeCompare : string -> string -> Z.

(** What the sorts need of [localeCompare]: it never puts two names each
    after the other, and "not after" is transitive. *)
Hypothesis lc_antisym : forall a b,
  (0 < localeCompare a b -> localeCompare b a <= 0)%Z.
Hypothesis lc_trans : forall a b c,
  (localeCompare a b <= 0 -> localeCompare b c <= 0 ->
   localeCompare a c <= 0)%Z.

Local Abbreviation sortApps := (Controller.sortApps Date_parse localeCompare).
Local Abbreviation mode_order := (Orders.mode_order Date_parse localeCompare).
Local Abbreviation getLatestDate := (Controller.getLatestDate Date_parse).

Lemma sort_with_sorted (cmp : item -> item -> Z) apps :
  (forall x y, (0 < cmp x y -> cmp y x <= 0)%Z) ->
  (forall x y z, (cmp x y <= 0 -> cmp y z <= 0 -> cmp x z <= 0)%Z) ->
  StronglySorted (fun x y => (cmp x y <= 0)%Z) (sort_with cmp apps).
Proof.
  intros Hanti Htrans. unfold sort_with.
  eapply SortFacts.sorted_weaken;
    [|apply (SortFacts.sort_sorted (fun a b => (0 <? cmp a b)%Z))].
  - intros a b H. unfold JsArray.ordered in H. now apply Z.ltb_ge in H.
  - intros x y H. apply Z.ltb_lt in H. apply Z.ltb_ge. now apply Hanti.
  - intros x y z H1 H2. unfold JsArray.ordered in *.
    apply Z.ltb_ge in H1, H2. apply Z.ltb_ge. now apply (Htrans x y z).
Qed.

Lemma byVerDesc_anti x y :
  (0 < byVerDesc Date_parse localeCompare x y ->
   byVerDesc Date_parse localeCompare y x <= 0)%Z.
Proof.
  unfold byVerDesc.
  destruct (getLatestDate x), (getLatestDate y); try lia. apply lc_antisym.
Qed.

Lemma byVerDesc_trans x y z :
  (byVerDesc Date_parse localeCompare x y <= 0 ->
   byVerDesc Date_parse localeCompare y z <= 0 ->
   byVerDesc Date_parse localeCompare x z <= 0)%Z.
Proof.
  unfold byVerDesc.
  destruct (getLatestDate x), (getLatestDate y), (getLatestDate z);
    try lia. apply lc_trans.
Qed.

Lemma byVerAsc_anti x y :
  (0 < byVerAsc Date_parse localeCompare x y ->
   byVerAsc Date_parse localeCompare y x <= 0)%Z.
Proof.
  unfold byVerAsc.
  destruct (getLatestDate x), (getLatestDate y); try lia. apply lc_antisym.
Qed.

Lemma byVerAsc_trans x y z :
  (byVerAsc Date_parse localeCompare x y <= 0 ->
   byVerAsc Date_parse localeCompare y z <= 0 ->
   byVerAsc Date_parse localeCompare x z <= 0)%Z.
Proof.
  unfold byVerAsc.
  destruct (getLatestDate x), (getLatestDate y), (getLatestDate z);
    try lia. apply lc_trans.
Qed.

Lemma sortApps_mode_order apps mode :
  StronglySorted (mode_order mode) (sortApps apps mode).
Proof.
  unfold Controller.sortApps, Orders.mode_order.
  destruct (String.eqb mode "name-desc").
  { apply (sort_with_sorted (byNameDesc localeCompare)); unfold byNameDesc.
    - intros x y. apply lc_antisym.
    - intros x y z H1 H2. now apply (lc_trans _ (item_name y)). }
  destruct (String.eqb mode "version-desc").
  { eapply SortFacts.sorted_weaken;
      [|apply (sort_with_sorted (byVerDesc Date_parse localeCompare));
        [apply byVerDesc_anti | apply byVerDesc_trans]].
    intros a b. unfold byVerDesc.
    destruct (getLatestDate a), (getLatestDate b); try lia; tauto. }
  destruct (String.eqb mode "version-asc").
  { eapply SortFacts.sorted_weaken;
      [|apply (sort_with_sorted (byVerAsc Date_parse localeCompare));
        [apply byVerAsc_anti | apply byVerAsc_trans]].
    intros a b. unfold byVerAsc.
    destruct (getLatestDate a), (getLatestDate b); try lia; tauto. }
  apply (sort_with_sorted (byNameAsc localeCompare)); unfold byNameAsc.
  - intros x y. apply lc_antisym.
  - intros x y z. apply lc_trans.
Qed.

Lemma sortApps_perm apps mode : Permutation (sortApps apps mode) apps.
Proof.
  unfold Controller.sortApps, sort_with.
  repeat match goal with |- context [if ?c then _ else _] => destruct c end;
    apply SortFacts.sort_perm.
Qed.

End WithPlatform.

Lemma sample_lc_antisym a b :
  (0 < Sample.localeCompare a b -> Sample.localeCompare b a <= 0)%Z.
Proof.
  unfold Sample.localeCompare. rewrite (String.compare_antisym b a).
  destruct (String.compare a b); simpl; lia.
Qed.

Lemma string_compare_refl c : String.compare c c = Eq.
Proof.
  pose proof (String.compare_antisym c c) as H.
  destruct (String.compare c c); simpl in H; congruence.
Qed.

Lemma sample_lc_trans a b c :
  (Sample.localeCompare a b <= 0 -> Sample.localeCompare b c <= 0 ->
   Sample.localeCompare a c <= 0)%Z.
Proof.
  unfold Sample.localeCompare.
  destruct (String.compare a b) eqn:E1; try lia;
    destruct (String.compare b c) eqn:E2; try lia; intros _ _.
  - apply String.compare_eq_iff in E1, E2. subst.
    rewrite string_compare_refl. lia.
  - apply String.compare_eq_iff in E1. subst. rewrite E2. lia.
  - apply String.compare_eq_iff in E2. subst. rewrite E1. lia.
  - rewrite (SemverOrder.string_compare_trans a b c E1 E2). lia.
Qed.

(** [X17] [sortApps] puts the grid in the order of its mode, for any
    number of apps, as long as [localeCompare] is a consistent order on
    names.  The result holds the apps of the input, each as often as
    before.  By name, ascending (also under an unknown mode) or descending;
    in [version-desc], the apps whose leading version has a date that
    parses first, newest first, and the others after them by name; in
    [version-asc], the undated apps first, by name, and the dated ones
    after them, oldest first. *)
Theorem sortApps_sorted_in_mode :
  forall (Date_parse : string -> option Z)
         (localeCompare : string -> string -> Z),
    (forall a b, (0 < localeCompare a b -> localeCompare b a <= 0)%Z) ->
    (forall a b c, (localeCompare a b <= 0 -> localeCompare b c <= 0 ->
                    localeCompare a c <= 0)%Z) ->
    forall (apps : list item) (mode : string),
      Permutation (sortApps Date_parse localeCompare apps mode) apps /\
      StronglySorted (mode_order Date_parse localeCompare mode)
                     (sortApps Date_parse localeCompare apps mode).
Proof.
  intros Date_parse localeCompare Hanti Htrans apps mode. split.
  - apply sortApps_perm.
  - now apply sortApps_mode_order.
Qed.

Lemma sortApps_sorted_in_mode_witness :
  StronglySorted (mode_order Sample.Date_parse Sample.localeCompare "version-desc")
    (sortApps Sample.Date_parse Sample.localeCompare
       [Examples.undated_item; Examples.dated_item; Examples.exact_app]
       "version-desc") /\
  sortApps Sample.Date_parse Sample.localeCompare
    [Examples.undated_item; Examples.dated_item; Examples.exact_app]
    "version-desc"
  = [Examples.dated_item; Examples.exact_app; Examples.undated_item].
Proof.
  split; [|reflexivity].
  apply (sortApps_sorted_in_mode Sample.Date_parse Sample.localeCompare
           sample_lc_antisym sample_lc_trans).
Defined.

End GridOrder.

(** ** The order of the detail page's version selector *)

Module RecordOrder.
Import Catalog Detail Orders.
Local Open Scope list_scope.

Section WithDateParse.
Variable Date_parse : string -> option Z.

Local Abbreviation compareRecords := (Detail.compareRecords Date_parse).
Local Abbreviation sortRecords := (Detail.sortRecords Date_parse).
Local Abbreviation record_time := (Orders.record_time Date_parse).

Lemma compareRecords_dated a b ta tb :
  record_time a = Some ta -> record_time b = Some tb ->
  compareRecords a b = (tb - ta)%Z.
Proof.
  unfold Orders.record_time, Detail.compareRecords. now intros -> ->.
Qed.

Lemma compareRecords_undated a b :
  record_time a = None \/ record_time b = None ->
  compareRecords a b = Utils.semverCompare (ver_version b) (ver_version a).
Proof.
  unfold Orders.record_time, Detail.compareRecords.
  intros [H|H]; rewrite H; [reflexivity|].
  now destruct (Utils.parseDateString Date_parse (date_value (ver_date a))).
Qed.

Lemma sortRecords_all_dated vs :
  List.Forall (fun v => record_time v <> None) vs ->
  StronglySorted
    (fun x y => exists tx ty, record_time x = Some tx /\
                              record_time y = Some ty /\ (ty <= tx)%Z)
    (sortRecords vs).
Proof.
  intros Hall. unfold Detail.sortRecords.
  apply (SortOn.sorted_weaken_on (fun v => record_time v <> None)
           (JsArray.ordered (fun a b => (0 <? compareRecords a b)%Z))).
  - intros a b Ha Hb H. unfold JsArray.ordered in H. apply Z.ltb_ge in H.
    destruct (record_time a) as [ta|] eqn:Ea; [|congruence].
    destruct (record_time b) as [tb|] eqn:Eb; [|congruence].
    rewrite (compareRecords_dated a b ta tb Ea Eb) in H.
    exists ta, tb. repeat split; lia.
  - apply List.Forall_forall. intros v Hv. apply SortFacts.sort_In in Hv.
    rewrite List.Forall_forall in Hall. now apply Hall.
  - apply (SortOn.sort_sorted_on _ (fun v => record_time v <> None));
      [| |exact Hall].
    + intros x y Hx Hy.
      destruct (record_time x) as [tx|] eqn:Ex; [|congruence].
      destruct (record_time y) as [ty|] eqn:Ey; [|congruence].
      rewrite (compareRecords_dated x y tx ty Ex Ey),
              (compareRecords_dated y x ty tx Ey Ex).
      rewrite Z.ltb_lt, Z.ltb_ge. lia.
    + intros x y z Hx Hy Hz. unfold JsArray.ordered.
      destruct (record_time x) as [tx|] eqn:Ex; [|congruence].
      destruct (record_time y) as [ty|] eqn:Ey; [|congruence].
      destruct (record_time z) as [tz|] eqn:Ez; [|congruence].
      rewrite (compareRecords_dated x y tx ty Ex Ey),
              (compareRecords_dated y z ty tz Ey Ez),
              (compareRecords_dated x z tx tz Ex Ez).
      rewrite !Z.ltb_ge. lia.
Qed.

Lemma sortRecords_none_dated vs :
  List.Forall (fun v => record_time v = None) vs ->
  StronglySorted
    (fun x y =>
       (Utils.semverCompare (ver_version x) (ver_version y) >= 0)%Z)
    (sortRecords vs).
Proof.
  intros Hall. unfold Detail.sortRecords.
  apply (SortOn.sorted_weaken_on (fun v => record_time v = None)
           (JsArray.ordered (fun a b => (0 <? compareRecords a b)%Z))).
  - intros a b Ha Hb H. unfold JsArray.ordered in H. apply Z.ltb_ge in H.
    rewrite (compareRecords_undated a b (or_introl Ha)) in H.
    rewrite (UtilsFacts.semverCompare_swap (ver_version a) (ver_version b)).
    lia.
  - apply List.Forall_forall. intros v Hv. apply SortFacts.sort_In in Hv.
    rewrite List.Forall_forall in Hall. now apply Hall.
  - apply (SortOn.sort_sorted_on _ (fun v => record_time v = None));
      [| |exact Hall].
    + intros x y Hx Hy.
      rewrite (compareRecords_undated x y (or_introl Hx)),
              (compareRecords_undated y x (or_introl Hy)).
      rewrite Z.ltb_lt, Z.ltb_ge.
      rewrite (UtilsFacts.semverCompare_swap (ver_version x) (ver_version y)).
      lia.
    + intros x y z Hx Hy Hz. unfold JsArray.ordered.
      rewrite (compareRecords_undated x y (or_introl Hx)),
              (compareRecords_undated y z (or_introl Hy)),
              (compareRecords_undated x z (or_introl Hx)).
      rewrite !Z.ltb_ge. intros H1 H2.
      now apply (SemverOrder.semverCompare_order (ver_version z)
                   (ver_version y) (ver_version x)).
Qed.

End WithDateParse.

(** [X18] The detail page's version selector is in order when the records
    are all dated or all undated.  If every record's date parses, the
    sorted list runs from the newest to the oldest; if none does, it runs
    in descending order of the version strings. *)
Theorem sortRecords_uniform_lists :
  forall (Date_parse : string -> option Z) (vs : list version),
    (List.Forall (fun v => record_time Date_parse v <> None) vs ->
     StronglySorted
       (fun x y => exists tx ty, record_time Date_parse x = Some tx /\
                                 record_time Date_parse y = Some ty /\
                                 (ty <= tx)%Z)
       (sortRecords Date_parse vs)) /\
    (List.Forall (fun v => record_time Date_parse v = None) vs ->
     StronglySorted
       (fun x y =>
          (Utils.semverCompare (ver_version x) (ver_version y) >= 0)%Z)
       (sortRecords Date_parse vs)) /\
    Permutation (sortRecords Date_parse vs) vs.
Proof.
  intros Date_parse vs. split; [|split].
  - apply sortRecords_all_dated.
  - apply sortRecords_none_dated.
  - apply SortFacts.sort_perm.
Qed.

Lemma sortRecords_uniform_lists_witness :
  StronglySorted
    (fun x y =>
       (Utils.semverCompare (ver_version x) (ver_version y) >= 0)%Z)
    (sortRecords Sample.Date_parse
       [Examples.v1; Examples.undated_newer; Examples.v2]) /\
  sortRecords Sample.Date_parse
    [Examples.v1; Examples.undated_newer; Examples.v2]
  = [Examples.undated_newer; Examples.v2; Examples.v1].
Proof.
  split; [|reflexivity].
  apply (proj1 (proj2 (sortRecords_uniform_lists Sample.Date_parse
                         [Examples.v1; Examples.undated_newer; Examples.v2]))).
  repeat constructor.
Defined.

(** [X19] With dated and undated records mixed the detail page's
    comparator is not an order.  Take two dated records, [a] newer than
    [b], and an undated record [c] whose version string lies strictly
    between theirs, above [a]'s and below [b]'s.  Then the comparator puts
    [a] before [b] (by date), [b] before [c] and [c] before [a] (by
    version): a cycle.  So no list that holds the three records is in the
    comparator's order: whatever a sort makes of them, some record stands
    before one that the comparator wants in front of it. *)
Theorem compareRecords_cycle :
  forall (Date_parse : string -> option Z) (a b c : version) (ta tb : Z),
    record_time Date_parse a = Some ta ->
    record_time Date_parse b = Some tb ->
    record_time Date_parse c = None ->
    (tb < ta)%Z ->
    (Utils.semverCompare (ver_version a) (ver_version c) < 0)%Z ->
    (Utils.semverCompare (ver_version c) (ver_version b) < 0)%Z ->
    (compareRecords Date_parse a b < 0)%Z /\
    (compareRecords Date_parse b c < 0)%Z /\
    (compareRecords Date_parse c a < 0)%Z /\
    forall l : list version,
      In a l -> In b l -> In c l ->
      ~ StronglySorted (fun x y => (compareRecords Date_parse x y <= 0)%Z) l.
Proof.
  intros Date_parse a b c ta tb Ha Hb Hc Ht Hac Hcb.
  assert (Hab : (compareRecords Date_parse a b < 0)%Z)
    by (rewrite (compareRecords_dated Date_parse a b ta tb Ha Hb); lia).
  assert (Hbc : (compareRecords Date_parse b c < 0)%Z)
    by (now rewrite (compareRecords_undated Date_parse b c (or_intror Hc))).
  assert (Hca : (compareRecords Date_parse c a < 0)%Z)
    by (now rewrite (compareRecords_undated Date_parse c a (or_introl Hc))).
  split; [exact Hab|]. split; [exact Hbc|]. split; [exact Hca|].
  intros l Ia Ib Ic Hs.
  assert (Hba : ~ (compareRecords Date_parse b a <= 0)%Z)
    by (rewrite (compareRecords_dated Date_parse b a tb ta Hb Ha); lia).
  assert (Hcb' : ~ (compareRecords Date_parse c b <= 0)%Z).
  { rewrite (compareRecords_undated Date_parse c b (or_introl Hc)),
      (UtilsFacts.semverCompare_swap (ver_version b) (ver_version c)). lia. }
  assert (Hac' : ~ (compareRecords Date_parse a c <= 0)%Z).
  { rewrite (compareRecords_undated Date_parse a c (or_intror Hc)),
      (UtilsFacts.semverCompare_swap (ver_version c) (ver_version a)). lia. }
  assert (Nab : a <> b) by (intros ->; rewrite Ha in Hb; injection Hb; lia).
  assert (Nbc : b <> c) by (intros ->; congruence).
  assert (Nca : c <> a) by (intros ->; congruence).
  apply list_elem_of_In, list_elem_of_lookup_1 in Ia as [ia Ia].
  apply list_elem_of_In, list_elem_of_lookup_1 in Ib as [ib Ib].
  apply list_elem_of_In, list_elem_of_lookup_1 in Ic as [ic Ic].
  pose proof (SortFacts.sorted_positions _ l ia ib a b Hs Ia Ib Hba Nab).
  pose proof (SortFacts.sorted_positions _ l ib ic b c Hs Ib Ic Hcb' Nbc).
  pose proof (SortFacts.sorted_positions _ l ic ia c a Hs Ic Ia Hac' Nca).
  lia.
Qed.

Lemma compareRecords_cycle_witness :
  let a := mkVersion "1.0" (Some "2023-01-01") "u1" "" in
  let b := mkVersion "3.0" (Some "2022-01-01") "u3" "" in
  let c := mkVersion "2.0" None "u2" "" in
  (compareRecords Sample.Date_parse a b < 0)%Z /\
  ~ StronglySorted
      (fun x y => (compareRecords Sample.Date_parse x y <= 0)%Z) [a; b; c].
Proof.
  intros a b c.
  destruct (compareRecords_cycle Sample.Date_parse a b c
              1672531200000 1640995200000)
    as (Hab & _ & _ & Hnone); try reflexivity.
  split; [exact Hab|].
  apply Hnone; simpl; auto.
Defined.

End RecordOrder.

(** ** More about [searchApps] and [filterAndPrepare] *)

Module SearchMore.
Import Catalog Search Controller.
Local Open Scope list_scope.

Section WithFuse.
Variable Fuse_search : list item -> string -> nat -> list fuse_result.
Variable allApps : list item.
Variable fuse_search : string -> nat -> list fuse_result.

Local Abbreviation searchApps := (Search.searchApps Fuse_search allApps fuse_search).

Lemma searchApps_length q appsToSearch limit :
  length (searchApps q appsToSearch limit) <= limit.
Proof.
  unfold Search.searchApps, JsArray.slice0.
  destruct (negb (JsString.truthy (JsString.trim q)));
    rewrite ?length_map, length_take; lia.
Qed.

Lemma searchApps_trim q appsToSearch limit :
  searchApps (JsString.trim q) appsToSearch limit
  = searchApps q appsToSearch limit.
Proof. unfold Search.searchApps. now rewrite TrimFacts.trim_idem. Qed.

Lemma searchApps_from_raw q appsToSearch limit :
  JsString.truthy (JsString.trim q) = true ->
  let raw := match appsToSearch with
             | Some docs => Fuse_search docs (JsString.trim q) (limit * 2)
             | None => fuse_search (JsString.trim q) (limit * 2)
             end in
  (forall it, In it (searchApps q appsToSearch limit) -> In it (map fst raw)) /\
  (length raw <= limit ->
   Permutation (searchApps q appsToSearch limit) (map fst raw)).
Proof.
  intros Hq raw. rewrite (SearchFacts.searchApps_query _ _ _ _ _ _ Hq).
  fold raw.
  set (scored := map (score_one (JsString.toLowerCase (JsString.trim q))) raw).
  set (sorted := JsArray.sort (fun a b => positive (by_rel a b)) scored).
  assert (Hp : Permutation (map fst sorted) (map fst raw)).
  { transitivity (map fst scored).
    - apply Permutation_map, SortFacts.sort_perm.
    - unfold scored. rewrite map_map. reflexivity. }
  split.
  - intros it Hin. apply (Permutation_in _ Hp).
    apply in_map_iff in Hin as (r & Hr & Hin).
    apply in_map_iff. exists r. split; [exact Hr|].
    rewrite <- (firstn_skipn limit sorted). apply in_or_app. now left.
  - intros Hlen. rewrite firstn_all2; [exact Hp|].
    unfold sorted. rewrite SortFacts.sort_length. unfold scored.
    now rewrite length_map.
Qed.

End WithFuse.

(** [X20] [searchApps] never returns more than [limit] items, and white
    space around the query does not matter.  For a blank query the result
    is the first [limit] apps of the list searched, whatever the matcher
    would say.  For any other query every item returned is one the matcher
    returned, and when the matcher returned no more than [limit] results
    each of them is returned, as often as the matcher gave it. *)
Theorem searchApps_within_limit :
  forall (Fuse_search : list item -> string -> nat -> list fuse_result)
         (allApps : list item)
         (fuse_search : string -> nat -> list fuse_result)
         (q : string) (appsToSearch : option (list item)) (limit : nat),
    let out := searchApps Fuse_search allApps fuse_search q appsToSearch limit in
    let raw := match appsToSearch with
               | Some docs => Fuse_search docs (JsString.trim q) (limit * 2)
               | None => fuse_search (JsString.trim q) (limit * 2)
               end in
    length out <= limit /\
    searchApps Fuse_search allApps fuse_search (JsString.trim q)
               appsToSearch limit = out /\
    (JsString.trim q = "" ->
     out = take limit (default allApps appsToSearch)) /\
    (JsString.trim q <> "" ->
     (forall it, In it out -> In it (map fst raw)) /\
     (length raw <= limit -> Permutation out (map fst raw))).
Proof.
  intros Fuse_search allApps fuse_search q appsToSearch limit out raw.
  split; [apply searchApps_length|].
  split; [apply searchApps_trim|].
  split.
  - intros Hq. subst out. unfold searchApps. now rewrite Hq.
  - intros Hq. apply searchApps_from_raw.
    destruct (JsString.trim q); [congruence | reflexivity].
Qed.

Lemma searchApps_within_limit_witness :
  searchApps Examples.two_hits [] (fun _ _ => []) "  "
             (Some [Examples.exact_app; Examples.prefix_app]) 1
    = [Examples.exact_app] /\
  Permutation
    (searchApps Examples.two_hits [] (fun _ _ => []) " exactname "
                (Some [Examples.exact_app; Examples.prefix_app]) 2)
    [Examples.prefix_app; Examples.exact_app].
Proof.
  destruct (searchApps_within_limit Examples.two_hits [] (fun _ _ => []) "  "
              (Some [Examples.exact_app; Examples.prefix_app]) 1)
    as (_ & _ & Hblank & _).
  destruct (searchApps_within_limit Examples.two_hits [] (fun _ _ => [])
              " exactname "
              (Some [Examples.exact_app; Examples.prefix_app]) 2)
    as (_ & _ & _ & Hquery).
  split.
  - apply Hblank. reflexivity.
  - apply Hquery; [discriminate | simpl; lia].
Defined.

Section WithPlatform.
Variable Date_parse : string -> option Z.
Variable localeCompare : string -> string -> Z.
Variable Fuse_search : list item -> string -> nat -> list fuse_result.
Variable allApps : list item.
Variable fuse_search : string -> nat -> list fuse_result.

Local Abbreviation candidates :=
  (Controller.candidates Fuse_search allApps fuse_search).
Local Abbreviation filterAndPrepare :=
  (Controller.filterAndPrepare Date_parse localeCompare Fuse_search allApps
                               fuse_search).

Lemma filterAndPrepare_list st :
  st_list (filterAndPrepare st) =
  Controller.sortApps Date_parse localeCompare
    (if is_version_mode (st_sort st)
     then List.filter (has_date Date_parse) (candidates st)
     else candidates st) (st_sort st).
Proof. reflexivity. Qed.

Lemma filter_length_le {A : Type} (f : A -> bool) (l : list A) :
  length (List.filter f l) <= length l.
Proof.
  induction l as [|x l IH]; simpl; [lia|]. destruct (f x); simpl; lia.
Qed.

End WithPlatform.

(** [X21] What [filterAndPrepare] puts into [state.list].  The list holds
    the candidates (under a version mode: those whose date parses), each
    as often as before, in the order of the sort mode when [localeCompare]
    is a consistent order.  With a query it has at most 50 entries.  The
    query and the mode are not changed.  [state.allMerged] is left alone
    when a query or a version mode is active; otherwise it is the array
    that is sorted, so it comes out reordered like [state.list]. *)
Theorem filterAndPrepare_lists_candidates :
  forall (Date_parse : string -> option Z)
         (localeCompare : string -> string -> Z)
         (Fuse_search : list item -> string -> nat -> list fuse_result)
         (allApps : list item)
         (fuse_search : string -> nat -> list fuse_result)
         (st : state),
    let st' := filterAndPrepare Date_parse localeCompare Fuse_search allApps
                                fuse_search st in
    let cands := candidates Fuse_search allApps fuse_search st in
    Permutation (st_list st')
      (if is_version_mode (st_sort st)
       then List.filter (has_date Date_parse) cands else cands) /\
    ((forall a b, (0 < localeCompare a b -> localeCompare b a <= 0)%Z) ->
     (forall a b c, (localeCompare a b <= 0 -> localeCompare b c <= 0 ->
                     localeCompare a c <= 0)%Z) ->
     StronglySorted (Orders.mode_order Date_parse localeCompare (st_sort st))
                    (st_list st')) /\
    (JsString.trim (st_q st) <> "" ->
     length (st_list st') <= Search.default_limit) /\
    st_q st' = st_q st /\ st_sort st' = st_sort st /\
    (JsString.trim (st_q st) <> "" \/ is_version_mode (st_sort st) = true ->
     st_allMerged st' = st_allMerged st) /\
    (JsString.trim (st_q st) = "" -> is_version_mode (st_sort st) = false ->
     st_allMerged st' = st_list st' /\
     Permutation (st_allMerged st') (st_allMerged st)).
Proof.
  intros Date_parse localeCompare Fuse_search allApps fuse_search st st' cands.
  assert (Hlist : st_list st' =
            Controller.sortApps Date_parse localeCompare
              (if is_version_mode (st_sort st)
               then List.filter (has_date Date_parse) cands
               else cands) (st_sort st)) by reflexivity.
  split; [rewrite Hlist; apply GridOrder.sortApps_perm|].
  split.
  { intros Hanti Htrans. rewrite Hlist.
    now apply GridOrder.sortApps_mode_order. }
  split.
  { intros Hq. rewrite Hlist.
    rewrite (Permutation_length (GridOrder.sortApps_perm _ _ _ _)).
    assert (Hc : length cands <= Search.default_limit).
    { subst cands. unfold candidates.
      destruct (JsString.trim (st_q st)) eqn:E; [congruence|].
      cbn [JsString.truthy]. apply searchApps_length. }
    destruct (is_version_mode (st_sort st)); [|exact Hc].
    pose proof (filter_length_le (has_date Date_parse) cands). lia. }
  split; [reflexivity|]. split; [reflexivity|].
  split.
  - intros H. subst st'. unfold filterAndPrepare. cbn [st_allMerged appendBatch].
    destruct H as [H|H].
    + destruct (JsString.trim (st_q st)); [congruence | reflexivity].
    + rewrite H. now rewrite andb_false_r.
  - intros Hq Hm.
    assert (Hall : st_allMerged st' = st_list st').
    { subst st'. unfold filterAndPrepare. cbn [st_allMerged st_list appendBatch].
      now rewrite Hq, Hm. }
    split; [exact Hall|]. rewrite Hall, Hlist, Hm.
    subst cands. unfold candidates. rewrite Hq. cbn [JsString.truthy].
    apply GridOrder.sortApps_perm.
Qed.

Lemma filterAndPrepare_lists_candidates_witness :
  let st := {| st_allMerged := [Examples.undated_item; Examples.dated_item];
               st_list := []; st_rendered := 0; st_q := " ";
               st_sort := "name" |} in
  let st' := filterAndPrepare Sample.Date_parse Sample.localeCompare
               Sample.no_match [] (fun _ _ => []) st in
  st_allMerged st' = st_list st' /\
  Permutation (st_allMerged st') [Examples.undated_item; Examples.dated_item] /\
  StronglySorted
    (Orders.mode_order Sample.Date_parse Sample.localeCompare "name")
    (st_list st').
Proof.
  intros st st'.
  destruct (filterAndPrepare_lists_candidates Sample.Date_parse
              Sample.localeCompare Sample.no_match [] (fun _ _ => []) st)
    as (_ & Hsorted & _ & _ & _ & _ & Hshared).
  destruct (Hshared eq_refl eq_refl) as [H1 H2].
  split; [exact H1|]. split; [exact H2|].
  apply Hsorted; [apply GridOrder.sample_lc_antisym
                 | apply GridOrder.sample_lc_trans].
Defined.

End SearchMore.

(** ** Compact dates in calendar order *)

Module CompactDateFacts.
Import Utils CompactDate JsDate DateFacts.
Local Open Scope Z_scope.

Lemma InLeapYear_cases y :
  (InLeapYear y = true /\ y mod 4 = 0 /\ (y mod 100 <> 0 \/ y mod 400 = 0)) \/
  (InLeapYear y = false /\ (y mod 4 <> 0 \/ (y mod 100 = 0 /\ y mod 400 <> 0))).
Proof.
  unfold InLeapYear.
  destruct (Z.eqb_spec (y mod 4) 0), (Z.eqb_spec (y mod 100) 0),
    (Z.eqb_spec (y mod 400) 0); simpl; intuition.
Qed.

(** A year has 365 days, or 366 when it is a leap year. *)
Lemma DayFromYear_succ y :
  DayFromYear (y + 1) = DayFromYear y + 365 + (if InLeapYear y then 1 else 0).
Proof.
  unfold DayFromYear.
  destruct (InLeapYear_cases y) as [(-> & H4 & H100) | (-> & H)];
    Z.to_euclidean_division_equations; lia.
Qed.

Lemma DayFromYear_mono y k :
  0 <= k -> DayFromYear y <= DayFromYear (y + k).
Proof.
  intros Hk. revert y. pattern k. apply natlike_ind; [| |exact Hk].
  - intros y. rewrite Z.add_0_r. lia.
  - intros x Hx IH y. replace (y + Z.succ x) with ((y + x) + 1) by lia.
    rewrite DayFromYear_succ. specialize (IH y).
    destruct (InLeapYear (y + x)); lia.
Qed.

Lemma DayFromYear_next y1 y2 :
  y1 < y2 ->
  DayFromYear y1 + 365 + (if InLeapYear y1 then 1 else 0) <= DayFromYear y2.
Proof.
  intros H. rewrite <- DayFromYear_succ.
  replace y2 with ((y1 + 1) + (y2 - y1 - 1)) by lia.
  apply DayFromYear_mono. lia.
Qed.

(** The day of the year, from 0, of day [d] of month [mn] (0 = January). *)
Local Abbreviation yday y mn d :=
  (month_start mn + (if InLeapYear y && (2 <=? mn) then 1 else 0) + d - 1).

Lemma month_cases mn :
  0 <= mn < 12 ->
  mn = 0 \/ mn = 1 \/ mn = 2 \/ mn = 3 \/ mn = 4 \/ mn = 5 \/
  mn = 6 \/ mn = 7 \/ mn = 8 \/ mn = 9 \/ mn = 10 \/ mn = 11.
Proof. lia. Qed.

Lemma yday_range y mn d :
  0 <= mn < 12 -> 1 <= d <= DaysInMonth y mn ->
  0 <= yday y mn d < 365 + (if InLeapYear y then 1 else 0).
Proof.
  intros Hmn. apply month_cases in Hmn.
  repeat destruct Hmn as [->|Hmn]; try subst mn;
    unfold DaysInMonth; simpl; destruct (InLeapYear y); simpl; lia.
Qed.

Lemma yday_month_lt y mn1 d1 mn2 d2 :
  0 <= mn1 < 12 -> 0 <= mn2 < 12 ->
  1 <= d1 <= DaysInMonth y mn1 -> 1 <= d2 ->
  mn1 < mn2 -> yday y mn1 d1 < yday y mn2 d2.
Proof.
  intros H1 H2. apply month_cases in H1. apply month_cases in H2.
  repeat destruct H1 as [->|H1]; try subst mn1;
    repeat destruct H2 as [->|H2]; try subst mn2;
    try lia;
    unfold DaysInMonth; simpl; destruct (InLeapYear y); simpl; lia.
Qed.

Lemma MakeDay_in_year y mn d :
  0 <= mn < 12 -> MakeDay y mn d = DayFromYear y + yday y mn d.
Proof.
  intros Hmn. unfold MakeDay.
  rewrite (Z.div_small mn 12), (Z.mod_small mn 12) by lia.
  rewrite Z.add_0_r. lia.
Qed.

(** Days of the calendar in order: the day number grows with the date. *)
Lemma MakeDay_lt y1 mn1 d1 y2 mn2 d2 :
  0 <= mn1 < 12 -> 0 <= mn2 < 12 ->
  1 <= d1 <= DaysInMonth y1 mn1 -> 1 <= d2 <= DaysInMonth y2 mn2 ->
  y1 < y2 \/ (y1 = y2 /\ (mn1 < mn2 \/ (mn1 = mn2 /\ d1 < d2))) ->
  MakeDay y1 mn1 d1 < MakeDay y2 mn2 d2.
Proof.
  intros Hm1 Hm2 Hd1 Hd2 Hlt.
  rewrite !MakeDay_in_year by assumption.
  pose proof (yday_range y1 mn1 d1 Hm1 Hd1) as R1.
  pose proof (yday_range y2 mn2 d2 Hm2 Hd2) as R2.
  destruct Hlt as [Hy | [-> [Hm | [-> Hd]]]].
  - pose proof (DayFromYear_next y1 y2 Hy). lia.
  - pose proof (yday_month_lt y2 mn1 d1 mn2 d2 Hm1 Hm2 Hd1 (proj1 Hd2) Hm). lia.
  - lia.
Qed.

Lemma UTC_value y mo d h mi se :
  100 <= y < 10000 -> 0 <= mo < 12 -> 1 <= d <= 31 ->
  0 <= h < 24 -> 0 <= mi < 60 -> 0 <= se < 60 ->
  UTC y mo d h mi se
  = Some (MakeDay y mo d * msPerDay + (h * 3600000 + mi * 60000 + se * 1000)).
Proof.
  intros Hy Hmo Hd Hh Hmi Hse.
  destruct (DateFacts.UTC_in_range y mo d h mi se) as [t Ht]; try lia.
  rewrite Ht. f_equal. unfold UTC, TimeClip in Ht.
  assert (MakeFullYear y = y) as E.
  { unfold MakeFullYear. destruct (Z.leb_spec y 99); [lia|].
    now rewrite andb_false_r. }
  rewrite E in Ht.
  destruct (Z.abs _ <=? _); [|discriminate]. injection Ht as <-.
  unfold MakeDate, MakeTime, msPerDay, msPerHour, msPerMinute, msPerSecond.
  lia.
Qed.

Lemma DaysInMonth_le y mn : DaysInMonth y mn <= 31.
Proof.
  unfold DaysInMonth.
  repeat match goal with
         | |- context [match ?x with _ => _ end] => destruct x
         end; lia.
Qed.

(** The time value of valid fields. *)
Local Abbreviation stamp y mo d h mi se :=
  (MakeDay y (mo - 1) d * 86400000 + (h * 3600000 + mi * 60000 + se * 1000)).

Lemma calendar_valid_spec y mo d h mi se :
  calendar_valid (y, mo, d, h, mi, se) = true <->
  100 <= y /\ 1 <= mo <= 12 /\ 1 <= d <= DaysInMonth y (mo - 1) /\
  h < 24 /\ mi < 60 /\ se < 60.
Proof.
  unfold calendar_valid.
  rewrite !andb_true_iff, !Z.leb_le, !Z.ltb_lt. tauto.
Qed.

Lemma earlier_spec y1 mo1 d1 h1 mi1 se1 y2 mo2 d2 h2 mi2 se2 :
  earlier (y1, mo1, d1, h1, mi1, se1) (y2, mo2, d2, h2, mi2, se2) = true <->
  y1 < y2 \/ (y1 = y2 /\
  (mo1 < mo2 \/ (mo1 = mo2 /\
  (d1 < d2 \/ (d1 = d2 /\
  (h1 < h2 \/ (h1 = h2 /\
  (mi1 < mi2 \/ (mi1 = mi2 /\ se1 < se2))))))))).
Proof.
  unfold earlier.
  rewrite !orb_true_iff, !andb_true_iff, !orb_true_iff, !andb_true_iff,
    !Z.ltb_lt, !Z.eqb_eq.
  repeat (rewrite ?orb_true_iff, ?andb_true_iff, ?Z.ltb_lt, ?Z.eqb_eq).
  tauto.
Qed.

Lemma stamp_lt y1 mo1 d1 h1 mi1 se1 y2 mo2 d2 h2 mi2 se2 :
  1 <= mo1 <= 12 -> 1 <= d1 <= DaysInMonth y1 (mo1 - 1) ->
  0 <= h1 < 24 -> 0 <= mi1 < 60 -> 0 <= se1 < 60 ->
  1 <= mo2 <= 12 -> 1 <= d2 <= DaysInMonth y2 (mo2 - 1) ->
  0 <= h2 < 24 -> 0 <= mi2 < 60 -> 0 <= se2 < 60 ->
  earlier (y1, mo1, d1, h1, mi1, se1) (y2, mo2, d2, h2, mi2, se2) = true ->
  stamp y1 mo1 d1 h1 mi1 se1 < stamp y2 mo2 d2 h2 mi2 se2.
Proof.
  intros Hmo1 Hd1 Hh1 Hmi1 Hse1 Hmo2 Hd2 Hh2 Hmi2 Hse2 He.
  apply earlier_spec in He.
  assert (Hday : y1 < y2 \/ (y1 = y2 /\ (mo1 - 1 < mo2 - 1 \/
                   (mo1 - 1 = mo2 - 1 /\ d1 < d2))) ->
                 MakeDay y1 (mo1 - 1) d1 < MakeDay y2 (mo2 - 1) d2)
    by (apply MakeDay_lt; lia).
  destruct He as [Hy | [Hy [Hm | [Hm [Hd | [Hd Ht]]]]]].
  - assert (MakeDay y1 (mo1 - 1) d1 < MakeDay y2 (mo2 - 1) d2)
      by (apply Hday; lia). lia.
  - assert (MakeDay y1 (mo1 - 1) d1 < MakeDay y2 (mo2 - 1) d2)
      by (apply Hday; lia). lia.
  - assert (MakeDay y1 (mo1 - 1) d1 < MakeDay y2 (mo2 - 1) d2)
      by (apply Hday; lia). lia.
  - subst. lia.
Qed.

Lemma fullDateMatch_digits s g :
  fullDateMatch s = Some g ->
  String.length s = 14%nat /\ all_digits s = true /\
  g = (substring 0 4 s, substring 4 2 s, substring 6 2 s,
       substring 8 2 s, substring 10 2 s, substring 12 2 s).
Proof.
  unfold fullDateMatch.
  destruct (Nat.eqb_spec (String.length s) 14); simpl; [|discriminate].
  destruct (all_digits s); [|discriminate]. intros [= <-]. auto.
Qed.

Lemma compact_fields_range s y mo d h mi se :
  compact_fields s = Some (y, mo, d, h, mi, se) ->
  0 <= y < 10000 /\ 0 <= mo < 100 /\ 0 <= d < 100 /\
  0 <= h < 100 /\ 0 <= mi < 100 /\ 0 <= se < 100.
Proof.
  unfold compact_fields.
  destruct (fullDateMatch s) as [[[[[[g1 g2] g3] g4] g5] g6]|] eqn:E;
    [|discriminate].
  apply fullDateMatch_digits in E as (Hlen & Hd & [= -> -> -> -> -> ->]).
  destruct (DateFacts.parseInt_group s 0 4 Hd) as (v1 & -> & B1); [lia | lia |].
  destruct (DateFacts.parseInt_group s 4 2 Hd) as (v2 & -> & B2); [lia | lia |].
  destruct (DateFacts.parseInt_group s 6 2 Hd) as (v3 & -> & B3); [lia | lia |].
  destruct (DateFacts.parseInt_group s 8 2 Hd) as (v4 & -> & B4); [lia | lia |].
  destruct (DateFacts.parseInt_group s 10 2 Hd) as (v5 & -> & B5); [lia | lia |].
  destruct (DateFacts.parseInt_group s 12 2 Hd) as (v6 & -> & B6); [lia | lia |].
  intros [= <- <- <- <- <- <-]. simpl in *. lia.
Qed.

Lemma compactDate_fields s y mo d h mi se :
  compact_fields s = Some (y, mo, d, h, mi, se) ->
  compactDate s = UTC y (mo - 1) d h mi se.
Proof.
  unfold compact_fields, compactDate.
  destruct (fullDateMatch s) as [[[[[[g1 g2] g3] g4] g5] g6]|];
    [|discriminate].
  destruct (parseInt g1), (parseInt g2), (parseInt g3), (parseInt g4),
    (parseInt g5), (parseInt g6); try discriminate.
  now intros [= <- <- <- <- <- <-].
Qed.

Lemma compactDate_stamp s y mo d h mi se :
  compact_fields s = Some (y, mo, d, h, mi, se) ->
  calendar_valid (y, mo, d, h, mi, se) = true ->
  compactDate s = Some (stamp y mo d h mi se).
Proof.
  intros Hf Hv. rewrite (compactDate_fields _ _ _ _ _ _ _ Hf).
  apply compact_fields_range in Hf. apply calendar_valid_spec in Hv.
  pose proof (DaysInMonth_le y (mo - 1)).
  rewrite UTC_value by lia. reflexivity.
Qed.

(** *** The order of the text *)

Lemma parseInt_run s :
  all_digits s = true -> s <> "" ->
  exists n, digit_run 10 s None = Some n /\ parseInt s = Some (Z.of_N n).
Proof.
  intros H Hne. destruct s as [|c s]; [congruence|].
  assert (Hrun : exists n, digit_run 10 (String c s) None = Some n).
  { simpl in H. apply andb_true_iff in H as [Hc Hs]. simpl digit_run.
    destruct (digit_val_digit c Hc) as (d & -> & Hd).
    assert ((d <? 10)%N = true) as -> by now apply N.ltb_lt.
    destruct (digit_run_digits s d Hs) as (n & -> & Hn).
    now exists n. }
  destruct Hrun as (n & Hrun).
  exists n. split; [exact Hrun|].
  simpl in H. apply andb_true_iff in H as [Hc Hs].
  unfold parseInt.
  assert (Htrim : JsString.trimStart (String c s) = String c s).
  { digit_cases c Hc; reflexivity. }
  rewrite Htrim.
  destruct s as [|c2 s2].
  - digit_cases c Hc; cbv beta iota zeta; rewrite Hrun; reflexivity.
  - simpl in Hs. apply andb_true_iff in Hs as [Hc2 Hs2].
    digit_cases c Hc; digit_cases c2 Hc2;
      cbv beta iota zeta; rewrite Hrun; reflexivity.
Qed.

Lemma digit_code c d :
  JsString.is_digit c = true -> JsNumber.digit_val c = Some d ->
  N_of_ascii c = (48 + d)%N.
Proof.
  intros H. digit_cases c H; intros [= <-]; reflexivity.
Qed.

Lemma digits_compare s1 : forall s2 a n1 n2,
  all_digits s1 = true -> all_digits s2 = true ->
  String.length s1 = String.length s2 ->
  digit_run 10 s1 (Some a) = Some n1 -> digit_run 10 s2 (Some a) = Some n2 ->
  String.compare s1 s2 = N.compare n1 n2.
Proof.
  induction s1 as [|c1 r1 IH]; intros [|c2 r2] a n1 n2 H1 H2 Hlen R1 R2;
    try discriminate.
  - simpl in *. injection R1 as <-. injection R2 as <-.
    symmetry. apply N.compare_refl.
  - simpl in H1, H2. apply andb_true_iff in H1 as [Hc1 Hr1].
    apply andb_true_iff in H2 as [Hc2 Hr2].
    destruct (digit_val_digit c1 Hc1) as (d1 & Hv1 & Hb1).
    destruct (digit_val_digit c2 Hc2) as (d2 & Hv2 & Hb2).
    simpl in R1, R2. rewrite Hv1 in R1. rewrite Hv2 in R2.
    assert ((d1 <? 10)%N = true) as E1 by now apply N.ltb_lt.
    assert ((d2 <? 10)%N = true) as E2 by now apply N.ltb_lt.
    rewrite E1 in R1. rewrite E2 in R2.
    destruct (digit_run_digits r1 (a * 10 + d1)%N Hr1) as (m1 & M1 & B1).
    destruct (digit_run_digits r2 (a * 10 + d2)%N Hr2) as (m2 & M2 & B2).
    rewrite R1 in M1. injection M1 as <-.
    rewrite R2 in M2. injection M2 as <-.
    simpl in Hlen. injection Hlen as Hlen. rewrite <- Hlen in B2.
    simpl String.compare. unfold Ascii.compare.
    rewrite (digit_code c1 d1 Hc1 Hv1), (digit_code c2 d2 Hc2 Hv2).
    destruct (N.compare_spec (48 + d1) (48 + d2)) as [E|E|E].
    + assert (d1 = d2) as -> by lia.
      apply (IH r2 (a * 10 + d2)%N); auto.
    + symmetry. apply N.compare_lt_iff. nia.
    + symmetry. apply N.compare_gt_iff. nia.
Qed.

Lemma digit_run_step c d s acc :
  JsNumber.digit_val c = Some d -> (d < 10)%N ->
  digit_run 10 (String c s) acc
  = digit_run 10 s (Some (match acc with
                          | Some a => a * 10 + d
                          | None => d
                          end)%N).
Proof.
  intros Hv Hd. simpl. rewrite Hv.
  assert ((d <? 10)%N = true) as -> by now apply N.ltb_lt.
  reflexivity.
Qed.

Lemma parseInt_pair c1 c2 d1 d2 :
  JsString.is_digit c1 = true -> JsString.is_digit c2 = true ->
  JsNumber.digit_val c1 = Some d1 -> JsNumber.digit_val c2 = Some d2 ->
  (d1 < 10)%N -> (d2 < 10)%N ->
  parseInt (String c1 (String c2 EmptyString)) = Some (Z.of_N (d1 * 10 + d2)).
Proof.
  intros H1 H2 V1 V2 B1 B2.
  destruct (parseInt_run (String c1 (String c2 EmptyString)))
    as (n & Hr & ->); [simpl; now rewrite H1, H2 | discriminate |].
  rewrite (digit_run_step c1 d1 _ _ V1 B1), (digit_run_step c2 d2 _ _ V2 B2)
    in Hr.
  simpl in Hr. now injection Hr as <-.
Qed.

Lemma parseInt_quad c1 c2 c3 c4 d1 d2 d3 d4 :
  JsString.is_digit c1 = true -> JsString.is_digit c2 = true ->
  JsString.is_digit c3 = true -> JsString.is_digit c4 = true ->
  JsNumber.digit_val c1 = Some d1 -> JsNumber.digit_val c2 = Some d2 ->
  JsNumber.digit_val c3 = Some d3 -> JsNumber.digit_val c4 = Some d4 ->
  (d1 < 10)%N -> (d2 < 10)%N -> (d3 < 10)%N -> (d4 < 10)%N ->
  parseInt (String c1 (String c2 (String c3 (String c4 EmptyString))))
  = Some (Z.of_N (((d1 * 10 + d2) * 10 + d3) * 10 + d4)).
Proof.
  intros H1 H2 H3 H4 V1 V2 V3 V4 B1 B2 B3 B4.
  destruct (parseInt_run
              (String c1 (String c2 (String c3 (String c4 EmptyString)))))
    as (n & Hr & ->); [simpl; now rewrite H1, H2, H3, H4 | discriminate |].
  rewrite (digit_run_step c1 d1 _ _ V1 B1), (digit_run_step c2 d2 _ _ V2 B2),
    (digit_run_step c3 d3 _ _ V3 B3), (digit_run_step c4 d4 _ _ V4 B4) in Hr.
  simpl in Hr. now injection Hr as <-.
Qed.

(** The fourteen digits read as one number: the fields, each in its
    place. *)
Lemma compact_number s y mo d h mi se :
  compact_fields s = Some (y, mo, d, h, mi, se) ->
  digit_run 10 s (Some 0%N)
  = Some (Z.to_N (y * 10000000000 + mo * 100000000 + d * 1000000
                  + h * 10000 + mi * 100 + se)).
Proof.
  unfold compact_fields.
  destruct (fullDateMatch s) as [[[[[[g1 g2] g3] g4] g5] g6]|] eqn:E;
    [|discriminate].
  apply fullDateMatch_digits in E as (Hlen & Hd & Hg).
  destruct s as [|c1 s]; [discriminate|]. destruct s as [|c2 s]; [discriminate|].
  destruct s as [|c3 s]; [discriminate|]. destruct s as [|c4 s]; [discriminate|].
  destruct s as [|c5 s]; [discriminate|]. destruct s as [|c6 s]; [discriminate|].
  destruct s as [|c7 s]; [discriminate|]. destruct s as [|c8 s]; [discriminate|].
  destruct s as [|c9 s]; [discriminate|]. destruct s as [|c10 s]; [discriminate|].
  destruct s as [|c11 s]; [discriminate|]. destruct s as [|c12 s]; [discriminate|].
  destruct s as [|c13 s]; [discriminate|]. destruct s as [|c14 s]; [discriminate|].
  destruct s as [|c15 s]; [|discriminate].
  simpl in Hg. injection Hg as -> -> -> -> -> ->.
  simpl in Hd. repeat (apply andb_true_iff in Hd as [? Hd]).
  repeat match goal with
         | H : JsString.is_digit ?c = true |- _ =>
             lazymatch goal with
             | _ : JsNumber.digit_val c = Some _ |- _ => fail
             | _ => let d := fresh "d" in let V := fresh "V" in
                    let B := fresh "B" in
                    destruct (digit_val_digit c H) as (d & V & B)
             end
         end.
  repeat match goal with
         | V : JsNumber.digit_val ?c = Some ?d, B : (?d < 10)%N |- _ =>
             rewrite (digit_run_step c d _ _ V B); revert V
         end.
  intros.
  match goal with
  | Hf : _ = Some (y, mo, d, h, mi, se) |- _ =>
      erewrite parseInt_quad in Hf by eassumption;
      erewrite !parseInt_pair in Hf by eassumption;
      injection Hf as <- <- <- <- <- <-
  end.
  simpl digit_run. f_equal. lia.
Qed.

Lemma compact_fields_digits s f :
  compact_fields s = Some f ->
  String.length s = 14%nat /\ all_digits s = true.
Proof.
  unfold compact_fields.
  destruct (fullDateMatch s) as [g|] eqn:E; [|discriminate].
  apply fullDateMatch_digits in E as (Hlen & Hd & _). auto.
Qed.

(** Two compact dates compare as texts the way their fields compare as
    moments. *)
Lemma compact_text_order s1 s2 f1 f2 :
  compact_fields s1 = Some f1 -> compact_fields s2 = Some f2 ->
  String.ltb s1 s2 = earlier f1 f2.
Proof.
  destruct f1 as [[[[[y1 mo1] d1] h1] mi1] se1].
  destruct f2 as [[[[[y2 mo2] d2] h2] mi2] se2].
  intros Hf1 Hf2.
  destruct (compact_fields_digits _ _ Hf1) as [L1 D1].
  destruct (compact_fields_digits _ _ Hf2) as [L2 D2].
  pose proof (compact_fields_range _ _ _ _ _ _ _ Hf1) as R1.
  pose proof (compact_fields_range _ _ _ _ _ _ _ Hf2) as R2.
  pose proof (compact_number _ _ _ _ _ _ _ Hf1) as N1.
  pose proof (compact_number _ _ _ _ _ _ _ Hf2) as N2.
  unfold String.ltb.
  rewrite (digits_compare s1 s2 0%N _ _ D1 D2 (eq_trans L1 (eq_sym L2)) N1 N2).
  destruct (earlier _ _) eqn:E.
  - apply earlier_spec in E.
    assert (H : (Z.to_N (y1 * 10000000000 + mo1 * 100000000 + d1 * 1000000
                         + h1 * 10000 + mi1 * 100 + se1)
                 < Z.to_N (y2 * 10000000000 + mo2 * 100000000 + d2 * 1000000
                           + h2 * 10000 + mi2 * 100 + se2))%N) by lia.
    apply N.compare_lt_iff in H. now rewrite H.
  - assert (H : (Z.to_N (y2 * 10000000000 + mo2 * 100000000 + d2 * 1000000
                         + h2 * 10000 + mi2 * 100 + se2)
                 <= Z.to_N (y1 * 10000000000 + mo1 * 100000000 + d1 * 1000000
                            + h1 * 10000 + mi1 * 100 + se1))%N).
    { destruct (N.le_gt_cases
                  (Z.to_N (y2 * 10000000000 + mo2 * 100000000 + d2 * 1000000
                           + h2 * 10000 + mi2 * 100 + se2))
                  (Z.to_N (y1 * 10000000000 + mo1 * 100000000 + d1 * 1000000
                           + h1 * 10000 + mi1 * 100 + se1))) as [H|H];
        [exact H|].
      exfalso.
      assert (E' : earlier (y1, mo1, d1, h1, mi1, se1)
                           (y2, mo2, d2, h2, mi2, se2) = true);
        [|congruence].
      apply earlier_spec. lia. }
    apply N.compare_ge_iff in H.
    destruct (N.compare _ _); [reflexivity | congruence | reflexivity].
Qed.

(** [X22] Compact dates come out in calendar order.  For two strings in
    the YYYYMMDDHHmmss form whose fields name moments of the calendar
    (month 1 to 12, a day the month has, hour below 24, minute and second
    below 60) in years from 0100 on, the parser returns a time value for
    each; the earlier moment gets the smaller one, equal time values mean
    equal fields, and the text that is lower as a string is the earlier
    moment, so sorting by the parsed dates and sorting the raw strings
    agree. *)
Theorem compactDate_chronological :
  forall (s1 s2 : string) (f1 f2 : Z * Z * Z * Z * Z * Z),
    compact_fields s1 = Some f1 -> compact_fields s2 = Some f2 ->
    calendar_valid f1 = true -> calendar_valid f2 = true ->
    exists t1 t2,
      compactDate s1 = Some t1 /\ compactDate s2 = Some t2 /\
      (earlier f1 f2 = true <-> t1 < t2) /\
      (f1 = f2 <-> t1 = t2) /\
      (String.ltb s1 s2 = true <-> t1 < t2).
Proof.
  intros s1 s2 f1 f2 Hf1 Hf2 Hv1 Hv2.
  pose proof (compact_text_order s1 s2 f1 f2 Hf1 Hf2) as Htext.
  destruct f1 as [[[[[y1 mo1] d1] h1] mi1] se1].
  destruct f2 as [[[[[y2 mo2] d2] h2] mi2] se2].
  exists (stamp y1 mo1 d1 h1 mi1 se1), (stamp y2 mo2 d2 h2 mi2 se2).
  split; [now apply compactDate_stamp|]. split; [now apply compactDate_stamp|].
  pose proof (compact_fields_range _ _ _ _ _ _ _ Hf1) as R1.
  pose proof (compact_fields_range _ _ _ _ _ _ _ Hf2) as R2.
  apply calendar_valid_spec in Hv1, Hv2.
  assert (L12 : earlier (y1, mo1, d1, h1, mi1, se1) (y2, mo2, d2, h2, mi2, se2)
                = true ->
                stamp y1 mo1 d1 h1 mi1 se1 < stamp y2 mo2 d2 h2 mi2 se2)
    by (apply stamp_lt; lia).
  assert (L21 : earlier (y2, mo2, d2, h2, mi2, se2) (y1, mo1, d1, h1, mi1, se1)
                = true ->
                stamp y2 mo2 d2 h2 mi2 se2 < stamp y1 mo1 d1 h1 mi1 se1)
    by (apply stamp_lt; lia).
  assert (Tri : earlier (y1, mo1, d1, h1, mi1, se1)
                        (y2, mo2, d2, h2, mi2, se2) = true \/
                (y1, mo1, d1, h1, mi1, se1) = (y2, mo2, d2, h2, mi2, se2) \/
                earlier (y2, mo2, d2, h2, mi2, se2)
                        (y1, mo1, d1, h1, mi1, se1) = true).
  { rewrite !earlier_spec.
    destruct (Z.lt_trichotomy y1 y2) as [?|[->|?]]; [tauto| |tauto].
    destruct (Z.lt_trichotomy mo1 mo2) as [?|[->|?]]; [tauto| |tauto].
    destruct (Z.lt_trichotomy d1 d2) as [?|[->|?]]; [tauto| |tauto].
    destruct (Z.lt_trichotomy h1 h2) as [?|[->|?]]; [tauto| |tauto].
    destruct (Z.lt_trichotomy mi1 mi2) as [?|[->|?]]; [tauto| |tauto].
    destruct (Z.lt_trichotomy se1 se2) as [?|[->|?]]; tauto. }
  assert (Hiff : earlier (y1, mo1, d1, h1, mi1, se1)
                         (y2, mo2, d2, h2, mi2, se2) = true <->
                 stamp y1 mo1 d1 h1 mi1 se1 < stamp y2 mo2 d2 h2 mi2 se2).
  { split; [exact L12|]. intros Hlt.
    destruct Tri as [H|[H|H]]; [exact H | |].
    - injection H as -> -> -> -> -> ->. lia.
    - apply L21 in H. lia. }
  split; [exact Hiff|]. split.
  - split; [now intros [= -> -> -> -> -> ->]|]. intros Heq.
    destruct Tri as [H|[H|H]]; [|exact H|].
    + apply L12 in H. lia.
    + apply L21 in H. lia.
  - now rewrite Htext.
Qed.

Lemma compactDate_chronological_witness :
  exists t1 t2,
    compactDate "20230228235959" = Some t1 /\
    compactDate "20230301000000" = Some t2 /\ t1 < t2.
Proof.
  destruct (compactDate_chronological "20230228235959" "20230301000000"
              (2023, 2, 28, 23, 59, 59) (2023, 3, 1, 0, 0, 0))
    as (t1 & t2 & H1 & H2 & _ & _ & Hlt); try reflexivity.
  exists t1, t2. split; [exact H1|]. split; [exact H2|].
  apply Hlt. reflexivity.
Defined.

(** *** Fields outside the calendar *)

Lemma MakeFullYear_id y : 100 <= y -> MakeFullYear y = y.
Proof.
  intros H. unfold MakeFullYear. destruct (Z.leb_spec y 99); [lia|].
  now rewrite andb_false_r.
Qed.

Lemma MakeDay_next_year y d : MakeDay y 12 d = MakeDay (y + 1) 0 d.
Proof.
  unfold MakeDay. cbv zeta.
  change (12 / 12) with 1. change (12 mod 12) with 0.
  change (0 / 12) with 0. change (0 mod 12) with 0.
  rewrite (Z.add_0_r (y + 1)). reflexivity.
Qed.

Lemma MakeDay_next_month y mn k :
  0 <= mn < 11 ->
  MakeDay y mn (DaysInMonth y mn + k) = MakeDay y (mn + 1) k.
Proof.
  intros Hmn. rewrite !MakeDay_in_year by lia.
  assert (mn = 0 \/ mn = 1 \/ mn = 2 \/ mn = 3 \/ mn = 4 \/ mn = 5 \/
          mn = 6 \/ mn = 7 \/ mn = 8 \/ mn = 9 \/ mn = 10) as Hc by lia.
  repeat destruct Hc as [->|Hc]; try subst mn;
    unfold DaysInMonth; simpl; destruct (InLeapYear y); simpl; lia.
Qed.

Lemma UTC_same_day y1 mo1 d1 y2 mo2 d2 h mi se :
  100 <= y1 -> 100 <= y2 ->
  MakeDay y1 mo1 d1 = MakeDay y2 mo2 d2 ->
  UTC y1 mo1 d1 h mi se = UTC y2 mo2 d2 h mi se.
Proof.
  intros H1 H2 E. unfold UTC.
  now rewrite (MakeFullYear_id y1 H1), (MakeFullYear_id y2 H2), E.
Qed.

(** [X23] The compact form is not checked against the calendar: fields
    that overflow roll over.  In years from 0100 on, month 13 is read as
    January of the next year, a day past the end of a month as a day of
    the next month, and hour 24 as the start of the next day, each giving
    the very result of the string that names that moment properly. *)
Theorem compactDate_rolls_over :
  forall (s1 s2 : string) (y mo d h mi se : Z),
    100 <= y ->
    compact_fields s2 = Some (y, mo, d, h, mi, se) ->
    (compact_fields s1 = Some (y - 1, 13, d, h, mi, se) -> mo = 1 ->
     101 <= y -> compactDate s1 = compactDate s2) /\
    (compact_fields s1
       = Some (y, mo - 1, DaysInMonth y (mo - 2) + d, h, mi, se) ->
     2 <= mo <= 12 -> compactDate s1 = compactDate s2) /\
    (compact_fields s1 = Some (y, mo, d - 1, 24, mi, se) -> h = 0 ->
     compactDate s1 = compactDate s2).
Proof.
  intros s1 s2 y mo d h mi se Hy Hf2.
  rewrite (compactDate_fields _ _ _ _ _ _ _ Hf2).
  split; [|split].
  - intros Hf1 -> Hy'. rewrite (compactDate_fields _ _ _ _ _ _ _ Hf1).
    apply UTC_same_day; [lia | lia |].
    change (13 - 1) with 12. change (1 - 1) with 0.
    rewrite MakeDay_next_year. f_equal. lia.
  - intros Hf1 Hmo. rewrite (compactDate_fields _ _ _ _ _ _ _ Hf1).
    apply UTC_same_day; [lia | lia |].
    replace (mo - 2) with (mo - 1 - 1) by lia.
    rewrite MakeDay_next_month by lia. f_equal. lia.
  - intros Hf1 ->. rewrite (compactDate_fields _ _ _ _ _ _ _ Hf1).
    unfold UTC. rewrite (MakeFullYear_id y Hy). f_equal.
    unfold MakeDate, MakeDay, MakeTime, msPerDay, msPerHour, msPerMinute,
      msPerSecond. lia.
Qed.

Lemma compactDate_rolls_over_witness :
  compactDate "20231301000000" = compactDate "20240101000000" /\
  compactDate "20230230120000" = compactDate "20230302120000" /\
  compactDate "20230614240000" = compactDate "20230615000000".
Proof.
  split; [|split].
  - apply (proj1 (compactDate_rolls_over "20231301000000" "20240101000000"
                    2024 1 1 0 0 0 ltac:(lia) eq_refl));
      [reflexivity | reflexivity | lia].
  - apply (proj1 (proj2 (compactDate_rolls_over "20230230120000"
                           "20230302120000" 2023 3 2 12 0 0 ltac:(lia)
                           eq_refl)));
      [reflexivity | lia].
  - apply (proj2 (proj2 (compactDate_rolls_over "20230614240000"
                           "20230615000000" 2023 6 15 0 0 0 ltac:(lia)
                           eq_refl)));
      reflexivity.
Defined.

End CompactDateFacts.

(** ** The constructed repository, entry by entry *)

Module KitMore.
Import Js AltSourceKit AltSourceKitFacts.
Local Open Scope list_scope.

Section MapNew.
Context {A : Type} (ctor : value -> result A).

Lemma map_new_entries items : forall r,
  map_new ctor items = Ok r -> Forall2 (fun x a => ctor x = Ok a) items r.
Proof.
  induction items as [|x items IH]; intros r H; simpl in H.
  - injection H as <-. constructor.
  - destruct (ctor x) as [a|e] eqn:Ex; [|discriminate]. simpl in H.
    destruct (map_new ctor items) as [r'|e] eqn:Er; [|discriminate].
    simpl in H. injection H as <-. constructor; [exact Ex | now apply IH].
Qed.

Lemma map_new_first_throw pre x post e :
  Forall (fun y => exists a, ctor y = Ok a) pre -> ctor x = Throw e ->
  map_new ctor (pre ++ x :: post) = Throw e.
Proof.
  induction 1 as [|y pre [a Ha] _ IH]; intros Hx; simpl.
  - now rewrite Hx.
  - rewrite Ha. simpl. now rewrite (IH Hx).
Qed.

Lemma map_or_empty_entries v r :
  map_or_empty ctor v = Ok r ->
  (forall items, v = VArr items -> Forall2 (fun x a => ctor x = Ok a) items r)
  /\ (truthy v = false -> r = []).
Proof.
  intros H. split.
  - intros items ->. now apply map_new_entries.
  - intros Hf. rewrite (map_or_empty_falsy ctor v Hf) in H. now injection H.
Qed.

End MapNew.

(** [X24] A repository that is constructed holds its document's entries
    one for one and in order: its [apps] are the results of the [App]
    constructor on the entries of [data.apps], its [news] those of the
    [News] constructor on [data.news], and each app's [versions] those of
    the [Version] constructor on the app's own list; an absent or falsy
    list gives the empty list.  One entry that its constructor rejects
    fails the whole document: the first such app decides what the
    repository constructor throws. *)
Theorem new_ASRepository_keeps_entries :
  (forall data r,
     new_ASRepository data = Ok r ->
     (forall items, get data "apps" = VArr items ->
        Forall2 (fun x a => new_App x = Ok a) items (r_apps r)) /\
     (forall items, get data "news" = VArr items ->
        Forall2 (fun x n => new_News x = Ok n) items (r_news r)) /\
     (truthy (get data "apps") = false -> r_apps r = []) /\
     (truthy (get data "news") = false -> r_news r = [])) /\
  (forall data a,
     new_App data = Ok a ->
     (forall items, get data "versions" = VArr items ->
        Forall2 (fun x v => new_Version x = Ok v) items (a_versions a)) /\
     (truthy (get data "versions") = false -> a_versions a = [])) /\
  (forall data pre x post e,
     is_object data = true ->
     get data "apps" = VArr (pre ++ x :: post) ->
     Forall (fun y => exists a, new_App y = Ok a) pre ->
     new_App x = Throw e ->
     new_ASRepository data = Throw e).
Proof.
  split; [|split].
  - intros data r H. unfold new_ASRepository in H.
    destruct (guard "Invalid repository data" data); [|discriminate].
    simpl in H.
    destruct (map_or_empty new_App (get data "apps")) as [apps|] eqn:Ea;
      [|discriminate]. simpl in H.
    destruct (map_or_empty new_News (get data "news")) as [news|] eqn:En;
      [|discriminate]. simpl in H. injection H as <-. simpl.
    destruct (map_or_empty_entries new_App _ _ Ea) as [A1 A2].
    destruct (map_or_empty_entries new_News _ _ En) as [N1 N2].
    auto.
  - intros data a H. unfold new_App in H.
    destruct (guard "Invalid app data" data); [|discriminate]. simpl in H.
    destruct (map_or_empty new_Version (get data "versions")) as [vs|] eqn:Ev;
      [|discriminate]. simpl in H.
    destruct (map_or_empty new_Permission (get data "permissions"));
      [|discriminate]. simpl in H.
    destruct (truthy (get data "appPermissions")).
    + destruct (new_AppPermissions (get data "appPermissions"));
        [|discriminate]. simpl in H. injection H as <-. simpl.
      apply (map_or_empty_entries new_Version _ _ Ev).
    + simpl in H. injection H as <-. simpl.
      apply (map_or_empty_entries new_Version _ _ Ev).
  - intros data pre x post e Hobj Happs Hpre Hx.
    unfold new_ASRepository.
    assert (guard "Invalid repository data" data = Ok tt) as ->.
    { unfold guard, is_object in *. apply andb_prop in Hobj as [-> ->].
      reflexivity. }
    simpl. rewrite Happs, map_or_empty_array.
    now rewrite (map_new_first_throw new_App pre x post e Hpre Hx).
Qed.

Lemma new_ASRepository_keeps_entries_witness :
  new_ASRepository
    (VObj [("apps", VArr [VObj [("name", VStr "A")]; VNum 7;
                          VObj [("versions", VNum 1)]])])
  = Throw (Error "Invalid app data").
Proof.
  apply (proj2 (proj2 new_ASRepository_keeps_entries)
           (VObj [("apps", VArr [VObj [("name", VStr "A")]; VNum 7;
                                 VObj [("versions", VNum 1)]])])
           [VObj [("name", VStr "A")]] (VNum 7)
           [VObj [("versions", VNum 1)]]).
  - reflexivity.
  - reflexivity.
  - constructor; [|constructor]. eexists. reflexivity.
  - reflexivity.
Defined.

End KitMore.
